(** * rag-document-chat: retrieval, citation and ingestion paths

    A shallow embedding of [ingest.py], [vector_store.py], [rag_chain.py]
    and the handlers of [app.py].  Python values are modelled as the code
    uses them: [str] as [string], one element per character, for the
    characters below U+0100; [int] as [Z], the metadata and citation
    [dict]s as [gmap string pyval], the [seen] set as [gset string],
    exceptions as a sum type, and the Chroma collection and the
    chat-completion client as explicit collaborators. *)

From stdpp Require Import gmap strings list pretty sorting.
From Stdlib Require Import Ascii QArith.QArith_base.

Close Scope Q_scope.


(** ** Python values *)

Module Py.

(** Metadata values written by the ingestion module are [str] and [int]. *)
Inductive pyval :=
| PStr (s : string)
| PInt (z : Z).

#[global] Instance pyval_eq_dec : EqDecision pyval.
Proof. solve_decision. Defined.

(** Truth value of [if v:]. *)
Definition truthy (v : pyval) : bool :=
  match v with
  | PStr s => negb (String.eqb s "")
  | PInt z => negb (z =? 0)%Z
  end.

(** [f"{v}"]: a [str] as it is, an [int] in decimal. *)
Definition fmt (v : pyval) : string :=
  match v with
  | PStr s => s
  | PInt z => pretty z
  end.

(** [d.get(key, default)] *)
Definition dict_get (d : gmap string pyval) (key : string) (default : pyval) : pyval :=
  match d !! key with
  | Some v => v
  | None => default
  end.

(** An exception: its class and what [str(e)] prints. *)
Record exn := Exn { exn_class : string; exn_str : string }.

#[global] Instance exn_eq_dec : EqDecision exn.
Proof. solve_decision. Defined.

Definition newline : string := String (Ascii.ascii_of_nat 10) "".
Definition dquote : string := String (Ascii.ascii_of_nat 34) "".

(** [s[:n]] for [n >= 0]. *)
Fixpoint str_take (n : nat) (s : string) : string :=
  match n, s with
  | S n', String c s' => String c (str_take n' s')
  | _, _ => ""
  end.

(** [s[n:]] for [n >= 0]. *)
Fixpoint str_drop (n : nat) (s : string) : string :=
  match n, s with
  | S n', String _ s' => str_drop n' s'
  | _, _ => s
  end.

(** [l[start:end]] for [0 <= start <= end]. *)
Definition slice {A} (start stop : nat) (l : list A) : list A :=
  take (stop - start) (drop start l).

(** [l[-n:]] for [n >= 0]; Python reads [l[-0:]] as [l[0:]]. *)
Definition last_n {A} (n : nat) (l : list A) : list A :=
  if (n =? 0)%nat then l else drop (length l - n) l.

End Py.
Import Py.

Abbreviation Metadata := (gmap string pyval).

(** [langchain_core.documents.Document] *)
Record Document := mkDocument {
  page_content : string;
  metadata : gmap string pyval;
}.

#[global] Instance Document_eq_dec : EqDecision Document.
Proof. solve_decision. Defined.

(** ** rag_chain.py *)

Module RagChain.

Definition MODEL_ID : string := "meta-llama/Llama-3.2-3B-Instruct".

Definition STRICT_SYSTEM_PROMPT : string :=
  "You are a precise document assistant. Your ONLY job is to answer questions using the provided document context." +:+ newline +:+
  newline +:+
  "STRICT RULES:" +:+ newline +:+
  "1. Answer ONLY based on the information in the " +:+ dquote +:+ "Document Context" +:+ dquote +:+ " section below." +:+ newline +:+
  "2. If the answer is NOT found in the context, respond with: " +:+ dquote +:+ "⚠️ I don't have enough information in the uploaded documents to answer this question." +:+ dquote +:+ newline +:+
  "3. NEVER use your general knowledge or make assumptions beyond what the documents state." +:+ newline +:+
  "4. Always be specific and quote or reference the relevant parts of the documents." +:+ newline +:+
  "5. When citing information, mention the source document name.".

Definition HYBRID_SYSTEM_PROMPT : string :=
  "You are a knowledgeable assistant with access to uploaded documents. Your job is to provide helpful, accurate answers." +:+ newline +:+
  newline +:+
  "RULES:" +:+ newline +:+
  "1. Use the provided " +:+ dquote +:+ "Document Context" +:+ dquote +:+ " as your PRIMARY source of information." +:+ newline +:+
  "2. If the document context contains relevant information, base your answer on it and cite the source." +:+ newline +:+
  "3. If the document context is insufficient, you MAY supplement with your general knowledge, but clearly indicate when you are doing so by saying " +:+ dquote +:+ "Based on general knowledge:" +:+ dquote +:+ " or similar." +:+ newline +:+
  "4. Always prioritize document-grounded answers over general knowledge." +:+ newline +:+
  "5. When citing information from documents, mention the source document name.".

(** The [location] line of one context block. *)
Definition location_of (doc : Document) : string :=
  let source := dict_get (metadata doc) "source" (PStr "Unknown") in
  let page := dict_get (metadata doc) "page" (PStr "") in
  let chunk := dict_get (metadata doc) "chunk" (PStr "") in
  let location := "Source: " +:+ fmt source in
  let location := if truthy page then location +:+ ", Page " +:+ fmt page else location in
  let location := if truthy chunk then location +:+ ", Chunk " +:+ fmt chunk else location in
  location.

(** The loop of [_build_context_string]; [i] is the [enumerate] counter. *)
Fixpoint context_parts (i : Z) (retrieved_docs : list Document) : list string :=
  match retrieved_docs with
  | [] => []
  | doc :: rest =>
      ("[" +:+ pretty i +:+ "] " +:+ location_of doc +:+ newline +:+ page_content doc)
        :: context_parts (i + 1)%Z rest
  end.

Definition _build_context_string (retrieved_docs : list Document) : string :=
  match retrieved_docs with
  | [] => "No relevant documents found."
  | _ => String.concat (newline +:+ newline +:+ "---" +:+ newline +:+ newline)
           (context_parts 1%Z retrieved_docs)
  end.

(** One entry of the [messages] list: [{"role": ..., "content": ...}]. *)
Record Message := mkMessage { role : string; content : string }.

#[global] Instance Message_eq_dec : EqDecision Message.
Proof. solve_decision. Defined.

(** The body of the loop of [_format_chat_history]. *)
Definition history_step (messages : list Message) (entry : string * string) : list Message :=
  let '(role, content) := entry in
  if decide (role = "user") then messages ++ [mkMessage "user" content]
  else if decide (role = "assistant") then messages ++ [mkMessage "assistant" content]
  else messages.

Definition _format_chat_history (chat_history : list (string * string)) (max_turns : nat)
  : list Message :=
  let recent := last_n (max_turns * 2) chat_history in
  foldl history_step [] recent.

(** The uniqueness key of [_extract_sources]. *)
Definition source_key (doc : Document) : string :=
  let source := dict_get (metadata doc) "source" (PStr "Unknown") in
  let page := dict_get (metadata doc) "page" (PStr "") in
  let chunk := dict_get (metadata doc) "chunk" (PStr "") in
  fmt source +:+ "-p" +:+ fmt page +:+ "-c" +:+ fmt chunk.

Definition snippet_of (doc : Document) : string :=
  if (150 <? String.length (page_content doc))%nat
  then str_take 150 (page_content doc) +:+ "..."
  else page_content doc.

(** The citation [dict] built for a document whose key is new. *)
Definition citation_of (doc : Document) : gmap string pyval :=
  let source := dict_get (metadata doc) "source" (PStr "Unknown") in
  let page := dict_get (metadata doc) "page" (PStr "") in
  let chunk := dict_get (metadata doc) "chunk" (PStr "") in
  let doc_type := dict_get (metadata doc) "type" (PStr "") in
  let citation : gmap string pyval := {[ "source" := source; "type" := doc_type ]} in
  let citation := if truthy page then <["page" := page]> citation else citation in
  let citation := if truthy chunk then <["chunk" := chunk]> citation else citation in
  <["snippet" := PStr (snippet_of doc)]> citation.

(** The body of the loop of [_extract_sources] on [(sources, seen)]. *)
Definition extract_step (st : list (gmap string pyval) * gset string) (doc : Document)
  : list (gmap string pyval) * gset string :=
  let '(sources, seen) := st in
  let key := source_key doc in
  if decide (key ∈ seen) then (sources, seen)
  else (sources ++ [citation_of doc], {[ key ]} ∪ seen).

Definition _extract_sources (retrieved_docs : list Document) : list (gmap string pyval) :=
  (foldl extract_step ([], ∅) retrieved_docs).1.

(** *** The chat-completion collaborator *)

Record ChatRequest := mkChatRequest {
  req_model : string;
  req_messages : list Message;
  req_max_tokens : Z;
  req_temperature : Q;
}.

(** [{"answer": ..., "sources": ...}] *)
Record Answer := mkAnswer {
  answer : string;
  sources : list (gmap string pyval);
}.

Section Generate.

(** [client.chat.completions.create(...)] followed by
    [response.choices[0].message.content]: the text, or the exception
    raised inside the [try] block. *)
Variable create : ChatRequest -> exn + string.

Definition user_message_of (context_string question : string) : string :=
  "Document Context:" +:+ newline +:+
  context_string +:+ newline +:+
  newline +:+
  "Question: " +:+ question +:+ newline +:+
  newline +:+
  "Please provide a detailed answer based on the above context.".

(** [generate_answer] returns the requests it sent to the collaborator,
    in order, next to its result. *)
Definition generate_answer (question : string) (retrieved_docs : list Document)
    (chat_history : option (list (string * string))) (mode : string)
  : list ChatRequest * Answer :=
  let chat_history := match chat_history with None => [] | Some h => h end in
  let system_prompt :=
    if decide (mode = "strict") then STRICT_SYSTEM_PROMPT else HYBRID_SYSTEM_PROMPT in
  let context_string := _build_context_string retrieved_docs in
  let user_message := user_message_of context_string question in
  let messages := [mkMessage "system" system_prompt] in
  let history_messages := _format_chat_history chat_history 5 in
  let messages := messages ++ history_messages in
  let messages := messages ++ [mkMessage "user" user_message] in
  let request :=
    mkChatRequest MODEL_ID messages 1024%Z
      (if decide (mode = "strict") then 3 # 10 else 5 # 10)%Q in
  let answer :=
    match create request with
    | inr text => text
    | inl e => "❌ Error generating response: " +:+ exn_str e
    end in
  let sources := _extract_sources retrieved_docs in
  ([request], mkAnswer answer sources).

End Generate.

End RagChain.

(** ** ingest.py *)

Module Ingest.

(** [streamlit.UploadedFile]: the name and the uploaded bytes. *)
Record UploadedFile := mkUploadedFile { name : string; data : string }.

(** [p.rfind(c)]: the index of the last [c] in [p], or [-1]. *)
Fixpoint rfind_from (c : ascii) (p : string) (i : Z) (found : Z) : Z :=
  match p with
  | EmptyString => found
  | String a p' => rfind_from c p' (i + 1)%Z (if decide (a = c) then i else found)
  end.

Definition rfind (c : ascii) (p : string) : Z := rfind_from c p 0%Z (-1)%Z.

(** The [while] loop of [genericpath._splitext]: is there a character
    other than the dot in [p[filenameIndex:dotIndex]]? *)
Fixpoint has_stem (p : string) (filenameIndex : nat) (steps : nat) : bool :=
  match steps with
  | O => false
  | S steps' =>
      match String.get filenameIndex p with
      | Some "."%char => has_stem p (S filenameIndex) steps'
      | _ => true
      end
  end.

(** [os.path.splitext] on a POSIX path: the extension starts at the last
    dot of the last path component, leading dots of that component apart. *)
Definition splitext (p : string) : string * string :=
  let sepIndex := rfind "/"%char p in
  let dotIndex := rfind "."%char p in
  if (sepIndex <? dotIndex)%Z
     && has_stem p (Z.to_nat (sepIndex + 1)) (Z.to_nat (dotIndex - (sepIndex + 1)))
  then (str_take (Z.to_nat dotIndex) p, str_drop (Z.to_nat dotIndex) p)
  else (p, "").

(** [str.lower] on a character below U+0100: the letters A to Z and the
    capital letters of Latin-1, U+00C0 to U+00DE without the
    multiplication sign U+00D7, move up by 32; no other character
    changes.  On such strings [str.lower] works character by character. *)
Definition lower_char (c : ascii) : ascii :=
  let n := nat_of_ascii c in
  if ((65 <=? n)%nat && (n <=? 90)%nat)
     || ((192 <=? n)%nat && (n <=? 222)%nat && negb (n =? 215)%nat)
  then ascii_of_nat (n + 32) else c.

Fixpoint lower (s : string) : string :=
  match s with
  | EmptyString => EmptyString
  | String c s' => String (lower_char c) (lower s')
  end.

Definition file_ext (file : UploadedFile) : string := lower (splitext (name file)).2.

Section Loaders.

(** The three parsers; each returns the chunked documents of a file or
    raises what the parsing library raises. *)
Variables _load_pdf _load_docx _load_csv : UploadedFile -> exn + list Document.

(** [repr] of the set [SUPPORTED_EXTENSIONS]; the order in which a set
    prints its elements is not fixed. *)
Variable SUPPORTED_EXTENSIONS_repr : string.

Definition _LOADER_MAP : gmap string (UploadedFile -> exn + list Document) :=
  {[ ".pdf" := _load_pdf; ".docx" := _load_docx; ".csv" := _load_csv ]}.

Definition unsupported (ext : string) : exn :=
  Exn "ValueError"
    ("Unsupported file type: " +:+ ext +:+ ". Supported: " +:+ SUPPORTED_EXTENSIONS_repr).

Definition ingest_file (file : UploadedFile) : exn + list Document :=
  let ext := file_ext file in
  match _LOADER_MAP !! ext with
  | None => inl (unsupported ext)
  | Some loader => loader file
  end.

(** The loop of [ingest_files]; an exception of [ingest_file] ends it. *)
Fixpoint ingest_loop (all_docs : list Document) (files : list UploadedFile)
  : exn + list Document :=
  match files with
  | [] => inr all_docs
  | file :: rest =>
      match ingest_file file with
      | inl e => inl e
      | inr docs => ingest_loop (all_docs ++ docs) rest
      end
  end.

Definition ingest_files (files : list UploadedFile) : exn + list Document :=
  ingest_loop [] files.

End Loaders.

End Ingest.

(** ** The parsers of ingest.py *)

Module Parsers.

Import Ingest.

(** [str.isspace] on a character, for the code points below 256. *)
Definition is_space (c : ascii) : bool :=
  let n := nat_of_ascii c in
  ((9 <=? n)%nat && (n <=? 13)%nat) || ((28 <=? n)%nat && (n <=? 31)%nat)
  || (n =? 32)%nat || (n =? 133)%nat || (n =? 160)%nat.

(** The truth value of [s.strip()]: some character of [s] is not white
    space. *)
Fixpoint has_text (s : string) : bool :=
  match s with
  | EmptyString => false
  | String c s' => negb (is_space c) || has_text s'
  end.

#[global] Instance has_text_dec s : Decision (has_text s).
Proof. unfold Is_true. destruct (has_text s); apply _. Defined.

Definition pdf_metadata (source : string) (page_num chunk : Z) : gmap string pyval :=
  {[ "source" := PStr source; "page" := PInt page_num; "chunk" := PInt chunk;
     "type" := PStr "pdf" ]}.

Definition docx_metadata (source : string) (chunk : Z) : gmap string pyval :=
  {[ "source" := PStr source; "chunk" := PInt chunk; "type" := PStr "docx" ]}.

Definition csv_metadata (source : string) (chunk : Z) (columns : list string)
  : gmap string pyval :=
  {[ "source" := PStr source; "chunk" := PInt chunk; "type" := PStr "csv";
     "columns" := PStr (String.concat ", " columns) ]}.

(** The loop [for idx, chunk in enumerate(chunks): documents.append(...)],
    from the counter [idx], with the metadata of chunk number [idx + 1]. *)
Fixpoint append_chunks (meta : Z -> gmap string pyval) (idx : Z) (chunks : list string)
    (documents : list Document) : list Document :=
  match chunks with
  | [] => documents
  | chunk :: rest =>
      append_chunks meta (idx + 1)%Z rest (documents ++ [mkDocument chunk (meta (idx + 1)%Z)])
  end.

Section Libraries.

(** [text_splitter.split_text] *)
Variable split_text : string -> list string.

(** [PdfReader(file)] and [page.extract_text()] on each of its pages: the
    texts of the pages, or the exception one of the calls raises. *)
Variable PdfReader : UploadedFile -> exn + list string.

(** [DocxDocument(file)]: the texts of its paragraphs. *)
Variable DocxDocument : UploadedFile -> exn + list string.

(** [pd.read_csv(file)]: the column names and, row by row, the values as
    [f"{val}"] prints them. *)
Variable read_csv : UploadedFile -> exn + (list string * list (list string)).

(** The loop over the pages of [_load_pdf], from page number [page_num]. *)
Fixpoint pdf_pages (source : string) (page_num : Z) (pages : list string)
    (documents : list Document) : list Document :=
  match pages with
  | [] => documents
  | text :: rest =>
      let documents :=
        if has_text text
        then append_chunks (pdf_metadata source page_num) 0 (split_text text) documents
        else documents in
      pdf_pages source (page_num + 1)%Z rest documents
  end.

Definition _load_pdf (file : UploadedFile) : exn + list Document :=
  match PdfReader file with
  | inl e => inl e
  | inr pages => inr (pdf_pages (name file) 1 pages [])
  end.

Definition _load_docx (file : UploadedFile) : exn + list Document :=
  match DocxDocument file with
  | inl e => inl e
  | inr paragraphs =>
      let full_text := String.concat newline (filter (λ text, has_text text) paragraphs) in
      if negb (has_text full_text) then inr []
      else
        let chunks := split_text full_text in
        inr (append_chunks (docx_metadata (name file)) 0 chunks [])
  end.

(** One row of the table as text. *)
Definition row_str (columns row : list string) : string :=
  String.concat " | " (zip_with (λ col val, col +:+ ": " +:+ val) columns row).

Definition _load_csv (file : UploadedFile) : exn + list Document :=
  match read_csv file with
  | inl e => inl e
  | inr (columns, rows) =>
      let rows_text := row_str columns <$> rows in
      let full_text := String.concat newline rows_text in
      let chunks := split_text full_text in
      inr (append_chunks (λ chunk, csv_metadata (name file) chunk columns) 0 chunks [])
  end.

End Libraries.

End Parsers.

(** ** vector_store.py *)

Module VectorStore.

(** What [collection.query] returns: one inner list per query text;
    [metadatas] may be [None]. *)
Record QueryResult := mkQueryResult {
  documents : list (list string);
  metadatas : option (list (list (gmap string pyval)));
}.

(** A record as the collection holds it. *)
Record StoredRecord := mkStoredRecord {
  rec_id : string;
  rec_text : string;
  rec_meta : gmap string pyval;
}.

#[global] Instance StoredRecord_eq_dec : EqDecision StoredRecord.
Proof. solve_decision. Defined.

Definition document_of (r : StoredRecord) : Document :=
  mkDocument (rec_text r) (rec_meta r).

(** [l[i]], raising [IndexError] out of range. *)
Definition list_index {A} (l : list A) (i : nat) : exn + A :=
  match l !! i with
  | Some x => inr x
  | None => inl (Exn "IndexError" "list index out of range")
  end.

(** The records a call to [collection.add] describes. *)
Fixpoint zip_records (ids texts : list string) (metas : list (gmap string pyval))
  : list StoredRecord :=
  match ids, texts, metas with
  | i :: ids', t :: texts', m :: metas' => mkStoredRecord i t m :: zip_records ids' texts' metas'
  | _, _, _ => []
  end.

Section Store.

(** The persisted state behind the Chroma client. *)
Context {Store : Type}.

(** A call that reads or changes the store and returns or raises; what
    it changed before raising stays changed. *)
Definition M (A : Type) : Type := Store -> (exn + A) * Store.

Definition ret {A} (a : A) : M A := fun s => (inr a, s).

Definition raise {A} (e : exn) : M A := fun s => (inl e, s).

Definition bind {A B} (m : M A) (k : A -> M B) : M B :=
  fun s =>
    match m s with
    | (inr a, s') => k a s'
    | (inl e, s') => (inl e, s')
    end.

(** [try: body  except Exception: handler] *)
Definition try_except {A} (body : M A) (handler : exn -> M A) : M A :=
  fun s =>
    match body s with
    | (inr a, s') => (inr a, s')
    | (inl e, s') => handler e s'
    end.

Definition lift {A} (r : exn + A) : M A := fun s => (r, s).

(** The operations of the Chroma client and collection the module calls. *)
Record Collection := mkCollection {
  get_or_create_collection : M unit;
  collection_add : list string -> list string -> list (gmap string pyval) -> M unit;
  collection_count : M Z;
  collection_query : list string -> Z -> M QueryResult;
  collection_get_ids : M (list string);
  collection_delete : list string -> M unit;
}.

End Store.

Arguments M : clear implicits.
Arguments Collection : clear implicits.

#[global] Instance M_ret {Store} : MRet (M Store) := fun A => ret.
#[global] Instance M_bind {Store} : MBind (M Store) := fun A B k m => bind m k.

Section Api.

Context {Store : Type}.
Variable chroma : Collection Store.

(** Python's [hash] on [str], fixed for the life of the interpreter. *)
Variable hash : string -> Z.

Definition _get_collection : M Store unit := get_or_create_collection chroma.

Definition record_id (i : nat) (doc : Document) : string :=
  "doc_" +:+ pretty (Z.of_nat i) +:+ "_" +:+ pretty (hash (page_content doc) `mod` 100000)%Z.

Definition record_ids (documents : list Document) : list string :=
  imap record_id documents.

Definition batch_size : nat := 100.

(** [len(range(0, n, step))] *)
Definition range_len (n step : nat) : nat := (n + (step - 1)) / step.

(** The [for start in range(0, len(texts), batch_size)] loop, [steps]
    iterations from [start]. *)
Fixpoint add_batches (steps start : nat) (ids texts : list string)
    (metas : list (gmap string pyval)) : M Store unit :=
  match steps with
  | O => ret tt
  | S steps' =>
      let stop := (start + batch_size)%nat in
      collection_add chroma (slice start stop ids) (slice start stop texts)
        (slice start stop metas);;
      add_batches steps' stop ids texts metas
  end.

Definition add_documents (documents : list Document) : M Store unit :=
  _get_collection;;
  let ids := record_ids documents in
  let texts := page_content <$> documents in
  let metas := metadata <$> documents in
  add_batches (range_len (length texts) batch_size) 0 ids texts metas.

(** The loop that rebuilds [Document]s from a query result, from row [i]
    for [steps] rows. *)
Fixpoint collect_documents (results : QueryResult) (steps i : nat) (acc : list Document)
  : exn + list Document :=
  match steps with
  | O => inr acc
  | S steps' =>
      match list_index (documents results) 0 with
      | inl e => inl e
      | inr row =>
          match list_index row i with
          | inl e => inl e
          | inr text =>
              let meta :=
                match metadatas results with
                | Some (m :: ms) =>
                    match list_index (m :: ms) 0 with
                    | inl e => inl e
                    | inr mrow => list_index mrow i
                    end
                | _ => inr ∅
                end in
              match meta with
              | inl e => inl e
              | inr md => collect_documents results steps' (S i) (acc ++ [mkDocument text md])
              end
          end
      end
  end.

Definition search (query : string) (k : Z) : M Store (list Document) :=
  _get_collection;;
  count ← collection_count chroma;
  if (count =? 0)%Z then ret []
  else
    let k := Z.min k count in
    results ← collection_query chroma [query] k;
    row ← lift (list_index (documents results) 0);
    lift (collect_documents results (length row) 0 []).

Definition get_document_count : M Store Z :=
  try_except (_get_collection;; collection_count chroma) (fun _ => ret 0%Z).

Definition clear : M Store unit :=
  try_except
    (_get_collection;;
     all_ids ← collection_get_ids chroma;
     match all_ids with
     | [] => ret tt
     | _ => collection_delete chroma all_ids
     end)
    (fun _ => ret tt).

End Api.

(** *** What the module relies on from Chroma *)

Section Contract.

Context {Store : Type}.
Variable chroma : Collection Store.

(** The records the store holds, in insertion order. *)
Variable records : Store -> list StoredRecord.

(** The similarity of a stored record to a query text; only the order
    of the scores matters, higher is closer. *)
Variable similarity : string -> StoredRecord -> Z.

(** Record [i] is ranked before record [j]: a higher score, or the same
    score and inserted earlier. *)
Definition outranks (score : StoredRecord -> Z) (recs : list StoredRecord) (i j : nat)
  : Prop :=
  ∃ ri rj, recs !! i = Some ri ∧ recs !! j = Some rj ∧
           ((score rj < score ri)%Z ∨ (score ri = score rj ∧ i < j)).

(** [idx] lists the positions of the [m] best records, best first. *)
Definition top_k (score : StoredRecord -> Z) (recs : list StoredRecord) (m : nat)
    (idx : list nat) : Prop :=
  length idx = m ∧
  (∀ i, i ∈ idx → i < length recs) ∧
  StronglySorted (outranks score recs) idx ∧
  (∀ i j, i ∈ idx → j < length recs → j ∉ idx → outranks score recs i j).

(** Reading: the collection opens, counts its records, and answers a
    query for [1 <= m <= count] results with the [m] nearest records. *)
Record QueryContract : Prop := {
  open_ok : ∀ s, get_or_create_collection chroma s = (inr tt, s);
  count_ok : ∀ s, collection_count chroma s = (inr (Z.of_nat (length (records s))), s);
  query_ok : ∀ q m s,
    (1 ≤ m ≤ Z.of_nat (length (records s)))%Z →
    ∃ idx top,
      top_k (similarity q) (records s) (Z.to_nat m) idx ∧
      Forall2 (λ i r, records s !! i = Some r) idx top ∧
      collection_query chroma [q] m s =
        (inr (mkQueryResult [rec_text <$> top] (Some [rec_meta <$> top])), s);
}.

(** Writing: opening the collection adds or removes nothing, and a call
    to [add] commits all of its records or none. *)
Record WriteContract : Prop := {
  open_keeps : ∀ s r s', get_or_create_collection chroma s = (r, s') → records s' = records s;
  add_commits : ∀ ids texts metas s s',
    collection_add chroma ids texts metas s = (inr tt, s') →
    records s' = records s ++ zip_records ids texts metas;
  add_atomic : ∀ ids texts metas s e s',
    collection_add chroma ids texts metas s = (inl e, s') →
    records s' = records s;
}.

End Contract.

(** *** A list-backed collection with fault injection *)

Module RefStore.

(** The held records, and how many writes succeed before the storage
    fails ([None]: it never fails); reads always succeed. *)
Record state := mkState {
  held : list StoredRecord;
  writes_left : option nat;
}.

Definition storage_error : exn := Exn "StorageError" "database is locked".

Definition write (f : list StoredRecord -> list StoredRecord) : M state unit :=
  fun s =>
    match writes_left s with
    | Some O => (inl storage_error, s)
    | w => (inr tt, mkState (f (held s)) (Nat.pred <$> w))
    end.

Definition read {A} (f : list StoredRecord -> A) : M state A :=
  fun s => (inr (f (held s)), s).

(** The order of the ranking on records paired with their position. *)
Definition ranks_before (score : StoredRecord -> Z) (a b : nat * StoredRecord) : Prop :=
  (score b.2 < score a.2)%Z ∨ (score a.2 = score b.2 ∧ a.1 ≤ b.1).

#[global] Instance ranks_before_dec score : RelDecision (ranks_before score).
Proof. intros a b. unfold ranks_before. apply _. Defined.

Definition ranked (score : StoredRecord -> Z) (recs : list StoredRecord)
  : list (nat * StoredRecord) :=
  merge_sort (ranks_before score) (imap pair recs).

Section WithSimilarity.

Variable sim : string -> StoredRecord -> Z.

Definition nearest (n : Z) (recs : list StoredRecord) (q : string) : list StoredRecord :=
  snd <$> take (Z.to_nat n) (ranked (sim q) recs).

Definition ref_query (qs : list string) (n : Z) : M state QueryResult :=
  fun s =>
    if (n <=? 0)%Z
    then (inl (Exn "TypeError" "Number of requested results cannot be negative, or zero."), s)
    else
      let tops := nearest n (held s) <$> qs in
      (inr (mkQueryResult (fmap rec_text <$> tops) (Some (fmap rec_meta <$> tops))), s).

Definition ref_collection : Collection state := {|
  get_or_create_collection := ret tt;
  collection_add := fun ids texts metas => write (fun recs => recs ++ zip_records ids texts metas);
  collection_count := read (fun recs => Z.of_nat (length recs));
  collection_query := ref_query;
  collection_get_ids := read (fmap rec_id);
  collection_delete := fun ids => write (filter (fun r => rec_id r ∉ ids));
|}.

End WithSimilarity.

End RefStore.

End VectorStore.

(** ** More of what the module relies on from Chroma *)

Module StoreContracts.

Import VectorStore.

Section Deleting.

Context {Store : Type}.
Variable chroma : Collection Store.
Variable records : Store -> list StoredRecord.

(** Clearing: opening the collection and listing the ids change nothing,
    the listing names every record, and a call to [delete] removes all the
    records it names or none. *)
Record DeleteContract : Prop := {
  del_open_keeps : ∀ s r s',
    get_or_create_collection chroma s = (r, s') → records s' = records s;
  get_keeps : ∀ s r s', collection_get_ids chroma s = (r, s') → records s' = records s;
  get_lists : ∀ s ids s',
    collection_get_ids chroma s = (inr ids, s') → ids = rec_id <$> records s;
  delete_removes : ∀ ids s s',
    collection_delete chroma ids s = (inr tt, s') →
    records s' = filter (λ r, rec_id r ∉ ids) (records s);
  delete_atomic : ∀ ids s e s',
    collection_delete chroma ids s = (inl e, s') → records s' = records s;
}.

(** A call of [clear] to the store raised, leaving the state [s']. *)
Definition raised_in_clear (s s' : Store) : Prop :=
  ∃ e,
    get_or_create_collection chroma s = (inl e, s') ∨
    (∃ s0, collection_get_ids chroma s0 = (inl e, s')) ∨
    (∃ ids s0, collection_delete chroma ids s0 = (inl e, s')).

End Deleting.

(** *** Chroma without a word on the ranking *)

Section Answering.

Context {Store : Type}.
Variable chroma : Collection Store.
Variable records : Store -> list StoredRecord.

(** Reading: the collection opens, counts its records, answers a request
    for [1 <= m <= count] results with [m] of its records, which it
    chooses and orders, and refuses a request for no result or for a
    negative number of them. *)
Record AnswerContract : Prop := {
  ans_open : ∀ s, get_or_create_collection chroma s = (inr tt, s);
  ans_count : ∀ s, collection_count chroma s = (inr (Z.of_nat (length (records s))), s);
  ans_query : ∀ q m s,
    (1 ≤ m ≤ Z.of_nat (length (records s)))%Z →
    ∃ idx top,
      length idx = Z.to_nat m ∧
      NoDup idx ∧
      Forall2 (λ i r, records s !! i = Some r) idx top ∧
      collection_query chroma [q] m s =
        (inr (mkQueryResult [rec_text <$> top] (Some [rec_meta <$> top])), s);
  ans_refuses : ∀ q m s,
    (m ≤ 0)%Z → ∃ e, collection_query chroma [q] m s = (inl e, s);
}.

(** Adding, as Chroma does it: opening the collection adds or removes
    nothing, and a call to [add] that returns has appended its records in
    order, those apart whose id the collection already held, which it
    leaves out without an error. *)
Record SkipContract : Prop := {
  skip_open_keeps : ∀ s r s',
    get_or_create_collection chroma s = (r, s') → records s' = records s;
  add_skips : ∀ ids texts metas s s',
    collection_add chroma ids texts metas s = (inr tt, s') →
    records s' =
      records s ++
      filter (λ r, rec_id r ∉ rec_id <$> records s) (zip_records ids texts metas);
}.

End Answering.

(** *** The list-backed collection with Chroma's rule for ids already held *)

Module Skipping.

Definition add_new (ids texts : list string) (metas : list (gmap string pyval))
  : M RefStore.state unit :=
  RefStore.write
    (fun recs =>
       recs ++ filter (fun r => rec_id r ∉ rec_id <$> recs) (zip_records ids texts metas)).

Definition skip_collection (sim : string -> StoredRecord -> Z) : Collection RefStore.state := {|
  get_or_create_collection := ret tt;
  collection_add := add_new;
  collection_count := RefStore.read (fun recs => Z.of_nat (length recs));
  collection_query := RefStore.ref_query sim;
  collection_get_ids := RefStore.read (fmap rec_id);
  collection_delete := fun ids => RefStore.write (filter (fun r => rec_id r ∉ ids));
|}.

End Skipping.

(** *** A list-backed collection that answers ties the other way round *)

Module NewestFirst.

(** The records by descending score, the later inserted first among
    records of the same score: the ranking by ascending score with the
    earlier inserted first, read backwards. *)
Definition newest_ranked (score : StoredRecord -> Z) (recs : list StoredRecord)
  : list (nat * StoredRecord) :=
  reverse (RefStore.ranked (fun r => (- score r)%Z) recs).

Definition newest_query (sim : string -> StoredRecord -> Z) (qs : list string) (n : Z)
  : M RefStore.state QueryResult :=
  fun s =>
    if (n <=? 0)%Z
    then (inl (Exn "TypeError" "Number of requested results cannot be negative, or zero."), s)
    else
      let tops :=
        (fun q => snd <$> take (Z.to_nat n) (newest_ranked (sim q) (RefStore.held s))) <$> qs in
      (inr (mkQueryResult (fmap rec_text <$> tops) (Some (fmap rec_meta <$> tops))), s).

Definition newest_collection (sim : string -> StoredRecord -> Z) : Collection RefStore.state := {|
  get_or_create_collection := ret tt;
  collection_add :=
    fun ids texts metas => RefStore.write (fun recs => recs ++ zip_records ids texts metas);
  collection_count := RefStore.read (fun recs => Z.of_nat (length recs));
  collection_query := newest_query sim;
  collection_get_ids := RefStore.read (fmap rec_id);
  collection_delete := fun ids => RefStore.write (filter (fun r => rec_id r ∉ ids));
|}.

End NewestFirst.

(** *** A collection that only records the calls to [add] *)

Module Recorder.

(** One call: the ids, the texts and the metadatas passed. *)
Definition call : Type := list string * list string * list (gmap string pyval).

Definition unused : exn := Exn "NotImplementedError" "recorder".

Definition rec_collection : Collection (list call) := {|
  get_or_create_collection := ret tt;
  collection_add := fun ids texts metas log => (inr tt, log ++ [(ids, texts, metas)]);
  collection_count := raise unused;
  collection_query := fun _ _ => raise unused;
  collection_get_ids := raise unused;
  collection_delete := fun _ => raise unused;
|}.

End Recorder.

(** *** A collection with canned answers *)

Module Canned.

(** A collection without state that reports [count] records and answers
    every query with [answer]. *)
Definition canned (count : exn + Z) (answer : exn + QueryResult) : Collection unit := {|
  get_or_create_collection := ret tt;
  collection_add := fun _ _ _ => ret tt;
  collection_count := lift count;
  collection_query := fun _ _ => lift answer;
  collection_get_ids := ret [];
  collection_delete := fun _ => ret tt;
|}.

End Canned.

End StoreContracts.

(** ** app.py: the handlers of the page *)

Module App.

Import VectorStore RagChain Ingest.

(** An entry of [st.session_state.chat_history]; the user entries have no
    "sources" key. *)
Record ChatEntry := mkChatEntry {
  entry_role : string;
  entry_content : string;
  entry_sources : option (list (gmap string pyval));
}.

(** [st.session_state] *)
Record SessionState := mkSessionState {
  chat_history : list ChatEntry;
  documents_loaded : bool;
  mode : string;
  file_names : list string;
}.

(** What a handler puts on the page. *)
Inductive Shown :=
| ShowWarning (text : string)
| ShowError (text : string)
| ShowSuccess (text : string)
| ShowInfo (text : string)
| ShowExpander (title : string)
| ShowChatMessage (role text : string).

(** The store, the session, the page and the requests sent to the
    completion client so far. *)
Record World (Store : Type) := mkWorld {
  store : Store;
  session : SessionState;
  screen : list Shown;
  requests : list ChatRequest;
}.

Arguments mkWorld {Store}.
Arguments store {Store}.
Arguments session {Store}.
Arguments screen {Store}.
Arguments requests {Store}.

(** [d[key]], raising [KeyError]. *)
Definition dict_item (d : gmap string pyval) (key : string) : exn + pyval :=
  match d !! key with
  | Some v => inr v
  | None => inl (Exn "KeyError" ("'" +:+ key +:+ "'"))
  end.

(** The text of the [st.info] box of one source. *)
Definition source_info_box (src : gmap string pyval) : exn + string :=
  match dict_item src "source" with
  | inl e => inl e
  | inr source =>
      let source_info := "📄 **" +:+ fmt source +:+ "**" in
      let source_info :=
        match src !! "page" with
        | Some page => source_info +:+ " — Page " +:+ fmt page
        | None => source_info
        end in
      let source_info :=
        match src !! "chunk" with
        | Some chunk => source_info +:+ ", Chunk " +:+ fmt chunk
        | None => source_info
        end in
      let snippet := dict_get src "snippet" (PStr "") in
      inr (source_info +:+ newline +:+ newline +:+ "_" +:+ fmt snippet +:+ "_")
  end.

Section Handlers.

Context {Store : Type}.
Variable chroma : Collection Store.
Variable hash : string -> Z.
Variable create : ChatRequest -> exn + string.
Variables _load_pdf _load_docx _load_csv : UploadedFile -> exn + list Document.
Variable SUPPORTED_EXTENSIONS_repr : string.

(** A call of the vector store module, on the store of the world. *)
Definition on_store {A} (m : M Store A) : M (World Store) A :=
  fun w =>
    let '(r, st) := m (store w) in
    (r, mkWorld st (session w) (screen w) (requests w)).

Definition show (x : Shown) : M (World Store) unit :=
  fun w => (inr tt, mkWorld (store w) (session w) (screen w ++ [x]) (requests w)).

Definition get_session : M (World Store) SessionState :=
  fun w => (inr (session w), w).

Definition put_session (ss : SessionState) : M (World Store) unit :=
  fun w => (inr tt, mkWorld (store w) ss (screen w) (requests w)).

Definition sent (reqs : list ChatRequest) : M (World Store) unit :=
  fun w => (inr tt, mkWorld (store w) (session w) (screen w) (requests w ++ reqs)).

(** The [for src in result["sources"]] loop. *)
Fixpoint show_sources (srcs : list (gmap string pyval)) : M (World Store) unit :=
  match srcs with
  | [] => ret tt
  | src :: rest =>
      box ← lift (source_info_box src);
      show (ShowInfo box);;
      show_sources rest
  end.

(** [if result["sources"]:] the expander and a box for each source. *)
Definition show_source_list (srcs : list (gmap string pyval)) : M (World Store) unit :=
  match srcs with
  | [] => ret tt
  | _ =>
      show (ShowExpander ("📎 Sources (" +:+ pretty (length srcs) +:+ " references)"));;
      show_sources srcs
  end.

(** A click on "Process Documents" with [uploaded_files] in the uploader. *)
Definition process_documents (uploaded_files : list UploadedFile) : M (World Store) unit :=
  match uploaded_files with
  | [] => ret tt
  | _ =>
      try_except
        (documents ← lift (ingest_files _load_pdf _load_docx _load_csv
                             SUPPORTED_EXTENSIONS_repr uploaded_files);
         match documents with
         | [] => show (ShowError "❌ No text content could be extracted from the uploaded files.")
         | _ =>
             on_store (add_documents chroma hash documents);;
             ss ← get_session;
             put_session (mkSessionState (chat_history ss) true (mode ss) (file_names ss));;
             ss ← get_session;
             put_session (mkSessionState (chat_history ss) (documents_loaded ss) (mode ss)
                            (name <$> uploaded_files));;
             show (ShowSuccess ("✅ Processed " +:+ pretty (length uploaded_files) +:+
                                " file(s) → " +:+ pretty (length documents) +:+
                                " chunks embedded!"))
         end)
        (fun e => show (ShowError ("❌ Error processing documents: " +:+ exn_str e)))
  end.

(** A click on "Clear Knowledge Base". *)
Definition clear_knowledge_base : M (World Store) unit :=
  on_store (clear chroma);;
  ss ← get_session;
  put_session (mkSessionState [] false (mode ss) []);;
  show (ShowSuccess "Knowledge base cleared!").

(** [not st.session_state.documents_loaded and get_document_count() == 0],
    and its twin with [> 0]: the count is asked only when no document is
    marked as loaded. *)
Definition unloaded_and_count (test : Z -> bool) : M (World Store) bool :=
  ss ← get_session;
  if documents_loaded ss then ret false
  else n ← on_store (get_document_count chroma); ret (test n).

(** The block under [st.chat_message("assistant")] and the two appends
    that follow it: search, ask the model, show the answer and its
    sources, save the exchange. *)
Definition answer_question (prompt : string) : M (World Store) unit :=
  retrieved_docs ← on_store (search chroma prompt 5);
  ss ← get_session;
  let history_for_llm := (fun entry => (entry_role entry, entry_content entry))
                           <$> chat_history ss in
  let '(reqs, result) :=
    generate_answer create prompt retrieved_docs (Some history_for_llm) (mode ss) in
  sent reqs;;
  show (ShowChatMessage "assistant" (answer result));;
  show_source_list (sources result);;
  ss ← get_session;
  put_session (mkSessionState
                 (chat_history ss ++ [mkChatEntry "user" prompt None])
                 (documents_loaded ss) (mode ss) (file_names ss));;
  ss ← get_session;
  put_session (mkSessionState
                 (chat_history ss ++
                  [mkChatEntry "assistant" (answer result) (Some (sources result))])
                 (documents_loaded ss) (mode ss) (file_names ss)).

(** A question typed in the chat input. *)
Definition chat_input (prompt : string) : M (World Store) unit :=
  if decide (prompt = "") then ret tt
  else
    no_base ← unloaded_and_count (fun n => (n =? 0)%Z);
    if (no_base : bool)
    then show (ShowWarning "⚠️ Please upload and process documents first using the sidebar.")
    else
      found ← unloaded_and_count (fun n => (0 <? n)%Z);
      (if (found : bool)
       then ss ← get_session;
            put_session (mkSessionState (chat_history ss) true (mode ss) (file_names ss))
       else ret tt);;
      show (ShowChatMessage "user" prompt);;
      answer_question prompt.

(** What happens on the page. *)
Inductive Event :=
| SelectMode (strict : bool)
| ProcessDocuments (uploaded_files : list UploadedFile)
| ClearKnowledgeBase
| ChatInput (prompt : string).

(** [st.session_state.mode = "strict" if "Strict" in mode_choice else "hybrid"]
    for the two choices of the radio button. *)
Definition select_mode (strict : bool) : M (World Store) unit :=
  ss ← get_session;
  put_session (mkSessionState (chat_history ss) (documents_loaded ss)
                 (if strict then "strict" else "hybrid") (file_names ss)).

Definition handler (ev : Event) : M (World Store) unit :=
  match ev with
  | SelectMode strict => select_mode strict
  | ProcessDocuments uploaded_files => process_documents uploaded_files
  | ClearKnowledgeBase => clear_knowledge_base
  | ChatInput prompt => chat_input prompt
  end.

(** The world after the events, one run of the script each; an exception
    that leaves a handler ends that run with what it had changed. *)
Definition run (events : list Event) (w : World Store) : World Store :=
  foldl (fun w ev => (handler ev w).2) w events.

End Handlers.

(** The session of a new browser tab. *)
Definition new_session : SessionState := mkSessionState [] false "strict" [].

End App.

(** ** Auxiliary definitions for the statements *)

Module Aux.

Import RagChain.



(** The documents that receive a citation, with their positions counted
    from [i], when the keys in [seen] have already been cited. *)
Fixpoint first_occurrences (seen : gset string) (i : nat) (docs : list Document)
  : list (nat * Document) :=
  match docs with
  | [] => []
  | d :: ds =>
      if decide (source_key d ∈ seen) then first_occurrences seen (S i) ds
      else (i, d) :: first_occurrences ({[ source_key d ]} ∪ seen) (S i) ds
  end.

(** [n] copies of the character [c]. *)
Fixpoint str_repeat (n : nat) (c : ascii) : string :=
  match n with
  | O => EmptyString
  | S n' => String c (str_repeat n' c)
  end.

(** A chunk of 151 characters. *)
Definition long_doc : Document := mkDocument (str_repeat 151 "x") ∅.


(** The message [_format_chat_history] appends for a history entry. *)
Definition message_of_entry (entry : string * string) : option Message :=
  if decide (entry.1 = "user") then Some (mkMessage "user" entry.2)
  else if decide (entry.1 = "assistant") then Some (mkMessage "assistant" entry.2)
  else None.

(** The role of a history entry is one the model is sent. *)
Definition sent_role (entry : string * string) : Prop :=
  entry.1 = "user" ∨ entry.1 = "assistant".

#[global] Instance sent_role_dec entry : Decision (sent_role entry).
Proof. unfold sent_role. apply _. Defined.

(** A history of eleven entries whose second entry is a system note. *)
Definition noted_history : list (string * string) :=
  [("user", "q0"); ("system", "note");
   ("user", "q1"); ("assistant", "a1"); ("user", "q2"); ("assistant", "a2");
   ("user", "q3"); ("assistant", "a3"); ("user", "q4"); ("assistant", "a4");
   ("user", "q5")].

(** A completion client that always times out. *)
Definition failing_client (_ : ChatRequest) : exn + string :=
  inl (Exn "TimeoutError" "The read operation timed out").

(** A decimal digit. *)
Definition is_digit (c : ascii) : Prop :=
  (48 ≤ nat_of_ascii c ≤ 57)%nat.

(** All characters of a string satisfy [P]. *)
Fixpoint str_forall (P : ascii -> Prop) (s : string) : Prop :=
  match s with
  | EmptyString => True
  | String c s' => P c ∧ str_forall P s'
  end.

(** *** Citation keys and typed metadata *)





(** *** File names *)

(** The same character, the case of the letters A to Z apart. *)
Definition same_letter (a b : ascii) : Prop :=
  a = b ∨
  (65 ≤ nat_of_ascii a ≤ 90 ∧ nat_of_ascii a + 32 = nat_of_ascii b) ∨
  (65 ≤ nat_of_ascii b ≤ 90 ∧ nat_of_ascii b + 32 = nat_of_ascii a).

(** The same string, the case of the letters A to Z apart. *)
Fixpoint eq_ignoring_case (s t : string) : Prop :=
  match s, t with
  | EmptyString, EmptyString => True
  | String a s', String b t' => same_letter a b ∧ eq_ignoring_case s' t'
  | _, _ => False
  end.

(** A letter from a to z. *)
Definition is_lower_letter (c : ascii) : Prop := 97 ≤ nat_of_ascii c ≤ 122.

(** [path] ends in a dot and [e], and [e] is its extension as
    [os.path.splitext] reads a POSIX path: [e] holds no dot and no slash,
    and before the dot the last component of the path holds a character
    other than the dot. *)
Definition has_extension (path e : string) : Prop :=
  ∃ root,
    path = root +:+ String "." e ∧
    str_forall (λ a, a ≠ "."%char ∧ a ≠ "/"%char) e ∧
    ∃ i a, String.get i root = Some a ∧ a ≠ "."%char ∧
           ∀ j, i ≤ j → String.get j root ≠ Some "/"%char.

(** The same first chunk, found in two different files. *)
Definition sky_a : Document :=
  mkDocument "The sky is blue." {[ "source" := PStr "a.pdf"; "page" := PInt 1; "chunk" := PInt 1 ]}.
Definition sky_b : Document :=
  mkDocument "The sky is blue." {[ "source" := PStr "b.docx"; "chunk" := PInt 1 ]}.

Import VectorStore.

(** A similarity that only tells an exact match from the rest. *)
Definition exact_match (q : string) (r : StoredRecord) : Z :=
  if decide (rec_text r = q) then 1%Z else 0%Z.

Definition ref : Collection RefStore.state := RefStore.ref_collection exact_match.

Definition const_hash (_ : string) : Z := 42%Z.

(** A store that holds one record and refuses every write. *)
Definition locked_store : RefStore.state :=
  RefStore.mkState [mkStoredRecord "doc_0_42" "The sky is blue." ∅] (Some 0).

(** 101 chunks: one full batch and one more record. *)
Definition many_docs : list Document := replicate 101 sky_a.

(** A store of three records, the first and the last with the same text. *)
Definition three_records : RefStore.state :=
  RefStore.mkState
    [mkStoredRecord "doc_0_42" "The sky is blue." {[ "source" := PStr "a.pdf" ]};
     mkStoredRecord "doc_1_7" "Grass is green." {[ "source" := PStr "a.pdf" ]};
     mkStoredRecord "doc_0_42" "The sky is blue." {[ "source" := PStr "b.docx" ]}]
    None.

(** A store after the upload of three chunks of one file, the first and
    the last with the same text. *)
Definition library : RefStore.state :=
  RefStore.mkState
    [mkStoredRecord "doc_0_42" "The sky is blue."
       {[ "source" := PStr "a.pdf"; "page" := PInt 1; "chunk" := PInt 1 ]};
     mkStoredRecord "doc_1_7" "Grass is green."
       {[ "source" := PStr "a.pdf"; "page" := PInt 1; "chunk" := PInt 2 ]};
     mkStoredRecord "doc_2_42" "The sky is blue."
       {[ "source" := PStr "a.pdf"; "page" := PInt 2; "chunk" := PInt 1 ]}]
    None.

(** The list-backed collections with Chroma's rule for ids already held,
    and with ties answered the later inserted first. *)
Definition skipping : Collection RefStore.state := StoreContracts.Skipping.skip_collection exact_match.

(** A completion client that answers every request with the same text. *)
Definition fixed_client (text : string) (_ : RagChain.ChatRequest) : exn + string :=
  inr text.

(** Parsers for the examples: each returns one document that names the
    parser. *)
Definition stub_loader (kind : string) (file : Ingest.UploadedFile) : exn + list Document :=
  inr [mkDocument kind {[ "source" := PStr (Ingest.name file) ]}].

(** A splitter for the examples: one chunk per word. *)
Definition split_words (text : string) : list string := String.words text.

(** A reader for the examples: three pages, the second one blank. *)
Definition three_pages (_ : Ingest.UploadedFile) : exn + list string :=
  inr ["The sky is blue."; "   "; "Grass is green."].

(** A reader for the examples: paragraphs, one of them blank. *)
Definition some_paragraphs (_ : Ingest.UploadedFile) : exn + list string :=
  inr ["Title"; "  "; "The sky is blue."].

(** A table for the examples. *)
Definition small_table (_ : Ingest.UploadedFile) : exn + (list string * list (list string)) :=
  inr (["city"; "sky"], [["Oslo"; "grey"]; ["Rome"; "blue"]]).

(** A reader that cannot open the file. *)
Definition unreadable {A} (_ : Ingest.UploadedFile) : exn + A :=
  inl (Exn "PdfReadError" "EOF marker not found").

(** The documents [_load_pdf] makes of the page at position [i] (from 0):
    none of a blank page, else one per chunk, numbered from 1. *)
Definition page_documents (split_text : string -> list string) (source : string)
    (i : nat) (text : string) : list Document :=
  if Parsers.has_text text
  then imap (λ j chunk,
               mkDocument chunk
                 (Parsers.pdf_metadata source (Z.of_nat i + 1) (Z.of_nat j + 1)))
            (split_text text)
  else [].

(** The chat history of a dialogue: for each exchange the question, then
    the answer with its sources. *)
Definition exchange_entries (t : string * string * list (gmap string pyval))
  : list App.ChatEntry :=
  [App.mkChatEntry "user" t.1.1 None; App.mkChatEntry "assistant" t.1.2 (Some t.2)].

Definition dialogue_of (turns : list (string * string * list (gmap string pyval)))
  : list App.ChatEntry :=
  turns ≫= exchange_entries.

(** The two messages of an exchange, as the completion client is sent
    them. *)
Definition exchange_messages (t : string * string * list (gmap string pyval))
  : list RagChain.Message :=
  [RagChain.mkMessage "user" t.1.1; RagChain.mkMessage "assistant" t.1.2].

(** A request whose history part is made of whole exchanges, five at
    most, between the system message and the question. *)
Definition windowed (req : RagChain.ChatRequest) : Prop :=
  ∃ policy recent question,
    RagChain.req_messages req =
      RagChain.mkMessage "system" policy ::
      (recent ≫= exchange_messages) ++ [RagChain.mkMessage "user" question] ∧
    length recent ≤ 5.

(** A new browser tab on an empty store. *)
Definition fresh_world : App.World RefStore.state :=
  App.mkWorld (RefStore.mkState [] None) App.new_session [] [].

(** A tab on the store of three records, after one exchange. *)
Definition asked_once : App.World RefStore.state :=
  App.mkWorld three_records
    (App.mkSessionState (dialogue_of [("Hi", "Hello", [])]) true "strict" ["a.pdf"]) [] [].

(** What a search for the text of the first chunk returns on the
    library: the two chunks with that text, then the third. *)
Definition sky_hits : list Document :=
  [mkDocument "The sky is blue."
     {[ "source" := PStr "a.pdf"; "page" := PInt 1; "chunk" := PInt 1 ]};
   mkDocument "The sky is blue."
     {[ "source" := PStr "a.pdf"; "page" := PInt 2; "chunk" := PInt 1 ]};
   mkDocument "Grass is green."
     {[ "source" := PStr "a.pdf"; "page" := PInt 1; "chunk" := PInt 2 ]}].

(** A greeting and its answer. *)
Definition greeting : list (string * string * list (gmap string pyval)) :=
  [("Hi", "Hello", [])].

(** A tab on the library, after one exchange. *)
Definition reader : App.World RefStore.state :=
  App.mkWorld library
    (App.mkSessionState (dialogue_of greeting) true "strict" ["a.pdf"]) [] [].

(** A visit: an upload, a question, a change of mode, another question,
    and the knowledge base cleared. *)
Definition a_visit : list App.Event :=
  [App.ProcessDocuments [Ingest.mkUploadedFile "a.pdf" ""];
   App.ChatInput "pdf";
   App.SelectMode false;
   App.ChatInput "What is in the file?";
   App.ClearKnowledgeBase].
End Aux.

(** * Properties *)

Module RagChainFacts.

Import RagChain Aux.

Lemma length_str_take n s : String.length (str_take n s) = n `min` String.length s.
Proof.
  revert s; induction n as [|n IH]; intros [|c s]; simpl; try done.
  by rewrite IH.
Qed.

Lemma str_take_drop n s : str_take n s +:+ str_drop n s = s.
Proof.
  revert s; induction n as [|n IH]; intros [|c s]; try done.
  change (String c (str_take n s +:+ str_drop n s) = String c s).
  by rewrite IH.
Qed.

Lemma length_str_app s t : String.length (s +:+ t) = String.length s + String.length t.
Proof. induction s as [|c s IH]; simpl; [done|by rewrite IH]. Qed.

Lemma length_str_repeat n c : String.length (str_repeat n c) = n.
Proof. induction n as [|n IH]; simpl; [done|by rewrite IH]. Qed.

Lemma citation_snippet doc :
  citation_of doc !! "snippet" = Some (PStr (snippet_of doc)).
Proof. unfold citation_of. apply lookup_insert_eq. Qed.

(** C3, as the code has it: the citation's snippet is the whole content
    when that has at most 150 characters, and otherwise its first 150
    characters followed by the three-character marker, 153 characters in
    all; the snippet is never longer than 153 characters. *)
Theorem snippet_shape (doc : Document) :
  ∃ snip,
    citation_of doc !! "snippet" = Some (PStr snip) ∧
    String.length snip ≤ 153 ∧
    ((String.length (page_content doc) ≤ 150 ∧ snip = page_content doc) ∨
     (150 < String.length (page_content doc) ∧
      ∃ kept dropped,
        page_content doc = kept +:+ dropped ∧
        String.length kept = 150 ∧
        snip = kept +:+ "..." ∧
        String.length snip = 153)).
Proof.
  exists (snippet_of doc). split; [apply citation_snippet|].
  unfold snippet_of.
  destruct (Nat.ltb_spec 150 (String.length (page_content doc))) as [Hlong|Hshort].
  - assert (String.length (str_take 150 (page_content doc)) = 150) as Hlen
      by (rewrite length_str_take; lia).
    assert (String.length (str_take 150 (page_content doc) +:+ "...") = 153) as Hsnip
      by (rewrite length_str_app, Hlen; reflexivity).
    split; [lia|]. right. split; [done|].
    exists (str_take 150 (page_content doc)), (str_drop 150 (page_content doc)).
    by rewrite str_take_drop.
  - split; [lia|]. left. done.
Qed.

(** C3, as stated, fails: a chunk of 151 characters gets a snippet of 153
    characters, more than 150. *)
Lemma snippet_exceeds_150 :
  ∃ snip,
    citation_of long_doc !! "snippet" = Some (PStr snip) ∧
    String.length snip = 153 ∧
    ¬ String.length snip ≤ 150.
Proof.
  exists (snippet_of long_doc). split; [apply citation_snippet|].
  assert (String.length (snippet_of long_doc) = 153) as -> by (vm_compute; reflexivity).
  split; [done|lia].
Qed.


(** *** Citation extraction *)

Lemma extract_fold sources seen i docs :
  (foldl extract_step (sources, seen) docs).1 =
    sources ++ ((citation_of ∘ snd) <$> first_occurrences seen i docs).
Proof.
  revert sources seen i.
  induction docs as [|d ds IH]; intros sources seen i; simpl.
  - by rewrite app_nil_r.
  - destruct (decide (source_key d ∈ seen)) as [Hin|Hnotin].
    + apply IH.
    + rewrite (IH _ _ (S i)). simpl. by rewrite <-app_assoc.
Qed.

Lemma extract_sources_first_occurrences docs :
  _extract_sources docs = ((citation_of ∘ snd) <$> first_occurrences ∅ 0 docs).
Proof. unfold _extract_sources. by rewrite (extract_fold [] ∅ 0). Qed.






(** *** History windowing and the message sequence *)

Lemma omap_message_cons (entry : string * string) entries :
  omap message_of_entry (entry :: entries) =
    match message_of_entry entry with
    | Some m => m :: omap message_of_entry entries
    | None => omap message_of_entry entries
    end.
Proof. reflexivity. Qed.

Lemma history_fold messages (entries : list (string * string)) :
  foldl history_step messages entries = messages ++ omap message_of_entry entries.
Proof.
  revert messages. induction entries as [|[r c] es IH]; intros messages.
  - simpl. by rewrite app_nil_r.
  - rewrite omap_message_cons. simpl foldl. rewrite IH.
    unfold message_of_entry, history_step; simpl.
    repeat case_decide; simpl; by rewrite <-?app_assoc.
Qed.

Lemma omap_message_of_entry (entries : list (string * string)) :
  omap message_of_entry entries =
    ((λ e, mkMessage e.1 e.2) <$> filter sent_role entries).
Proof.
  induction entries as [|[r c] es IH]; [done|].
  rewrite omap_message_cons, IH. unfold message_of_entry. simpl.
  destruct (decide (r = "user")) as [->|Hu].
  - rewrite filter_cons_True by (by left). done.
  - destruct (decide (r = "assistant")) as [->|Ha].
    + rewrite filter_cons_True by (by right). done.
    + rewrite filter_cons_False by (unfold sent_role; simpl; intros [?|?]; congruence).
      done.
Qed.

Lemma format_chat_history_window (chat_history : list (string * string)) :
  _format_chat_history chat_history 5 =
    ((λ e, mkMessage e.1 e.2) <$>
       filter sent_role (drop (length chat_history - 10) chat_history)).
Proof.
  unfold _format_chat_history, last_n. simpl.
  by rewrite history_fold, omap_message_of_entry.
Qed.

(** C10: the window is cut first and filtered second: the messages are
    those among the last ten entries whose role is "user" or "assistant",
    in order; an entry with another role takes a slot and is left out, so
    fewer than [min 10 (length history)] messages can be sent: in
    [noted_history] the system note pushes the first question out of the
    window and nine messages are sent, where filtering before cutting the
    window would send ten. *)
Theorem history_window_then_filter :
  (∀ chat_history : list (string * string),
     _format_chat_history chat_history 5 =
       ((λ e, mkMessage e.1 e.2) <$>
          filter sent_role (drop (length chat_history - 10) chat_history))) ∧
  length (_format_chat_history noted_history 5) = 9 ∧
  length (_format_chat_history noted_history 5) < 10 `min` length noted_history ∧
  (mkMessage "user" "q0" ∉ _format_chat_history noted_history 5) ∧
  length (filter sent_role noted_history) = 10.
Proof.
  split; [apply format_chat_history_window|].
  split_and!; [done|vm_compute; lia| |done].
  rewrite format_chat_history_window. vm_compute.
  intros Hin. repeat (apply elem_of_cons in Hin as [Hin|Hin]; [discriminate|]).
  by apply elem_of_nil in Hin.
Qed.

Lemma filter_sent_role_all (entries : list (string * string)) :
  Forall sent_role entries → filter sent_role entries = entries.
Proof.
  induction 1 as [|e es He _ IH]; [done|].
  by rewrite filter_cons_True, IH.
Qed.

(** C7: [generate_answer] sends one request, and its messages are, in
    this order: the system policy of the mode; the windowed history, that
    is the entries of the last ten turns (five user and assistant pairs)
    with the role "user" or "assistant", in their order, all of the last
    ten when every turn has such a role; and one user message that holds
    the context string and then the question. *)
Theorem generate_answer_messages (create : ChatRequest -> exn + string)
    (question : string) (retrieved_docs : list Document)
    (chat_history : option (list (string * string))) (mode : string) :
  let history := default [] chat_history in
  let recent := drop (length history - 10) history in
  ∃ request windowed,
    (generate_answer create question retrieved_docs chat_history mode).1 = [request] ∧
    req_messages request =
      [mkMessage "system"
         (if decide (mode = "strict") then STRICT_SYSTEM_PROMPT else HYBRID_SYSTEM_PROMPT)]
      ++ windowed
      ++ [mkMessage "user"
            ("Document Context:" +:+ newline +:+
             _build_context_string retrieved_docs +:+ newline +:+ newline +:+
             "Question: " +:+ question +:+ newline +:+ newline +:+
             "Please provide a detailed answer based on the above context.")] ∧
    windowed = ((λ e, mkMessage e.1 e.2) <$> filter sent_role recent) ∧
    length windowed ≤ 10 ∧
    recent `suffix_of` history ∧
    (Forall sent_role history → windowed = (λ e, mkMessage e.1 e.2) <$> recent).
Proof.
  intros history recent.
  eexists _, ((λ e, mkMessage e.1 e.2) <$> filter sent_role recent).
  split; [reflexivity|]. simpl.
  assert (_format_chat_history history 5 =
            (λ e, mkMessage e.1 e.2) <$> filter sent_role recent) as Hwin
    by apply format_chat_history_window.
  split_and!.
  - subst history. destruct chat_history as [h|]; [simpl in *; by rewrite Hwin|reflexivity].
  - done.
  - rewrite length_fmap. etrans; [apply length_filter|].
    subst recent. rewrite length_drop. lia.
  - apply suffix_drop.
  - intros Hall. f_equal. apply filter_sent_role_all.
    subst recent. by apply Forall_drop.
Qed.

(** C6: when the request that [generate_answer] sends fails with [e], it
    still returns: the answer is the error marker followed by the text of
    [e], one request was sent and none after it, and the citations are
    [_extract_sources] of the retrieved results, the same as with any
    other outcome of the collaborator. *)
Theorem generate_answer_failure (create : ChatRequest -> exn + string)
    (question : string) (retrieved_docs : list Document)
    (chat_history : option (list (string * string))) (mode : string) (e : exn) :
  (∀ request,
     (generate_answer create question retrieved_docs chat_history mode).1 = [request] →
     create request = inl e) →
  (generate_answer create question retrieved_docs chat_history mode).2 =
    mkAnswer ("❌ Error generating response: " +:+ exn_str e)
             (_extract_sources retrieved_docs) ∧
  length (generate_answer create question retrieved_docs chat_history mode).1 = 1 ∧
  ∀ create',
    sources (generate_answer create' question retrieved_docs chat_history mode).2 =
    sources (generate_answer create question retrieved_docs chat_history mode).2.
Proof.
  intros Hfail. split_and!; [|done|done].
  unfold generate_answer in *. simpl in *.
  by rewrite (Hfail _ eq_refl).
Qed.

Lemma generate_answer_failure_witness :
  (generate_answer failing_client "What color is the sky?"
     [mkDocument "The sky is blue." {[ "source" := PStr "sky.pdf" ]}] None "strict").2 =
    mkAnswer ("❌ Error generating response: " +:+ "The read operation timed out")
             (_extract_sources [mkDocument "The sky is blue." {[ "source" := PStr "sky.pdf" ]}]) ∧
  length (generate_answer failing_client "What color is the sky?"
     [mkDocument "The sky is blue." {[ "source" := PStr "sky.pdf" ]}] None "strict").1 = 1.
Proof.
  pose proof (generate_answer_failure failing_client "What color is the sky?"
    [mkDocument "The sky is blue." {[ "source" := PStr "sky.pdf" ]}] None "strict"
    (Exn "TimeoutError" "The read operation timed out")) as H.
  destruct H as (Hanswer & Hone & _); [intros request _; reflexivity|].
  split; [exact Hanswer|exact Hone].
Defined.
(** Three results, the first and the last from the same place: two
    citations, in the order of the results. *)
Example extract_sources_example :
  _extract_sources [sky_a; sky_b; sky_a] = [citation_of sky_a; citation_of sky_b].
Proof. vm_compute. reflexivity. Qed.

End RagChainFacts.

Module IngestFacts.

Import Ingest.

Section Loaders.

Variables _load_pdf _load_docx _load_csv : UploadedFile -> exn + list Document.
Variable SUPPORTED_EXTENSIONS_repr : string.

Abbreviation ingest_file :=
  (ingest_file _load_pdf _load_docx _load_csv SUPPORTED_EXTENSIONS_repr).
Abbreviation ingest_files :=
  (ingest_files _load_pdf _load_docx _load_csv SUPPORTED_EXTENSIONS_repr).
Abbreviation ingest_loop :=
  (ingest_loop _load_pdf _load_docx _load_csv SUPPORTED_EXTENSIONS_repr).
Abbreviation _LOADER_MAP := (_LOADER_MAP _load_pdf _load_docx _load_csv).

Lemma loader_map_lookup ext :
  _LOADER_MAP !! ext =
    if decide (ext = ".pdf") then Some _load_pdf
    else if decide (ext = ".docx") then Some _load_docx
    else if decide (ext = ".csv") then Some _load_csv
    else None.
Proof.
  unfold Ingest._LOADER_MAP.
  repeat case_decide; subst; simplify_map_eq; done.
Qed.

Lemma ingest_loop_acc all_docs files :
  ingest_loop all_docs files =
    match ingest_loop [] files with
    | inl e => inl e
    | inr docs => inr (all_docs ++ docs)
    end.
Proof.
  revert all_docs. induction files as [|f fs IH]; intros all_docs; simpl.
  - by rewrite app_nil_r.
  - destruct (ingest_file f) as [e|docs]; [done|].
    rewrite (IH (all_docs ++ docs)), (IH docs).
    destruct (ingest_loop [] fs); [done|]. by rewrite app_assoc.
Qed.

Lemma ingest_files_cons file files :
  ingest_files (file :: files) =
    match ingest_file file with
    | inl e => inl e
    | inr docs =>
        match ingest_files files with
        | inl e => inl e
        | inr rest => inr (docs ++ rest)
        end
    end.
Proof.
  unfold Ingest.ingest_files. simpl.
  destruct (ingest_file file) as [e|docs]; [done|].
  apply ingest_loop_acc.
Qed.

(** C9: [ingest_files] is the list homomorphism of [ingest_file]: nothing
    for no file, [ingest_file] for one file, and for a list the
    documents of its first part followed by those of its second part;
    the documents of the files, when each ingests, concatenated in the
    order of the files.  An exception of a file ends the whole call. *)
Theorem ingest_files_homomorphism :
  ingest_files [] = inr [] ∧
  (∀ file, ingest_files [file] = ingest_file file) ∧
  (∀ files1 files2,
     ingest_files (files1 ++ files2) =
       match ingest_files files1 with
       | inl e => inl e
       | inr docs1 =>
           match ingest_files files2 with
           | inl e => inl e
           | inr docs2 => inr (docs1 ++ docs2)
           end
       end) ∧
  (∀ files docs_of,
     Forall2 (λ file docs, ingest_file file = inr docs) files docs_of →
     ingest_files files = inr (concat docs_of)).
Proof.
  split_and!.
  - done.
  - intros file. unfold Ingest.ingest_files. simpl.
    by destruct (ingest_file file).
  - intros files1 files2. induction files1 as [|f fs IH]; simpl.
    + change (ingest_files []) with (@inr exn _ (@nil Document)).
      by destruct (ingest_files files2).
    + rewrite !ingest_files_cons, IH.
      destruct (ingest_file f); [done|].
      destruct (ingest_files fs); [done|].
      destruct (ingest_files files2); [done|]. by rewrite app_assoc.
  - intros files docs_of Hall. induction Hall as [|f ds fs dss Hf _ IH]; [done|].
    rewrite ingest_files_cons, Hf, IH. done.
Qed.

(** A name in upper case reaches the PDF parser; a text file, and a file
    whose whole name is [.pdf], are refused. *)
Example ingest_file_examples :
  ingest_file (mkUploadedFile "Report.PDF" "") = _load_pdf (mkUploadedFile "Report.PDF" "") ∧
  ingest_file (mkUploadedFile "notes.txt" "") =
    inl (unsupported SUPPORTED_EXTENSIONS_repr ".txt") ∧
  ingest_file (mkUploadedFile ".pdf" "") =
    inl (unsupported SUPPORTED_EXTENSIONS_repr "").
Proof.
  unfold Ingest.ingest_file. rewrite !loader_map_lookup. repeat split.
Qed.

End Loaders.

(** The extension is compared in lower case, and a name that is only an
    extension has none. *)
Example file_ext_examples :
  file_ext (mkUploadedFile "Report.Final.PDF" "") = ".pdf" ∧
  file_ext (mkUploadedFile "notes.txt" "") = ".txt" ∧
  file_ext (mkUploadedFile "table.CsV" "") = ".csv" ∧
  file_ext (mkUploadedFile ".pdf" "") = "" ∧
  file_ext (mkUploadedFile "archive.docx/readme" "") = "".
Proof. repeat split. Qed.

End IngestFacts.

Module VectorStoreFacts.

Import VectorStore Aux.

(** *** Record ids *)

Lemma pretty_N_char_digit x : is_digit (pretty_N_char x).
Proof.
  unfold is_digit, pretty_N_char.
  repeat case_match; compute; lia.
Qed.

Lemma pretty_N_go_digits x s :
  str_forall is_digit s → str_forall is_digit (pretty_N_go x s).
Proof.
  revert s. induction (N.lt_wf_0 x) as [x _ IH]; intros s Hs.
  destruct (decide (x = 0)%N) as [->|Hx].
  - by rewrite pretty_N_go_0.
  - rewrite pretty_N_go_step by lia. apply IH.
    + apply N.div_lt; lia.
    + split; [apply pretty_N_char_digit|done].
Qed.

Lemma pretty_N_digits (x : N) : str_forall is_digit (pretty x).
Proof.
  unfold pretty, pretty_N. case_decide.
  - compute. lia.
  - by apply pretty_N_go_digits.
Qed.

Lemma pretty_Z_digits (z : Z) : (0 ≤ z)%Z → str_forall is_digit (pretty z).
Proof.
  destruct z as [|p|p]; intros Hz; [| |lia].
  - compute. lia.
  - apply (pretty_N_digits (N.pos p)).
Qed.

(** A run of digits is delimited by the underscore that follows it. *)
Lemma digits_underscore_inj a b x y :
  str_forall is_digit a → str_forall is_digit b →
  a +:+ String "_" x = b +:+ String "_" y → a = b ∧ x = y.
Proof.
  revert b. induction a as [|c a IH]; intros [|d b] Ha Hb Heq; simpl in *.
  - by simplify_eq.
  - injection Heq as <- _. destruct Hb as [Hd _]. compute in Hd. lia.
  - injection Heq as -> _. destruct Ha as [Hc _]. compute in Hc. lia.
  - injection Heq as -> Heq. destruct Ha as [_ Ha], Hb as [_ Hb].
    destruct (IH b Ha Hb Heq) as [-> ->]. done.
Qed.

Lemma record_id_inj hash i j d d' :
  record_id hash i d = record_id hash j d' → i = j.
Proof.
  unfold record_id. intros Heq.
  injection Heq as Heq.
  apply digits_underscore_inj in Heq as [Hij _];
    [|apply pretty_Z_digits; lia..].
  apply (inj pretty) in Hij. lia.
Qed.

Lemma record_ids_lookup hash docs i :
  record_ids hash docs !! i = record_id hash i <$> docs !! i.
Proof. unfold record_ids. apply list_lookup_imap. Qed.

(** C5, as the code has it: the id of a record is a function of its
    position in the list passed to [add_documents] and of its content
    (through the interpreter's string hash), and the ids of one call are
    pairwise distinct. *)
Theorem record_ids_within_call (hash : string -> Z) (docs : list Document) :
  length (record_ids hash docs) = length docs ∧
  (∀ i d, docs !! i = Some d →
          record_ids hash docs !! i =
            Some ("doc_" +:+ pretty (Z.of_nat i) +:+ "_" +:+
                  pretty (hash (page_content d) `mod` 100000)%Z)) ∧
  NoDup (record_ids hash docs).
Proof.
  split_and!.
  - unfold record_ids. apply length_imap.
  - intros i d Hd. by rewrite record_ids_lookup, Hd.
  - apply NoDup_alt. intros i j id.
    rewrite !record_ids_lookup.
    destruct (docs !! i) as [d|] eqn:Hi; [|done].
    destruct (docs !! j) as [d'|] eqn:Hj; [|done].
    rewrite !fmap_Some. intros (? & [= <-] & ->) (? & [= <-] & Heq).
    by eapply record_id_inj.
Qed.

(** C5, as stated, fails: two calls give their first records the same id
    when the contents are the same, here the same opening chunk of two
    different files. *)
Lemma record_ids_collide_across_calls :
  ¬ (∀ (hash : string -> Z) (docs1 docs2 : list Document),
       NoDup (record_ids hash docs1 ++ record_ids hash docs2)).
Proof.
  intros Hclaim. specialize (Hclaim (λ _, 42%Z) [sky_a] [sky_b]).
  vm_compute in Hclaim. apply NoDup_cons_1_1 in Hclaim.
  apply Hclaim. left.
Qed.


(** *** Batched insertion and clearing *)

Lemma zip_records_take n ids texts metas :
  zip_records (take n ids) (take n texts) (take n metas) =
    take n (zip_records ids texts metas).
Proof.
  revert ids texts metas.
  induction n as [|n IH]; intros [|i ids] [|t texts] [|m metas]; simpl; try done.
  by rewrite IH.
Qed.

Lemma zip_records_drop n ids texts metas :
  zip_records (drop n ids) (drop n texts) (drop n metas) =
    drop n (zip_records ids texts metas).
Proof.
  revert ids texts metas.
  induction n as [|n IH]; intros ids texts metas; [done|].
  destruct ids as [|i ids]; [done|].
  destruct texts as [|t texts]; [simpl; by destruct (drop n ids)|].
  destruct metas as [|m metas]; [|apply IH].
  simpl. destruct (drop n ids); [done|]. by destruct (drop n texts).
Qed.

Lemma zip_records_slice a b ids texts metas :
  zip_records (slice a b ids) (slice a b texts) (slice a b metas) =
    slice a b (zip_records ids texts metas).
Proof. unfold slice. by rewrite zip_records_take, zip_records_drop. Qed.

Lemma length_zip_records ids texts metas :
  length ids = length texts → length ids = length metas →
  length (zip_records ids texts metas) = length ids.
Proof.
  revert texts metas.
  induction ids as [|i ids IH]; intros [|t texts] [|m metas]; simpl; try done.
  intros [= ?] [= ?]. by rewrite IH.
Qed.

Lemma slice_app {A} a b c (l : list A) :
  a ≤ b → b ≤ c → slice a b l ++ slice b c l = slice a c l.
Proof.
  intros Hab Hbc. unfold slice.
  replace (drop b l) with (drop (b - a) (drop a l)) by (rewrite drop_drop; f_equal; lia).
  rewrite take_take_drop. f_equal. lia.
Qed.

Lemma slice_from_0 {A} n (l : list A) : slice 0 n l = take n l.
Proof. unfold slice. rewrite drop_0. f_equal. lia. Qed.

Lemma range_len_covers n : n ≤ range_len n batch_size * batch_size.
Proof.
  unfold range_len, batch_size.
  pose proof (Nat.div_mod (n + (100 - 1)) 100 ltac:(lia)) as Hdiv.
  pose proof (Nat.mod_upper_bound (n + (100 - 1)) 100 ltac:(lia)). lia.
Qed.

Lemma range_len_tight n j : j < range_len n batch_size → j * batch_size < n.
Proof.
  unfold range_len, batch_size. intros Hj.
  pose proof (Nat.div_mod (n + (100 - 1)) 100 ltac:(lia)) as Hdiv.
  pose proof (Nat.mod_upper_bound (n + (100 - 1)) 100 ltac:(lia)). lia.
Qed.

Section Writes.

Context {Store : Type}.
Variable chroma : Collection Store.
Variable hash : string -> Z.
Variable records : Store -> list StoredRecord.
Hypothesis chroma_writes : WriteContract chroma records.

Lemma add_batches_commits steps start ids texts metas s :
  match add_batches chroma steps start ids texts metas s with
  | (inr _, s') =>
      records s' =
        records s ++
        slice start (start + steps * batch_size) (zip_records ids texts metas)
  | (inl e, s') =>
      ∃ j s0,
        j < steps ∧
        records s' =
          records s ++
          slice start (start + j * batch_size) (zip_records ids texts metas) ∧
        collection_add chroma
          (slice (start + j * batch_size) (start + j * batch_size + batch_size) ids)
          (slice (start + j * batch_size) (start + j * batch_size + batch_size) texts)
          (slice (start + j * batch_size) (start + j * batch_size + batch_size) metas)
          s0 = (inl e, s')
  end.
Proof.
  revert start s. induction steps as [|steps IH]; intros start s.
  - simpl. unfold slice. replace (start + 0 - start) with 0 by lia.
    by rewrite take_0, app_nil_r.
  - cbn [add_batches]. unfold mbind, M_bind, bind.
    destruct (collection_add chroma _ _ _ s) as [[e|[]] s1] eqn:Hadd.
    + exists 0, s. split; [lia|]. rewrite Nat.add_0_r. split; [|exact Hadd].
      rewrite (add_atomic _ _ chroma_writes _ _ _ _ _ _ Hadd).
      unfold slice. replace (start - start) with 0 by lia.
      by rewrite take_0, app_nil_r.
    + apply (add_commits _ _ chroma_writes) in Hadd.
      rewrite zip_records_slice in Hadd.
      specialize (IH (start + batch_size) s1).
      destruct (add_batches chroma steps (start + batch_size) ids texts metas s1)
        as [[e|[]] s2].
      * destruct IH as (j & s0 & Hj & Hrec & Hfail).
        exists (S j), s0. split; [lia|]. split.
        -- rewrite Hrec, Hadd, <-app_assoc. f_equal.
           rewrite slice_app by lia. f_equal. lia.
        -- replace (start + S j * batch_size) with (start + batch_size + j * batch_size)
             by lia.
           exact Hfail.
      * rewrite IH, Hadd, <-app_assoc. f_equal.
        rewrite slice_app by lia. f_equal. lia.
Qed.

Lemma clear_returns s : (clear chroma s).1 = inr tt.
Proof.
  unfold clear, try_except, mbind, M_bind, bind, _get_collection.
  destruct (get_or_create_collection chroma s) as [[e|[]] s1]; [done|].
  destruct (collection_get_ids chroma s1) as [[e|[|id ids]] s2]; [done|done|].
  by destruct (collection_delete chroma (id :: ids) s2) as [[e|[]] s3].
Qed.

(** C4, as the code has it: on a collection whose [add] commits all of
    its records or none, when a batch fails, the batches committed before
    it stay in the store and the exception of the failing call reaches
    the caller as the store raised it, with nothing added to it; when no
    batch fails all records are stored.  [clear] never raises: a storage
    error in it is caught and dropped. *)
Theorem add_documents_no_rollback (docs : list Document) (s : Store) :
  let ids := record_ids hash docs in
  let texts := page_content <$> docs in
  let metas := metadata <$> docs in
  let new := zip_records ids texts metas in
  match add_documents chroma hash docs s with
  | (inr _, s') => records s' = records s ++ new
  | (inl e, s') =>
      ∃ committed,
        records s' = records s ++ take (committed * batch_size) new ∧
        ((committed = 0 ∧ get_or_create_collection chroma s = (inl e, s')) ∨
         (committed * batch_size < length docs ∧
          ∃ s0,
            collection_add chroma
              (slice (committed * batch_size) (committed * batch_size + batch_size) ids)
              (slice (committed * batch_size) (committed * batch_size + batch_size) texts)
              (slice (committed * batch_size) (committed * batch_size + batch_size) metas)
              s0 = (inl e, s')))
  end ∧
  (clear chroma s).1 = inr tt.
Proof.
  intros ids texts metas new. split; [|apply clear_returns].
  unfold add_documents, mbind, M_bind, bind, _get_collection.
  destruct (get_or_create_collection chroma s) as [[e|[]] s1] eqn:Hopen.
  - exists 0. rewrite (open_keeps _ _ chroma_writes _ _ _ Hopen).
    simpl. rewrite app_nil_r. split; [done|]. by left.
  - apply (open_keeps _ _ chroma_writes) in Hopen.
    pose proof (add_batches_commits
      (range_len (length (page_content <$> docs)) batch_size) 0 ids texts metas s1) as Hrun.
    fold ids texts metas.
    destruct (add_batches chroma _ 0 ids texts metas s1) as [[e|[]] s2].
    + destruct Hrun as (j & s0 & Hj & Hrec & Hfail).
      exists j. simpl in Hrec, Hfail. rewrite slice_from_0, Hopen in Hrec.
      split; [done|]. right. split; [|by exists s0].
      apply range_len_tight in Hj. by rewrite length_fmap in Hj.
    + rewrite Hrun, Hopen. f_equal. simpl. rewrite slice_from_0.
      apply take_ge. subst new.
      rewrite length_zip_records;
        subst ids texts metas; unfold record_ids;
        rewrite ?length_imap, ?length_fmap; try done.
      apply range_len_covers.
Qed.

End Writes.

(** The list-backed collection honours the write contract. *)
Lemma ref_write_contract sim :
  WriteContract (RefStore.ref_collection sim) RefStore.held.
Proof.
  split.
  - intros s r s' [= _ <-]. done.
  - intros ids texts metas s s'. simpl. unfold RefStore.write.
    destruct (RefStore.writes_left s) as [[|n]|]; intros [= <-]; done.
  - intros ids texts metas s e s'. simpl. unfold RefStore.write.
    destruct (RefStore.writes_left s) as [[|n]|]; intros [= <- <-]; done.
Qed.

Lemma add_documents_no_rollback_witness :
  let docs := many_docs in
  let s := RefStore.mkState [] (Some 1) in
  let ids := record_ids const_hash docs in
  let texts := page_content <$> docs in
  let metas := metadata <$> docs in
  let new := zip_records ids texts metas in
  match add_documents ref const_hash docs s with
  | (inr _, s') => RefStore.held s' = RefStore.held s ++ new
  | (inl e, s') =>
      ∃ committed,
        RefStore.held s' = RefStore.held s ++ take (committed * batch_size) new ∧
        ((committed = 0 ∧ get_or_create_collection ref s = (inl e, s')) ∨
         (committed * batch_size < length docs ∧
          ∃ s0,
            collection_add ref
              (slice (committed * batch_size) (committed * batch_size + batch_size) ids)
              (slice (committed * batch_size) (committed * batch_size + batch_size) texts)
              (slice (committed * batch_size) (committed * batch_size + batch_size) metas)
              s0 = (inl e, s')))
  end ∧
  (clear ref s).1 = inr tt.
Proof.
  exact (add_documents_no_rollback ref const_hash RefStore.held
           (ref_write_contract exact_match) many_docs (RefStore.mkState [] (Some 1))).
Defined.

(** C4, as stated, fails twice.  In a store that refuses writes the
    [delete] that [clear] issues raises, yet [clear] returns normally and
    the record is still held.  And the exception [add_documents] lets
    through is the same whether no record or a hundred records were
    committed before it: it carries no count. *)
Lemma clear_swallows_and_error_has_no_count :
  (collection_delete ref ["doc_0_42"] locked_store).1 = inl RefStore.storage_error ∧
  clear ref locked_store = (inr tt, locked_store) ∧
  (add_documents ref const_hash [sky_a] (RefStore.mkState [] (Some 0))).1
    = inl RefStore.storage_error ∧
  length (RefStore.held
    (add_documents ref const_hash [sky_a] (RefStore.mkState [] (Some 0))).2) = 0 ∧
  (add_documents ref const_hash many_docs (RefStore.mkState [] (Some 1))).1
    = inl RefStore.storage_error ∧
  length (RefStore.held
    (add_documents ref const_hash many_docs (RefStore.mkState [] (Some 1))).2) = 100.
Proof. split_and!; vm_compute; reflexivity. Qed.

(** *** The list-backed collection answers queries by rank *)

Section Ranking.

Variable score : StoredRecord -> Z.
Variable recs : list StoredRecord.

#[local] Instance ranks_before_total : Total (RefStore.ranks_before score).
Proof. intros [i r] [j r']. unfold RefStore.ranks_before. simpl. lia. Qed.

#[local] Instance ranks_before_trans : Transitive (RefStore.ranks_before score).
Proof. intros [i r] [j r'] [k r'']. unfold RefStore.ranks_before. simpl. lia. Qed.

Lemma elem_of_ranked i r :
  (i, r) ∈ RefStore.ranked score recs ↔ recs !! i = Some r.
Proof.
  unfold RefStore.ranked. rewrite merge_sort_Permutation, elem_of_lookup_imap.
  split; [by intros (j & y & [= -> ->] & ?)|eauto].
Qed.

Lemma length_ranked : length (RefStore.ranked score recs) = length recs.
Proof.
  unfold RefStore.ranked. by rewrite merge_sort_Permutation, length_imap.
Qed.

Lemma ranked_positions_NoDup : NoDup (fst <$> RefStore.ranked score recs).
Proof.
  unfold RefStore.ranked. rewrite merge_sort_Permutation.
  rewrite fmap_imap.
  rewrite (imap_ext _ (λ i _, i)) by done.
  rewrite imap_seq_0, list_fmap_id. apply NoDup_seq.
Qed.

Lemma ranked_sorted : StronglySorted (RefStore.ranks_before score) (RefStore.ranked score recs).
Proof. apply StronglySorted_merge_sort; apply _. Qed.

Lemma ranks_before_outranks i ri j rj :
  recs !! i = Some ri → recs !! j = Some rj → i ≠ j →
  RefStore.ranks_before score (i, ri) (j, rj) → outranks score recs i j.
Proof.
  intros Hi Hj Hne Hrank. exists ri, rj. split_and!; [done..|].
  unfold RefStore.ranks_before in Hrank. simpl in Hrank.
  destruct Hrank as [?|[? ?]]; [by left|right; split; [done|lia]].
Qed.

Lemma sorted_positions (l : list (nat * StoredRecord)) :
  StronglySorted (RefStore.ranks_before score) l →
  NoDup (fst <$> l) →
  (∀ p, p ∈ l → recs !! p.1 = Some p.2) →
  StronglySorted (outranks score recs) (fst <$> l).
Proof.
  induction 1 as [|[i ri] l _ IH Hhead]; intros Hnodup Hin; simpl; [constructor|].
  apply NoDup_cons in Hnodup as [Hfresh Hnodup].
  constructor.
  - apply IH; [done|]. intros p Hp. apply Hin. by right.
  - apply Forall_fmap, Forall_forall. intros [j rj] Hj. simpl.
    rewrite Forall_forall in Hhead.
    apply (ranks_before_outranks i ri j rj).
    + apply (Hin (i, ri)). by left.
    + apply (Hin (j, rj)). by right.
    + intros ->. apply Hfresh. by apply (list_elem_of_fmap_2 fst _ (j, rj)).
    + by apply Hhead.
Qed.

Lemma ranked_top_k m :
  m ≤ length recs →
  top_k score recs m (fst <$> take m (RefStore.ranked score recs)) ∧
  Forall2 (λ i r, recs !! i = Some r)
    (fst <$> take m (RefStore.ranked score recs))
    (snd <$> take m (RefStore.ranked score recs)).
Proof.
  intros Hm.
  pose proof ranked_sorted as Hsorted.
  pose proof ranked_positions_NoDup as Hnodup.
  rewrite <-(take_drop m (RefStore.ranked score recs)) in Hsorted, Hnodup.
  assert (∀ p, p ∈ take m (RefStore.ranked score recs) → recs !! p.1 = Some p.2) as Hheld.
  { intros [i r] (n & Hn & _)%elem_of_take. apply elem_of_ranked.
    by eapply list_elem_of_lookup_2. }
  split; [split_and!|].
  - rewrite length_fmap, length_take, length_ranked. lia.
  - intros i ([i' r] & -> & Hp)%list_elem_of_fmap. simpl.
    apply Hheld in Hp. by apply lookup_lt_Some in Hp.
  - apply sorted_positions; [| |apply Hheld].
    + by apply StronglySorted_app_1_l in Hsorted.
    + rewrite fmap_app in Hnodup. by apply NoDup_app in Hnodup as (? & _ & _).
  - intros i j ([i' ri] & -> & Hi)%list_elem_of_fmap Hj Hout. simpl.
    destruct (lookup_lt_is_Some_2 recs j Hj) as [rj Hrj].
    assert ((j, rj) ∈ drop m (RefStore.ranked score recs)) as Hdrop.
    { apply elem_of_ranked in Hrj.
      rewrite <-(take_drop m (RefStore.ranked score recs)), elem_of_app in Hrj.
      destruct Hrj as [Htake|?]; [|done].
      destruct Hout. by apply (list_elem_of_fmap_2 fst _ (j, rj)). }
    apply (ranks_before_outranks i' ri j rj).
    + by apply (Hheld (i', ri)).
    + done.
    + intros ->. apply Hout. by apply (list_elem_of_fmap_2 fst _ (j, ri)).
    + by eapply StronglySorted_app_1_elem_of.
  - apply Forall2_fmap, Forall_Forall2_diag, Forall_forall.
    intros [i r] Hp. by apply (Hheld (i, r)).
Qed.

End Ranking.

(** The list-backed collection honours the query contract. *)
Lemma ref_query_contract sim :
  QueryContract (RefStore.ref_collection sim) RefStore.held sim.
Proof.
  split.
  - done.
  - done.
  - intros q m s Hm.
    destruct (ranked_top_k (sim q) (RefStore.held s) (Z.to_nat m) ltac:(lia))
      as [Htop Hheld].
    eexists _, _. split; [exact Htop|]. split; [exact Hheld|].
    simpl. unfold RefStore.ref_query.
    destruct (Z.leb_spec m 0); [lia|]. done.
Qed.

(** *** Search *)

Lemma collect_documents_rows top steps i acc :
  i + steps ≤ length top →
  collect_documents
    (mkQueryResult [rec_text <$> top] (Some [rec_meta <$> top])) steps i acc =
    inr (acc ++ (document_of <$> take steps (drop i top))).
Proof.
  revert i acc. induction steps as [|steps IH]; intros i acc Hlen; simpl.
  - by rewrite app_nil_r.
  - destruct (lookup_lt_is_Some_2 top i ltac:(lia)) as [r Hr].
    unfold list_index. simpl.
    rewrite !list_lookup_fmap, Hr. simpl.
    rewrite IH by lia.
    rewrite (drop_S _ _ _ Hr). simpl. by rewrite <-app_assoc.
Qed.

(** The first [m] of a list of records with their positions. *)
Lemma take_positions (recs : list StoredRecord) (l : list (nat * StoredRecord)) (m : nat) :
  NoDup (fst <$> l) →
  (∀ p, p ∈ l → recs !! p.1 = Some p.2) →
  m ≤ length l →
  length (fst <$> take m l) = m ∧
  NoDup (fst <$> take m l) ∧
  Forall2 (λ i r, recs !! i = Some r) (fst <$> take m l) (snd <$> take m l).
Proof.
  intros Hnodup Hheld Hm. split_and!.
  - rewrite length_fmap, length_take. lia.
  - rewrite <-(take_drop m l), fmap_app in Hnodup.
    by apply NoDup_app in Hnodup as (? & _ & _).
  - apply Forall2_fmap, Forall_Forall2_diag, Forall_forall.
    intros [i r] (n & Hn & _)%elem_of_take. apply (Hheld (i, r)).
    by eapply list_elem_of_lookup_2.
Qed.

(** A list-backed collection that answers queries by rank honours the
    answer contract. *)
Lemma ranked_answer_contract (c : Collection RefStore.state) sim :
  get_or_create_collection c = ret tt →
  collection_count c = RefStore.read (λ recs, Z.of_nat (length recs)) →
  collection_query c = RefStore.ref_query sim →
  StoreContracts.AnswerContract c RefStore.held.
Proof.
  intros Hopen Hcount Hquery. split.
  - intros s. by rewrite Hopen.
  - intros s. by rewrite Hcount.
  - intros q m s Hm. rewrite Hquery.
    destruct (take_positions (RefStore.held s) (RefStore.ranked (sim q) (RefStore.held s))
                (Z.to_nat m)) as (Hlen & Hnodup & Hrows).
    + apply ranked_positions_NoDup.
    + intros [i r] Hp. simpl. by apply elem_of_ranked in Hp.
    + rewrite length_ranked. lia.
    + eexists _, _. split_and!; [exact Hlen|exact Hnodup|exact Hrows|].
      unfold RefStore.ref_query. destruct (Z.leb_spec m 0); [lia|]. done.
  - intros q m s Hm. rewrite Hquery. unfold RefStore.ref_query.
    destruct (Z.leb_spec m 0); [|lia]. eauto.
Qed.

(** So does the collection that answers ties the later inserted first. *)
Lemma newest_answer_contract sim :
  StoreContracts.AnswerContract (StoreContracts.NewestFirst.newest_collection sim)
    RefStore.held.
Proof.
  split.
  - done.
  - done.
  - intros q m s Hm.
    destruct (take_positions (RefStore.held s)
                (StoreContracts.NewestFirst.newest_ranked (sim q) (RefStore.held s))
                (Z.to_nat m)) as (Hlen & Hnodup & Hrows).
    + unfold StoreContracts.NewestFirst.newest_ranked.
      rewrite fmap_reverse, reverse_Permutation. apply ranked_positions_NoDup.
    + intros [i r] Hp. unfold StoreContracts.NewestFirst.newest_ranked in Hp.
      rewrite elem_of_reverse in Hp. simpl. by apply elem_of_ranked in Hp.
    + unfold StoreContracts.NewestFirst.newest_ranked.
      rewrite length_reverse, length_ranked. lia.
    + eexists _, _. split_and!; [exact Hlen|exact Hnodup|exact Hrows|].
      simpl. unfold StoreContracts.NewestFirst.newest_query.
      destruct (Z.leb_spec m 0); [lia|]. done.
  - intros q m s Hm. simpl. unfold StoreContracts.NewestFirst.newest_query.
    destruct (Z.leb_spec m 0); [|lia]. eauto.
Qed.

Section Reads.

Context {Store : Type}.
Variable chroma : Collection Store.
Variable records : Store -> list StoredRecord.
Hypothesis chroma_answers : StoreContracts.AnswerContract chroma records.

Lemma search_unfolded (query : string) (k : Z) (s : Store) :
  let n := Z.of_nat (length (records s)) in
  search chroma query k s =
    if (n =? 0)%Z then (inr [], s)
    else match collection_query chroma [query] (k `min` n) s with
         | (inl e, s') => (inl e, s')
         | (inr results, s') =>
             match list_index (documents results) 0 with
             | inl e => (inl e, s')
             | inr row => (collect_documents results (length row) 0 [], s')
             end
         end.
Proof.
  intros n. unfold search, mbind, M_bind, bind, _get_collection, lift.
  rewrite (StoreContracts.ans_open _ _ chroma_answers),
    (StoreContracts.ans_count _ _ chroma_answers).
  fold n. destruct (n =? 0)%Z; [done|].
  destruct (collection_query chroma [query] (k `min` n) s) as [[e|results] s']; [done|].
  by destruct (list_index (documents results) 0).
Qed.

Lemma search_of_answer (query : string) (k : Z) (s : Store) :
  let n := Z.of_nat (length (records s)) in
  records s ≠ [] → (1 ≤ k)%Z →
  ∃ idx top,
    collection_query chroma [query] (k `min` n) s =
      (inr (mkQueryResult [rec_text <$> top] (Some [rec_meta <$> top])), s) ∧
    search chroma query k s = (inr (document_of <$> top), s) ∧
    length top = Z.to_nat (k `min` n) ∧
    NoDup idx ∧
    Forall2 (λ i r, records s !! i = Some r) idx top.
Proof.
  intros n Hne Hk.
  assert (n ≠ 0%Z) as Hn by (subst n; destruct (records s); [done|simpl; lia]).
  destruct (StoreContracts.ans_query _ _ chroma_answers query (k `min` n)%Z s
              ltac:(subst n; lia)) as (idx & top & Hlen & Hnodup & Hrows & Hquery).
  exists idx, top. split; [exact Hquery|].
  rewrite search_unfolded. fold n. rewrite Hquery.
  destruct (Z.eqb_spec n 0) as [?|_]; [done|].
  unfold list_index. simpl.
  rewrite collect_documents_rows by (rewrite length_fmap; lia).
  rewrite length_fmap, drop_0, firstn_all. simpl.
  split_and!; [done| |done|done].
  by rewrite <-(Forall2_length _ _ _ Hrows).
Qed.


End Reads.


(** On the three records the two exact matches come back, the earlier
    inserted first. *)
Example search_three_records :
  search ref "The sky is blue." 2 three_records =
    (inr [mkDocument "The sky is blue." {[ "source" := PStr "a.pdf" ]};
          mkDocument "The sky is blue." {[ "source" := PStr "b.docx" ]}],
     three_records).
Proof. vm_compute. reflexivity. Qed.

End VectorStoreFacts.

Module CitationFacts.

Import RagChain Aux.

(** *** Keys as strings and keys as triples *)


















End CitationFacts.

Module VectorStoreMore.

Import VectorStore StoreContracts Aux.

(** *** Counting *)

Section AnyCollection.

Context {Store : Type}.
Variable chroma : Collection Store.

(** X1: [get_document_count] never raises: it returns the count of the
    collection when the collection opens and counts, and 0 when either
    call raises. *)
Theorem get_document_count_never_raises (s : Store) :
  (∃ n, (get_document_count chroma s).1 = inr n) ∧
  (∀ s0 c s1,
     get_or_create_collection chroma s = (inr tt, s0) →
     collection_count chroma s0 = (inr c, s1) →
     get_document_count chroma s = (inr c, s1)) ∧
  (∀ e s0,
     get_or_create_collection chroma s = (inl e, s0) →
     get_document_count chroma s = (inr 0%Z, s0)) ∧
  (∀ s0 e s1,
     get_or_create_collection chroma s = (inr tt, s0) →
     collection_count chroma s0 = (inl e, s1) →
     get_document_count chroma s = (inr 0%Z, s1)).
Proof.
  unfold get_document_count, try_except, mbind, M_bind, bind, _get_collection.
  split_and!.
  - destruct (get_or_create_collection chroma s) as [[e|[]] s0]; [by exists 0%Z|].
    destruct (collection_count chroma s0) as [[e|c] s1]; [by exists 0%Z|by exists c].
  - intros s0 c s1 -> ->. done.
  - intros e s0 ->. done.
  - intros s0 e s1 -> ->. done.
Qed.

End AnyCollection.


(** *** The batches of [add_documents] *)

Lemma length_slice {A} a b (l : list A) :
  length (slice a b l) = (b - a) `min` (length l - a).
Proof. unfold slice. by rewrite length_take, length_drop. Qed.

Lemma concat_slices {A} a steps (l : list A) :
  concat ((λ j, slice (a + j * batch_size) (a + j * batch_size + batch_size) l)
            <$> seq 0 steps) =
    slice a (a + steps * batch_size) l.
Proof.
  induction steps as [|steps IH].
  - simpl. unfold slice. replace (a + 0 - a) with 0 by lia. by rewrite take_0.
  - rewrite seq_S, fmap_app, concat_app, IH.
    cbn [fmap list_fmap concat]. rewrite app_nil_r, Nat.add_0_l.
    rewrite VectorStoreFacts.slice_app by lia. f_equal. lia.
Qed.

Lemma add_batches_recorded steps start ids texts metas log :
  add_batches Recorder.rec_collection steps start ids texts metas log =
    (inr tt,
     log ++ ((λ j, (slice (start + j * batch_size) (start + j * batch_size + batch_size) ids,
                    slice (start + j * batch_size) (start + j * batch_size + batch_size) texts,
                    slice (start + j * batch_size) (start + j * batch_size + batch_size) metas))
               <$> seq 0 steps)).
Proof.
  revert start log. induction steps as [|steps IH]; intros start log.
  - simpl. by rewrite app_nil_r.
  - cbn [add_batches]. unfold mbind, M_bind, bind. simpl.
    rewrite IH, <-app_assoc. f_equal. f_equal. simpl. rewrite Nat.add_0_r. f_equal.
    rewrite <-fmap_S_seq, <-list_fmap_compose. apply list_fmap_ext.
    intros _ j _. simpl.
    replace (start + batch_size + j * batch_size) with (start + (batch_size + j * batch_size))
      by lia.
    done.
Qed.

(** X2: [add_documents] hands the records to the store in consecutive
    batches: [ceil(n / 100)] calls to [add] (none for no document), each
    with between 1 and 100 ids and as many texts and metadatas, and the
    batches put end to end are the ids, the contents and the metadatas of
    the documents, in order. *)
Theorem add_documents_batches (hash : string -> Z) (docs : list Document) :
  let log := (add_documents Recorder.rec_collection hash docs []).2 in
  length log = (length docs + 99) / 100 ∧
  concat ((λ c : Recorder.call, c.1.1) <$> log) = record_ids hash docs ∧
  concat ((λ c : Recorder.call, c.1.2) <$> log) = (page_content <$> docs) ∧
  concat ((λ c : Recorder.call, c.2) <$> log) = (metadata <$> docs) ∧
  Forall (λ c : Recorder.call,
            1 ≤ length c.1.1 ≤ 100 ∧
            length c.1.2 = length c.1.1 ∧ length c.2 = length c.1.1) log.
Proof.
  intros log.
  assert (length (record_ids hash docs) = length docs) as Hids
    by (unfold record_ids; apply length_imap).
  assert (log = (λ j, (slice (j * batch_size) (j * batch_size + batch_size)
                         (record_ids hash docs),
                       slice (j * batch_size) (j * batch_size + batch_size)
                         (page_content <$> docs),
                       slice (j * batch_size) (j * batch_size + batch_size)
                         (metadata <$> docs)))
                <$> seq 0 (range_len (length docs) batch_size)) as ->.
  { subst log. unfold add_documents, mbind, M_bind, bind, _get_collection. simpl.
    rewrite add_batches_recorded, length_fmap. done. }
  pose proof (VectorStoreFacts.range_len_covers (length docs)) as Hcover.
  split_and!.
  - by rewrite length_fmap, length_seq.
  - rewrite <-list_fmap_compose.
    transitivity (slice 0 (0 + range_len (length docs) batch_size * batch_size) (record_ids hash docs));
      [exact (concat_slices 0 _ (record_ids hash docs))|].
    rewrite VectorStoreFacts.slice_from_0. apply take_ge. lia.
  - rewrite <-list_fmap_compose.
    transitivity (slice 0 (0 + range_len (length docs) batch_size * batch_size) (page_content <$> docs));
      [exact (concat_slices 0 _ (page_content <$> docs))|].
    rewrite VectorStoreFacts.slice_from_0. apply take_ge. rewrite length_fmap. lia.
  - rewrite <-list_fmap_compose.
    transitivity (slice 0 (0 + range_len (length docs) batch_size * batch_size) (metadata <$> docs));
      [exact (concat_slices 0 _ (metadata <$> docs))|].
    rewrite VectorStoreFacts.slice_from_0. apply take_ge. rewrite length_fmap. lia.
  - apply Forall_fmap, Forall_forall. intros j Hj%elem_of_seq. simpl.
    rewrite !length_slice, !length_fmap, Hids.
    assert (j * batch_size < length docs) as Hlt
      by (apply VectorStoreFacts.range_len_tight; lia).
    unfold batch_size in *. lia.
Qed.

(** *** What [search] does with the answer of the store *)

Lemma collect_documents_plain row rest metas steps i acc :
  metas = None ∨ metas = Some [] →
  i + steps ≤ length row →
  collect_documents (mkQueryResult (row :: rest) metas) steps i acc =
    inr (acc ++ ((λ t, mkDocument t ∅) <$> take steps (drop i row))).
Proof.
  intros Hmetas. revert i acc. induction steps as [|steps IH]; intros i acc Hlen; simpl.
  - by rewrite app_nil_r.
  - destruct (lookup_lt_is_Some_2 row i ltac:(lia)) as [t Ht].
    unfold list_index. simpl. rewrite Ht.
    destruct Hmetas as [-> | ->]; rewrite IH by lia;
      rewrite (drop_S _ _ _ Ht); simpl; by rewrite <-app_assoc.
Qed.

Lemma collect_documents_zip row rest mrow mrest steps i acc :
  i + steps ≤ length row → i + steps ≤ length mrow →
  collect_documents (mkQueryResult (row :: rest) (Some (mrow :: mrest))) steps i acc =
    inr (acc ++ zip_with mkDocument (take steps (drop i row)) (take steps (drop i mrow))).
Proof.
  revert i acc. induction steps as [|steps IH]; intros i acc Hrow Hmrow; simpl.
  - by rewrite app_nil_r.
  - destruct (lookup_lt_is_Some_2 row i ltac:(lia)) as [t Ht].
    destruct (lookup_lt_is_Some_2 mrow i ltac:(lia)) as [m Hm].
    unfold list_index. simpl. rewrite Ht, Hm. rewrite IH by lia.
    rewrite (drop_S _ _ _ Ht), (drop_S _ _ _ Hm). simpl. by rewrite <-app_assoc.
Qed.

Lemma collect_documents_short row rest mrow mrest steps i acc :
  i ≤ length mrow → length mrow < i + steps → i + steps ≤ length row →
  collect_documents (mkQueryResult (row :: rest) (Some (mrow :: mrest))) steps i acc =
    inl (Exn "IndexError" "list index out of range").
Proof.
  revert i acc. induction steps as [|steps IH]; intros i acc Hi Hshort Hrow; [lia|].
  simpl. destruct (lookup_lt_is_Some_2 row i ltac:(lia)) as [t Ht].
  unfold list_index. simpl. rewrite Ht.
  destruct (mrow !! i) as [m|] eqn:Hm.
  - apply lookup_lt_Some in Hm as Hlt. apply IH; lia.
  - done.
Qed.

Lemma zip_with_document_take (row : list string) (mrow : list (gmap string pyval)) :
  zip_with mkDocument row (take (length row) mrow) = zip_with mkDocument row mrow.
Proof.
  revert mrow. induction row as [|t row IH]; intros [|m mrow]; simpl; [done..|].
  by rewrite IH.
Qed.

Section AnyStore.

Context {Store : Type}.
Variable chroma : Collection Store.

(** X3: when the store answers, [search] turns the first row of the
    answer into documents as it is: the texts in the order of the store
    (the limit [k] is not applied again), each with the metadata at the
    same position of the first metadata row; later rows and surplus
    metadatas are ignored.  The store is asked for [min k count]
    results. *)
Theorem search_keeps_rows (query : string) (k : Z) (s s0 s1 s2 : Store) (count : Z)
    (row : list string) (rest : list (list string))
    (mrow : list (gmap string pyval)) (mrest : list (list (gmap string pyval))) :
  get_or_create_collection chroma s = (inr tt, s0) →
  collection_count chroma s0 = (inr count, s1) →
  count ≠ 0%Z →
  collection_query chroma [query] (k `min` count)%Z s1 =
    (inr (mkQueryResult (row :: rest) (Some (mrow :: mrest))), s2) →
  length row ≤ length mrow →
  ∃ docs,
    search chroma query k s = (inr docs, s2) ∧
    page_content <$> docs = row ∧
    metadata <$> docs = take (length row) mrow.
Proof.
  intros Hopen Hcount Hne Hquery Hlen.
  exists (zip_with mkDocument row mrow). split_and!.
  - unfold search, mbind, M_bind, bind, _get_collection.
    rewrite Hopen, Hcount. destruct (Z.eqb_spec count 0) as [?|_]; [done|].
    rewrite Hquery. unfold lift, list_index. simpl.
    rewrite collect_documents_zip by (simpl; lia).
    rewrite drop_0, firstn_all, drop_0. simpl.
    by rewrite zip_with_document_take.
  - clear Hquery. revert mrow Hlen. induction row as [|t row IH]; intros [|m mrow] Hlen;
      simpl in *; [done|done|lia|]. f_equal. apply IH. lia.
  - clear Hquery. revert mrow Hlen. induction row as [|t row IH]; intros [|m mrow] Hlen;
      simpl in *; [done|done|lia|]. f_equal. apply IH. lia.
Qed.

(** X4: when the answer of the store has no metadatas ([None] or an empty
    list), [search] gives every document the empty metadata. *)
Theorem search_without_metadatas (query : string) (k : Z) (s s0 s1 s2 : Store) (count : Z)
    (row : list string) (rest : list (list string))
    (metas : option (list (list (gmap string pyval)))) :
  get_or_create_collection chroma s = (inr tt, s0) →
  collection_count chroma s0 = (inr count, s1) →
  count ≠ 0%Z →
  collection_query chroma [query] (k `min` count)%Z s1 =
    (inr (mkQueryResult (row :: rest) metas), s2) →
  metas = None ∨ metas = Some [] →
  search chroma query k s = (inr ((λ text, mkDocument text ∅) <$> row), s2).
Proof.
  intros Hopen Hcount Hne Hquery Hmetas.
  unfold search, mbind, M_bind, bind, _get_collection.
  rewrite Hopen, Hcount. destruct (Z.eqb_spec count 0) as [?|_]; [done|].
  rewrite Hquery. unfold lift, list_index. simpl.
  rewrite collect_documents_plain by (done || simpl; lia).
  by rewrite drop_0, firstn_all.
Qed.

(** X5: an answer without rows, or whose first metadata row is shorter
    than its first row of texts, makes [search] raise [IndexError]; no
    document is returned. *)
Theorem search_malformed_answer (query : string) (k : Z) (s s0 s1 s2 : Store) (count : Z)
    (answer : QueryResult) :
  get_or_create_collection chroma s = (inr tt, s0) →
  collection_count chroma s0 = (inr count, s1) →
  count ≠ 0%Z →
  collection_query chroma [query] (k `min` count)%Z s1 = (inr answer, s2) →
  documents answer = [] ∨
  (∃ row rest mrow mrest,
     answer = mkQueryResult (row :: rest) (Some (mrow :: mrest)) ∧
     length mrow < length row) →
  search chroma query k s = (inl (Exn "IndexError" "list index out of range"), s2).
Proof.
  intros Hopen Hcount Hne Hquery Hbad.
  unfold search, mbind, M_bind, bind, _get_collection.
  rewrite Hopen, Hcount. destruct (Z.eqb_spec count 0) as [?|_]; [done|].
  rewrite Hquery. unfold lift, list_index.
  destruct Hbad as [Hnone|(row & rest & mrow & mrest & -> & Hshort)].
  - by rewrite Hnone.
  - simpl. by rewrite collect_documents_short by lia.
Qed.

(** [search] has no handler: an exception of the store, raised on
    opening the collection, on counting or on the query, reaches the
    caller as it is. *)
Theorem search_propagates (query : string) (k : Z) (s s' : Store) (e : exn) :
  get_or_create_collection chroma s = (inl e, s') ∨
  (∃ s0, get_or_create_collection chroma s = (inr tt, s0) ∧
         collection_count chroma s0 = (inl e, s')) ∨
  (∃ s0 count s1,
     get_or_create_collection chroma s = (inr tt, s0) ∧
     collection_count chroma s0 = (inr count, s1) ∧
     count ≠ 0%Z ∧
     collection_query chroma [query] (k `min` count)%Z s1 = (inl e, s')) →
  search chroma query k s = (inl e, s').
Proof.
  unfold search, mbind, M_bind, bind, _get_collection.
  intros [Hopen|[(s0 & Hopen & Hcount)|(s0 & count & s1 & Hopen & Hcount & Hne & Hquery)]].
  - by rewrite Hopen.
  - by rewrite Hopen, Hcount.
  - rewrite Hopen, Hcount. destruct (Z.eqb_spec count 0) as [?|_]; [done|].
    by rewrite Hquery.
Qed.

End AnyStore.

Lemma search_keeps_rows_witness :
  ∃ docs,
    search (Canned.canned (inr 2%Z)
              (inr (mkQueryResult [["a"; "b"]; ["z"]]
                      (Some [[{[ "page" := PInt 1 ]}; ∅; {[ "page" := PInt 3 ]}]]))))
      "q" 5 tt = (inr docs, tt) ∧
    page_content <$> docs = ["a"; "b"] ∧
    metadata <$> docs = take (length ["a"; "b"]) [{[ "page" := PInt 1 ]}; ∅; {[ "page" := PInt 3 ]}].
Proof.
  apply (search_keeps_rows _ "q" 5 tt tt tt tt 2 ["a"; "b"] [["z"]]
           [{[ "page" := PInt 1 ]}; ∅; {[ "page" := PInt 3 ]}] []);
    [reflexivity|reflexivity|lia|reflexivity|simpl; lia].
Defined.

Lemma search_without_metadatas_witness :
  search (Canned.canned (inr 2%Z) (inr (mkQueryResult [["a"; "b"]] None))) "q" 5 tt =
    (inr ((λ text, mkDocument text ∅) <$> ["a"; "b"]), tt).
Proof.
  apply (search_without_metadatas _ "q" 5 tt tt tt tt 2 ["a"; "b"] [] None);
    [reflexivity|reflexivity|lia|reflexivity|by left].
Defined.

Lemma search_malformed_answer_witness :
  search (Canned.canned (inr 2%Z) (inr (mkQueryResult [["a"; "b"]] (Some [[∅]])))) "q" 5 tt =
    (inl (Exn "IndexError" "list index out of range"), tt).
Proof.
  apply (search_malformed_answer _ "q" 5 tt tt tt tt 2
           (mkQueryResult [["a"; "b"]] (Some [[∅]])));
    [reflexivity|reflexivity|lia|reflexivity|].
  right. exists ["a"; "b"], [], [∅], []. split; [reflexivity|simpl; lia].
Defined.

Lemma search_propagates_witness :
  search (Canned.canned (inl RefStore.storage_error) (inr (mkQueryResult [] None))) "q" 5 tt =
    (inl RefStore.storage_error, tt).
Proof.
  apply (search_propagates _ "q" 5 tt tt RefStore.storage_error).
  right. left. exists tt. split; reflexivity.
Defined.

(** *** Clearing, counting and searching together *)

Lemma filter_listed_ids (recs : list StoredRecord) :
  filter (λ r, rec_id r ∉ rec_id <$> recs) recs = [].
Proof.
  destruct (filter (λ r, rec_id r ∉ rec_id <$> recs) recs) as [|r l] eqn:Hfilter; [done|].
  assert (r ∈ filter (λ r, rec_id r ∉ rec_id <$> recs) recs) as Hr
    by (rewrite Hfilter; left).
  apply list_elem_of_filter in Hr as [Hnot Hin].
  destruct Hnot. by apply list_elem_of_fmap_2.
Qed.

Lemma document_of_zip_records ids (docs : list Document) :
  length ids = length docs →
  document_of <$> zip_records ids (page_content <$> docs) (metadata <$> docs) = docs.
Proof.
  revert ids. induction docs as [|[c m] docs IH]; intros [|i ids] Hlen; simpl in *;
    [done|done|done|].
  unfold document_of at 1. simpl. f_equal. apply IH. lia.
Qed.

(** The list-backed collection honours the delete contract. *)
Lemma ref_delete_contract sim :
  DeleteContract (RefStore.ref_collection sim) RefStore.held.
Proof.
  split.
  - intros s r s' [= _ <-]. done.
  - intros s r s' [= _ <-]. done.
  - intros s ids s' [= <- _]. done.
  - intros ids s s'. simpl. unfold RefStore.write.
    destruct (RefStore.writes_left s) as [[|n]|]; intros [= <-]; done.
  - intros ids s e s'. simpl. unfold RefStore.write.
    destruct (RefStore.writes_left s) as [[|n]|]; intros [= <- <-]; done.
Qed.

Section Contracts.

Context {Store : Type}.
Variable chroma : Collection Store.
Variable hash : string -> Z.
Variable records : Store -> list StoredRecord.
Variable similarity : string -> StoredRecord -> Z.

Lemma clear_outcome (s : Store) :
  DeleteContract chroma records →
  records (clear chroma s).2 = [] ∨
  (records (clear chroma s).2 = records s ∧ raised_in_clear chroma s (clear chroma s).2).
Proof.
  intros Hdel.
  unfold clear, try_except, mbind, M_bind, bind, _get_collection, raised_in_clear.
  destruct (get_or_create_collection chroma s) as [[e|[]] s0] eqn:Hopen; simpl.
  { right. split; [by eapply del_open_keeps|]. exists e. by left. }
  apply (del_open_keeps _ _ Hdel) in Hopen.
  destruct (collection_get_ids chroma s0) as [[e|ids] s1] eqn:Hget; simpl.
  { right. split; [|exists e; right; left; by exists s0].
    by rewrite (get_keeps _ _ Hdel _ _ _ Hget). }
  pose proof (get_lists _ _ Hdel _ _ _ Hget) as Hids.
  pose proof (get_keeps _ _ Hdel _ _ _ Hget) as Hkeep.
  destruct ids as [|id ids].
  { left. simpl. rewrite Hkeep. symmetry in Hids. by apply fmap_nil_inv in Hids. }
  destruct (collection_delete chroma (id :: ids) s1) as [[e|[]] s2] eqn:Hdelete; simpl.
  - right. split; [|exists e; right; right; by exists (id :: ids), s1].
    by rewrite (delete_atomic _ _ Hdel _ _ _ _ Hdelete), Hkeep.
  - left. rewrite (delete_removes _ _ Hdel _ _ _ Hdelete), Hids, Hkeep.
    apply filter_listed_ids.
Qed.

(** X6: on a collection that honours the delete contract, [clear] returns
    normally and removes every record or none: the store is empty after
    it, unless a call to the store raised, and then the records are those
    held before. *)
Theorem clear_all_or_nothing (s : Store) :
  DeleteContract chroma records →
  (clear chroma s).1 = inr tt ∧
  (records (clear chroma s).2 = [] ∨
   (records (clear chroma s).2 = records s ∧
    raised_in_clear chroma s (clear chroma s).2)).
Proof.
  intros Hdel. split.
  - apply VectorStoreFacts.clear_returns.
  - by apply clear_outcome.
Qed.

Hypothesis chroma_reads : QueryContract chroma records similarity.

Lemma get_document_count_accurate s :
  get_document_count chroma s = (inr (Z.of_nat (length (records s))), s).
Proof.
  unfold get_document_count, try_except, mbind, M_bind, bind, _get_collection.
  by rewrite (open_ok _ _ _ chroma_reads), (count_ok _ _ _ chroma_reads).
Qed.

Lemma search_empty query k s : records s = [] → search chroma query k s = (inr [], s).
Proof.
  intros Hnil. unfold search, mbind, M_bind, bind, _get_collection.
  rewrite (open_ok _ _ _ chroma_reads), (count_ok _ _ _ chroma_reads), Hnil. done.
Qed.

(** X7: on a collection that honours the delete and query contracts,
    after [clear] the count is 0 and every search returns no document,
    unless a call to the store raised inside [clear]. *)
Theorem clear_then_count_and_search (s : Store) :
  DeleteContract chroma records →
  (get_document_count chroma (clear chroma s).2 = (inr 0%Z, (clear chroma s).2) ∧
   ∀ query k, search chroma query k (clear chroma s).2 = (inr [], (clear chroma s).2)) ∨
  raised_in_clear chroma s (clear chroma s).2.
Proof.
  intros Hdel. destruct (clear_outcome s Hdel) as [Hempty|[_ Hraised]]; [left|by right].
  split.
  - by rewrite get_document_count_accurate, Hempty.
  - intros query k. by apply search_empty.
Qed.

End Contracts.

(** *** Adding to a collection that skips the ids it holds *)

Lemma filter_ext_elem {A} (P Q : A → Prop) `{!∀ x, Decision (P x), !∀ x, Decision (Q x)}
    (l : list A) :
  (∀ x, x ∈ l → P x ↔ Q x) → filter P l = filter Q l.
Proof.
  induction l as [|x l IH]; intros Hext; [done|].
  rewrite !filter_cons.
  rewrite IH by (intros y Hy; apply Hext; by right).
  destruct (decide (P x)) as [HP|HP], (decide (Q x)) as [HQ|HQ]; try done.
  - destruct HQ. apply Hext; [by left|done].
  - destruct HP. apply Hext; [by left|done].
Qed.

Lemma rec_id_zip_records ids texts metas :
  length ids = length texts → length ids = length metas →
  rec_id <$> zip_records ids texts metas = ids.
Proof.
  revert texts metas.
  induction ids as [|i ids IH]; intros [|t texts] [|m metas]; simpl; try done.
  intros [= ?] [= ?]. by rewrite IH.
Qed.

Lemma record_ids_NoDup (hash : string → Z) (docs : list Document) :
  NoDup (record_ids hash docs).
Proof.
  apply NoDup_alt. intros i j id.
  rewrite !VectorStoreFacts.record_ids_lookup.
  destruct (docs !! i) as [d|] eqn:Hi; [|done].
  destruct (docs !! j) as [d'|] eqn:Hj; [|done].
  rewrite !fmap_Some. intros (? & [= <-] & ->) (? & [= <-] & Heq).
  by eapply VectorStoreFacts.record_id_inj.
Qed.

(** Two slices of a list without repetition, one after the other, have
    no element in common. *)
Lemma slices_disjoint {A} (a b c : nat) (l : list A) (x : A) :
  NoDup l → a ≤ b → b ≤ c → x ∈ slice a b l → x ∈ slice b c l → False.
Proof.
  intros Hnodup Hab Hbc Hx Hx'.
  assert (NoDup (slice a c l)) as Hslice.
  { unfold slice. apply (sublist_NoDup _ l); [done|].
    etrans; [apply sublist_take|apply sublist_drop]. }
  rewrite <-(VectorStoreFacts.slice_app a b c) in Hslice by done.
  apply NoDup_app in Hslice as (_ & Hdisjoint & _).
  by apply (Hdisjoint x).
Qed.

Section Skipping.

Context {Store : Type}.
Variable chroma : Collection Store.
Variable hash : string -> Z.
Variable records : Store -> list StoredRecord.
Hypothesis chroma_answers : AnswerContract chroma records.
Hypothesis chroma_skips : SkipContract chroma records.

Lemma add_batches_skips steps start ids texts metas s s' :
  NoDup ids → length ids = length texts → length ids = length metas →
  add_batches chroma steps start ids texts metas s = (inr tt, s') →
  records s' =
    records s ++
    filter (λ r, rec_id r ∉ rec_id <$> records s)
      (slice start (start + steps * batch_size) (zip_records ids texts metas)).
Proof.
  intros Hnodup Htexts Hmetas. revert start s.
  induction steps as [|steps IH]; intros start s.
  - simpl. intros [= <-]. unfold slice.
    replace (start + 0 - start) with 0 by lia. by rewrite take_0, app_nil_r.
  - cbn [add_batches]. unfold mbind, M_bind, bind.
    destruct (collection_add chroma _ _ _ s) as [[e|[]] s1] eqn:Hadd; [done|].
    apply (add_skips _ _ chroma_skips) in Hadd.
    rewrite VectorStoreFacts.zip_records_slice in Hadd.
    intros Hrest%IH. rewrite Hrest, Hadd, <-app_assoc. f_equal.
    rewrite <-(VectorStoreFacts.slice_app start (start + batch_size)
                 (start + S steps * batch_size)) by lia.
    rewrite filter_app. f_equal.
    replace (start + batch_size + steps * batch_size)
      with (start + S steps * batch_size) by lia.
    apply filter_ext_elem. intros r Hr.
    rewrite fmap_app, not_elem_of_app.
    split; [by intros [? _]|]. intros Hnew. split; [done|].
    intros (r' & Hid & Hr')%list_elem_of_fmap.
    apply list_elem_of_filter in Hr' as [_ Hr'].
    apply (list_elem_of_fmap_2 rec_id) in Hr, Hr'. rewrite <-Hid in Hr'.
    unfold slice in Hr, Hr'. rewrite !fmap_take, !fmap_drop in Hr, Hr'.
    rewrite rec_id_zip_records in Hr, Hr' by done.
    by eapply (slices_disjoint start (start + batch_size) (start + S steps * batch_size)
                 ids (rec_id r)); [done|lia|lia|..].
Qed.

Lemma add_documents_skips docs s s' :
  add_documents chroma hash docs s = (inr tt, s') →
  records s' =
    records s ++
    filter (λ r, rec_id r ∉ rec_id <$> records s)
      (zip_records (record_ids hash docs) (page_content <$> docs) (metadata <$> docs)).
Proof.
  unfold add_documents, mbind, M_bind, bind, _get_collection.
  destruct (get_or_create_collection chroma s) as [[e|[]] s1] eqn:Hopen; [done|].
  apply (skip_open_keeps _ _ chroma_skips) in Hopen.
  assert (length (record_ids hash docs) = length docs) as Hids
    by (unfold record_ids; apply length_imap).
  intros Hrun%add_batches_skips;
    [|apply record_ids_NoDup|by rewrite length_fmap..].
  rewrite Hrun, Hopen. do 2 f_equal.
  rewrite VectorStoreFacts.slice_from_0. apply take_ge.
  rewrite VectorStoreFacts.length_zip_records by (by rewrite Hids, length_fmap).
  rewrite Hids, length_fmap. apply VectorStoreFacts.range_len_covers.
Qed.

Lemma get_document_count_held s :
  get_document_count chroma s = (inr (Z.of_nat (length (records s))), s).
Proof.
  unfold get_document_count, try_except, mbind, M_bind, bind, _get_collection.
  by rewrite (ans_open _ _ chroma_answers), (ans_count _ _ chroma_answers).
Qed.

(** X8: on a collection that, like Chroma, leaves out of an [add] the
    records whose id it already holds, a successful [add_documents]
    stores, in order, the documents whose id was not held, and raises the
    count by their number, which can be less than the number of
    documents: a chunk with the content and the position of a chunk of an
    earlier upload has the id of that chunk and is not stored. *)
Theorem add_documents_then_count (docs : list Document) (s s' : Store) :
  add_documents chroma hash docs s = (inr tt, s') →
  let added :=
    filter (λ r, rec_id r ∉ rec_id <$> records s)
      (zip_records (record_ids hash docs) (page_content <$> docs) (metadata <$> docs)) in
  records s' = records s ++ added ∧
  length added ≤ length docs ∧
  get_document_count chroma s' =
    (inr (Z.of_nat (length (records s)) + Z.of_nat (length added))%Z, s').
Proof.
  intros Hadd added. pose proof (add_documents_skips _ _ _ Hadd) as Hstored.
  fold added in Hstored. split_and!.
  - exact Hstored.
  - subst added. etrans; [apply length_filter|].
    rewrite VectorStoreFacts.length_zip_records;
      unfold record_ids; by rewrite ?length_imap, ?length_fmap.
  - rewrite get_document_count_held, Hstored, length_app. do 2 f_equal. lia.
Qed.

(** X9: on such a collection, a search after a successful
    [add_documents], with [k >= 1] and at least one record in the store,
    returns [min k n] documents, [n] the records held before and the
    documents that were stored, and each is the document of a record
    held before or one of the documents just added, with its content and
    metadata. *)
Theorem add_documents_then_search (docs : list Document) (s s' : Store)
    (query : string) (k : Z) :
  add_documents chroma hash docs s = (inr tt, s') →
  (1 ≤ k)%Z →
  records s' ≠ [] →
  let added :=
    filter (λ r, rec_id r ∉ rec_id <$> records s)
      (zip_records (record_ids hash docs) (page_content <$> docs) (metadata <$> docs)) in
  ∃ found,
    search chroma query k s' = (inr found, s') ∧
    length found =
      Z.to_nat (k `min` (Z.of_nat (length (records s)) + Z.of_nat (length added)))%Z ∧
    ∀ d, d ∈ found → d ∈ (document_of <$> records s) ∨ d ∈ docs.
Proof.
  intros Hadd Hk Hne added.
  pose proof (add_documents_skips _ _ _ Hadd) as Hstored. fold added in Hstored.
  destruct (VectorStoreFacts.search_of_answer chroma records chroma_answers query k s'
              Hne Hk) as (idx & top & _ & Hsearch & Hlen & _ & Hrows).
  assert (length (record_ids hash docs) = length docs) as Hids
    by (unfold record_ids; apply length_imap).
  exists (document_of <$> top). split_and!; [done| |].
  - rewrite length_fmap, Hlen, Hstored, length_app. f_equal. lia.
  - intros d (r & -> & Hr)%list_elem_of_fmap.
    assert (r ∈ records s') as Hin.
    { apply list_elem_of_lookup_1 in Hr as [j Hj].
      destruct (Forall2_lookup_r _ _ _ _ _ Hrows Hj) as (i & _ & Hi).
      by eapply list_elem_of_lookup_2. }
    rewrite Hstored, elem_of_app in Hin. destruct Hin as [Hold|Hnew].
    + left. by apply list_elem_of_fmap_2.
    + right. apply list_elem_of_filter in Hnew as [_ Hnew].
      rewrite <-(document_of_zip_records (record_ids hash docs) docs Hids).
      by apply list_elem_of_fmap_2.
Qed.

End Skipping.

(** The list-backed collection with Chroma's rule honours both contracts. *)
Lemma skipping_contract sim :
  SkipContract (Skipping.skip_collection sim) RefStore.held.
Proof.
  split.
  - intros s r s' [= _ <-]. done.
  - intros ids texts metas s s'. simpl. unfold Skipping.add_new, RefStore.write.
    destruct (RefStore.writes_left s) as [[|n]|]; intros [= <-]; done.
Qed.


Lemma clear_all_or_nothing_witness :
  (clear ref three_records).1 = inr tt ∧
  (RefStore.held (clear ref three_records).2 = [] ∨
   (RefStore.held (clear ref three_records).2 = RefStore.held three_records ∧
    raised_in_clear ref three_records (clear ref three_records).2)).
Proof.
  exact (clear_all_or_nothing ref RefStore.held three_records
           (ref_delete_contract exact_match)).
Defined.

Lemma clear_then_count_and_search_witness :
  (get_document_count ref (clear ref three_records).2 =
     (inr 0%Z, (clear ref three_records).2) ∧
   ∀ query k, search ref query k (clear ref three_records).2 =
                (inr [], (clear ref three_records).2)) ∨
  raised_in_clear ref three_records (clear ref three_records).2.
Proof.
  exact (clear_then_count_and_search ref RefStore.held exact_match
           (VectorStoreFacts.ref_query_contract exact_match) three_records
           (ref_delete_contract exact_match)).
Defined.

(** A second upload to the library: the first chunk has the content and
    the position of a chunk that is held and is left out, the second is
    stored. *)
Lemma add_documents_then_count_witness :
  let s' := (add_documents skipping const_hash [sky_a; sky_b] library).2 in
  let added :=
    filter (λ r, rec_id r ∉ rec_id <$> RefStore.held library)
      (zip_records (record_ids const_hash [sky_a; sky_b])
         (page_content <$> [sky_a; sky_b]) (metadata <$> [sky_a; sky_b])) in
  RefStore.held s' = RefStore.held library ++ added ∧
  length added ≤ length [sky_a; sky_b] ∧
  get_document_count skipping s' =
    (inr (Z.of_nat (length (RefStore.held library)) + Z.of_nat (length added))%Z, s').
Proof.
  apply (add_documents_then_count skipping const_hash RefStore.held
           (VectorStoreFacts.ranked_answer_contract skipping exact_match
              eq_refl eq_refl eq_refl)
           (skipping_contract exact_match)
           [sky_a; sky_b] library).
  reflexivity.
Defined.

Example second_upload_count :
  get_document_count skipping library = (inr 3%Z, library) ∧
  (get_document_count skipping
     (add_documents skipping const_hash [sky_a; sky_b] library).2).1 = inr 4%Z.
Proof. split; vm_compute; reflexivity. Qed.

Lemma add_documents_then_search_witness :
  let s' := (add_documents skipping const_hash [sky_a; sky_b] library).2 in
  let added :=
    filter (λ r, rec_id r ∉ rec_id <$> RefStore.held library)
      (zip_records (record_ids const_hash [sky_a; sky_b])
         (page_content <$> [sky_a; sky_b]) (metadata <$> [sky_a; sky_b])) in
  ∃ found,
    search skipping "Grass is green." 5 s' = (inr found, s') ∧
    length found =
      Z.to_nat (5 `min` (Z.of_nat (length (RefStore.held library)) +
                         Z.of_nat (length added)))%Z ∧
    ∀ d, d ∈ found →
         d ∈ (document_of <$> RefStore.held library) ∨ d ∈ [sky_a; sky_b].
Proof.
  apply (add_documents_then_search skipping const_hash RefStore.held
           (VectorStoreFacts.ranked_answer_contract skipping exact_match
              eq_refl eq_refl eq_refl)
           (skipping_contract exact_match)
           [sky_a; sky_b] library _ "Grass is green." 5);
    [reflexivity|lia|discriminate].
Defined.

(** *** Ids and metadata *)

(** X10: the ids [add_documents] computes depend on the contents of the
    documents and on nothing else: two lists with the same contents in
    the same order get the same ids, whatever their metadata. *)
Theorem record_ids_content_only (hash : string -> Z) (docs1 docs2 : list Document) :
  page_content <$> docs1 = page_content <$> docs2 →
  record_ids hash docs1 = record_ids hash docs2.
Proof.
  unfold record_ids.
  assert (∀ f g : nat → Document → string,
            (∀ i d d', page_content d = page_content d' → f i d = g i d') →
            page_content <$> docs1 = page_content <$> docs2 →
            imap f docs1 = imap g docs2) as Hgen.
  { clear. revert docs2. induction docs1 as [|d ds IH]; intros [|d' ds'] f g Hfg Heq;
      simplify_eq/=; [done|]. f_equal; [by apply Hfg|].
    apply IH; [|done]. intros i x x' Hx. by apply Hfg. }
  apply Hgen. intros i d d' Hd. unfold record_id. by rewrite Hd.
Qed.

Lemma record_ids_content_only_witness :
  record_ids const_hash [sky_a] = record_ids const_hash [sky_b].
Proof. apply record_ids_content_only. reflexivity. Defined.
End VectorStoreMore.

Module RagChainMore.

Import RagChain Aux.

(** *** The context string *)

Lemma context_parts_lookup start docs i d :
  docs !! i = Some d →
  context_parts start docs !! i =
    Some ("[" +:+ pretty (start + Z.of_nat i)%Z +:+ "] " +:+ location_of d +:+ newline +:+
          page_content d).
Proof.
  revert start i. induction docs as [|x xs IH]; intros start [|i] Hd; simplify_eq/=.
  - by rewrite Z.add_0_r.
  - rewrite (IH (start + 1)%Z i Hd). do 4 f_equal. lia.
Qed.

Lemma length_context_parts start docs : length (context_parts start docs) = length docs.
Proof.
  revert start. induction docs as [|x xs IH]; intros start; simpl; [done|by rewrite IH].
Qed.

(** X11: the context string of no document is the fixed sentence; of one
    or more documents it is their blocks joined by the separator line,
    one block per document in order, the block of the document at
    position [i] (from 0) being the marker [i + 1] in brackets, its
    location line, a newline and its whole content. *)
Theorem build_context_blocks (doc : Document) (docs : list Document) :
  _build_context_string [] = "No relevant documents found." ∧
  ∃ blocks,
    _build_context_string (doc :: docs) =
      String.concat (newline +:+ newline +:+ "---" +:+ newline +:+ newline) blocks ∧
    length blocks = length (doc :: docs) ∧
    ∀ i d, (doc :: docs) !! i = Some d →
           blocks !! i =
             Some ("[" +:+ pretty (Z.of_nat (i + 1)) +:+ "] " +:+ location_of d +:+
                   newline +:+ page_content d).
Proof.
  split; [done|]. exists (context_parts 1 (doc :: docs)). split_and!.
  - done.
  - apply length_context_parts.
  - intros i d Hd. rewrite (context_parts_lookup 1 _ i d Hd). do 4 f_equal. lia.
Qed.

(** *** The fields of a citation *)

(** X12: a citation always has the keys [source], [type] and [snippet];
    it has the key [page] exactly when the page of the metadata is truthy
    (present, not 0 and not empty), likewise [chunk], each with the value
    of the metadata; it has no other key. *)
Theorem citation_fields (doc : Document) :
  let page := dict_get (metadata doc) "page" (PStr "") in
  let chunk := dict_get (metadata doc) "chunk" (PStr "") in
  citation_of doc !! "source" = Some (dict_get (metadata doc) "source" (PStr "Unknown")) ∧
  citation_of doc !! "type" = Some (dict_get (metadata doc) "type" (PStr "")) ∧
  citation_of doc !! "page" = (if truthy page then Some page else None) ∧
  citation_of doc !! "chunk" = (if truthy chunk then Some chunk else None) ∧
  citation_of doc !! "snippet" = Some (PStr (snippet_of doc)) ∧
  ∀ key, key ∉ ["source"; "type"; "page"; "chunk"; "snippet"] →
         citation_of doc !! key = None.
Proof.
  intros page chunk. unfold citation_of. fold page chunk.
  destruct (truthy page), (truthy chunk); split_and!;
    try (intros key Hkey; rewrite !not_elem_of_cons in Hkey;
         destruct Hkey as (? & ? & ? & ? & ? & _));
    by simplify_map_eq.
Qed.

(** *** History windows of any width *)

Lemma format_chat_history_any (chat_history : list (string * string)) (max_turns : nat) :
  _format_chat_history chat_history max_turns =
    ((λ e, mkMessage e.1 e.2) <$>
       filter sent_role (last_n (max_turns * 2) chat_history)).
Proof.
  unfold _format_chat_history.
  by rewrite RagChainFacts.history_fold, RagChainFacts.omap_message_of_entry.
Qed.

(** X13: with [max_turns >= 1], [_format_chat_history] sends at most
    [2 * max_turns] messages, drawn from the last [2 * max_turns] entries;
    with [max_turns = 0] it does not send an empty history but the whole
    one, every user and assistant entry. *)
Theorem format_chat_history_turns (chat_history : list (string * string)) :
  (∀ max_turns, 0 < max_turns →
     _format_chat_history chat_history max_turns =
       ((λ e, mkMessage e.1 e.2) <$>
          filter sent_role (drop (length chat_history - 2 * max_turns) chat_history)) ∧
     length (_format_chat_history chat_history max_turns) ≤ 2 * max_turns) ∧
  _format_chat_history chat_history 0 =
    ((λ e, mkMessage e.1 e.2) <$> filter sent_role chat_history).
Proof.
  split; [|by rewrite format_chat_history_any].
  intros max_turns Hpos. rewrite format_chat_history_any. unfold last_n.
  destruct (Nat.eqb_spec (max_turns * 2) 0) as [?|_]; [lia|].
  replace (max_turns * 2) with (2 * max_turns) by lia. split; [done|].
  rewrite length_fmap. etrans; [apply length_filter|]. rewrite length_drop. lia.
Qed.

(** X14: whatever the roles in the history, every message
    [_format_chat_history] produces has the role "user" or "assistant",
    so the request of [generate_answer] has one system message, its
    first, and no entry of the history can add another. *)
Theorem history_never_system (create : ChatRequest -> exn + string)
    (question : string) (retrieved_docs : list Document)
    (chat_history : list (string * string)) (mode : string) (max_turns : nat) :
  Forall (λ m, role m = "user" ∨ role m = "assistant")
    (_format_chat_history chat_history max_turns) ∧
  ∃ request prompt rest,
    (generate_answer create question retrieved_docs (Some chat_history) mode).1 = [request] ∧
    req_messages request = mkMessage "system" prompt :: rest ∧
    Forall (λ m, role m ≠ "system") rest.
Proof.
  assert (∀ n, Forall (λ m, role m = "user" ∨ role m = "assistant")
                 (_format_chat_history chat_history n)) as Hroles.
  { intros n. rewrite format_chat_history_any.
    apply Forall_fmap, Forall_forall. intros [r c] [Hsent _]%list_elem_of_filter. done. }
  split; [apply Hroles|].
  eexists _, _, _. split; [reflexivity|]. split; [reflexivity|].
  apply Forall_app. split.
  - eapply Forall_impl; [apply (Hroles 5)|]. simpl. intros m [-> | ->]; done.
  - by repeat constructor.
Qed.

(** X15: the window looks at the end of the history only: entries
    followed by [2 * max_turns] or more entries have no effect on the
    messages. *)
Theorem format_chat_history_suffix (older recent : list (string * string)) (max_turns : nat) :
  0 < max_turns →
  2 * max_turns ≤ length recent →
  _format_chat_history (older ++ recent) max_turns = _format_chat_history recent max_turns.
Proof.
  intros Hpos Hlen. rewrite !format_chat_history_any. unfold last_n.
  destruct (Nat.eqb_spec (max_turns * 2) 0) as [?|_]; [lia|].
  do 2 f_equal. rewrite length_app.
  rewrite drop_app_ge by lia. f_equal. lia.
Qed.

Lemma format_chat_history_suffix_witness :
  _format_chat_history ([("user", "q0"); ("system", "note")]
                          ++ [("user", "q1"); ("assistant", "a1")]) 1 =
  _format_chat_history [("user", "q1"); ("assistant", "a1")] 1.
Proof. apply format_chat_history_suffix; simpl; lia. Defined.

(** *** Citations of a longer list of results *)

Lemma extract_step_seen st d key :
  key ∈ st.2 → key ∈ (extract_step st d).2.
Proof.
  destruct st as [sources seen]. unfold extract_step. simpl.
  case_decide; simpl; [done|]. intros ?. apply elem_of_union. by right.
Qed.

Lemma extract_nothing_new sources seen docs :
  (∀ d, d ∈ docs → source_key d ∈ seen) →
  foldl extract_step (sources, seen) docs = (sources, seen).
Proof.
  induction docs as [|d ds IH]; intros Hseen; simpl; [done|].
  rewrite decide_True by (apply Hseen; left).
  apply IH. intros d' Hd'. apply Hseen. by right.
Qed.

Lemma extract_seen_covers st docs d :
  d ∈ docs → source_key d ∈ (foldl extract_step st docs).2.
Proof.
  revert st. induction docs as [|x xs IH]; intros st Hd; [by apply elem_of_nil in Hd|].
  simpl. apply elem_of_cons in Hd as [->|Hd]; [|by apply IH].
  assert (source_key x ∈ (extract_step st x).2) as Hx.
  { destruct st as [sources seen]. unfold extract_step. simpl.
    case_decide; simpl; [done|]. apply elem_of_union. left. by apply elem_of_singleton. }
  clear IH. revert Hx. generalize (extract_step st x). induction xs as [|y ys IH];
    intros st' Hx; simpl; [done|]. apply IH. by apply extract_step_seen.
Qed.

Lemma extract_extends st docs :
  ∃ more, (foldl extract_step st docs).1 = st.1 ++ more.
Proof.
  revert st. induction docs as [|d ds IH]; intros [sources seen]; simpl.
  - exists []. by rewrite app_nil_r.
  - case_decide; [apply (IH (sources, seen))|].
    destruct (IH (sources ++ [citation_of d], {[source_key d]} ∪ seen)) as [more Hmore].
    exists (citation_of d :: more). rewrite Hmore. simpl. by rewrite <-app_assoc.
Qed.

Lemma length_first_occurrences seen i docs :
  length (first_occurrences seen i docs) ≤ length docs.
Proof.
  revert seen i. induction docs as [|d ds IH]; intros seen i; simpl; [done|].
  case_decide; simpl.
  - specialize (IH seen (S i)). lia.
  - specialize (IH ({[source_key d]} ∪ seen) (S i)). lia.
Qed.

(** X16: results added after others never change the citations of the
    earlier ones: the citations of a list are a prefix of the citations
    of any longer list that starts with it.  There are never more
    citations than results, and results whose keys all occurred earlier
    add none. *)
Theorem extract_sources_extends (results more : list Document) :
  _extract_sources results `prefix_of` _extract_sources (results ++ more) ∧
  length (_extract_sources results) ≤ length results ∧
  ((∀ d, d ∈ more → ∃ d', d' ∈ results ∧ source_key d' = source_key d) →
   _extract_sources (results ++ more) = _extract_sources results).
Proof.
  unfold _extract_sources. rewrite foldl_app. split_and!.
  - destruct (extract_extends (foldl extract_step ([], ∅) results) more) as [tail Htail].
    exists tail. exact Htail.
  - fold (_extract_sources results).
    rewrite RagChainFacts.extract_sources_first_occurrences, length_fmap.
    apply length_first_occurrences.
  - intros Hkeys.
    destruct (foldl extract_step ([], ∅) results) as [sources seen] eqn:Hfold.
    rewrite extract_nothing_new; [done|].
    intros d Hd. destruct (Hkeys d Hd) as (d' & Hd' & <-).
    pose proof (extract_seen_covers ([], ∅) results d' Hd') as Hin.
    by rewrite Hfold in Hin.
Qed.

(** *** Answers *)

(** with no retrieved document [generate_answer] still sends its one
    request, whose last message is the user message built on the fixed
    sentence for an empty context, and it returns no citation; the answer
    is whatever the collaborator returns. *)
Theorem generate_answer_no_documents (create : ChatRequest -> exn + string)
    (question : string) (chat_history : option (list (string * string))) (mode : string) :
  ∃ request,
    (generate_answer create question [] chat_history mode).1 = [request] ∧
    last (req_messages request) =
      Some (mkMessage "user"
              ("Document Context:" +:+ newline +:+
               "No relevant documents found." +:+ newline +:+ newline +:+
               "Question: " +:+ question +:+ newline +:+ newline +:+
               "Please provide a detailed answer based on the above context.")) ∧
    sources (generate_answer create question [] chat_history mode).2 = [] ∧
    (∀ text, create request = inr text →
             answer (generate_answer create question [] chat_history mode).2 = text).
Proof.
  eexists. split; [reflexivity|]. split_and!.
  - cbn [req_messages]. apply last_snoc.
  - done.
  - simpl. by intros text ->.
Qed.

(** when the request succeeds, the answer is the text of the
    collaborator, unchanged, the temperature sent is 0.3 for the mode
    "strict" and 0.5 for any other mode string, with at most 1024 tokens
    asked of the fixed model. *)
Theorem generate_answer_success (create : ChatRequest -> exn + string)
    (question : string) (retrieved_docs : list Document)
    (chat_history : option (list (string * string))) (mode : string) (text : string) :
  (∀ request,
     (generate_answer create question retrieved_docs chat_history mode).1 = [request] →
     create request = inr text) →
  (generate_answer create question retrieved_docs chat_history mode).2 =
    mkAnswer text (_extract_sources retrieved_docs) ∧
  ∃ request,
    (generate_answer create question retrieved_docs chat_history mode).1 = [request] ∧
    req_model request = "meta-llama/Llama-3.2-3B-Instruct" ∧
    req_max_tokens request = 1024%Z ∧
    req_temperature request = (if decide (mode = "strict") then 3 # 10 else 5 # 10)%Q.
Proof.
  intros Hok. split.
  - unfold generate_answer in *. simpl in *. by rewrite (Hok _ eq_refl).
  - eexists. split; [reflexivity|]. done.
Qed.

Lemma generate_answer_success_witness :
  (generate_answer (fixed_client "The sky is blue.") "What color is the sky?"
     [sky_a] None "hybrid").2 =
    mkAnswer "The sky is blue." (_extract_sources [sky_a]) ∧
  ∃ request,
    (generate_answer (fixed_client "The sky is blue.") "What color is the sky?"
       [sky_a] None "hybrid").1 = [request] ∧
    req_model request = "meta-llama/Llama-3.2-3B-Instruct" ∧
    req_max_tokens request = 1024%Z ∧
    req_temperature request = (if decide ("hybrid" = "strict") then 3 # 10 else 5 # 10)%Q.
Proof.
  apply (generate_answer_success (fixed_client "The sky is blue.") "What color is the sky?"
           [sky_a] None "hybrid" "The sky is blue.").
  intros request _. reflexivity.
Defined.

(** *** Results with distinct keys *)

Lemma first_occurrences_all seen i docs :
  NoDup (source_key <$> docs) →
  (∀ d, d ∈ docs → source_key d ∉ seen) →
  first_occurrences seen i docs = imap (λ k d, (i + k, d)) docs.
Proof.
  revert seen i. induction docs as [|d ds IH]; intros seen i Hnodup Hfresh; [done|].
  simpl in *. apply NoDup_cons in Hnodup as [Hd Hnodup].
  rewrite decide_False by (apply Hfresh; left).
  rewrite Nat.add_0_r. f_equal. rewrite IH; [| done |].
  - apply imap_ext. intros k x _. simpl. f_equal. lia.
  - intros x Hx Hin. apply elem_of_union in Hin as [Heq%elem_of_singleton|Hin].
    + apply Hd. rewrite <-Heq. by apply list_elem_of_fmap_2.
    + apply (Hfresh x); [by right|done].
Qed.

Lemma extract_sources_of_distinct docs :
  NoDup (source_key <$> docs) → _extract_sources docs = citation_of <$> docs.
Proof.
  intros Hnodup. rewrite RagChainFacts.extract_sources_first_occurrences.
  rewrite first_occurrences_all; [|done|intros ? _; apply not_elem_of_empty].
  rewrite fmap_imap. simpl. apply imap_const.
Qed.

Lemma first_occurrences_full seen i docs :
  length (first_occurrences seen i docs) = length docs →
  NoDup (source_key <$> docs) ∧ ∀ d, d ∈ docs → source_key d ∉ seen.
Proof.
  revert seen i. induction docs as [|d ds IH]; intros seen i Hlen; simpl in *.
  - split; [constructor|]. by intros ? ?%elem_of_nil.
  - destruct (decide (source_key d ∈ seen)) as [Hin|Hnotin].
    + pose proof (length_first_occurrences seen (S i) ds). lia.
    + simpl in Hlen. injection Hlen as Hlen.
      destruct (IH _ _ Hlen) as [Hnodup Hfresh]. split.
      * constructor; [|done]. intros (x & Hkey & Hx)%list_elem_of_fmap.
        apply (Hfresh x Hx). apply elem_of_union. left. by apply elem_of_singleton.
      * intros x [->|Hx]%elem_of_cons; [done|].
        intros Hin. apply (Hfresh x Hx). apply elem_of_union. by right.
Qed.

(** X17: every result gets its own citation, in the order of the
    results, exactly when the keys of the results are pairwise
    distinct. *)
Theorem extract_sources_all_cited (docs : list Document) :
  NoDup (source_key <$> docs) ↔ _extract_sources docs = citation_of <$> docs.
Proof.
  split; [apply extract_sources_of_distinct|].
  intros Hall. apply (f_equal length) in Hall.
  rewrite RagChainFacts.extract_sources_first_occurrences, !length_fmap in Hall.
  by apply first_occurrences_full in Hall as [? _].
Qed.
End RagChainMore.

Module IngestMore.

Import Ingest Aux.

(** *** Failures of [ingest_files] *)

(** X18: [ingest_files] stops at the first file that fails: when the
    files before it ingest and it raises [e], the call raises [e], the
    documents of the earlier files are not returned and the later files
    play no part. *)
Theorem ingest_files_first_failure
    (_load_pdf _load_docx _load_csv : UploadedFile -> exn + list Document)
    (SUPPORTED_EXTENSIONS_repr : string)
    (before after : list UploadedFile) (docs_of : list (list Document))
    (bad : UploadedFile) (e : exn) :
  Forall2 (λ file docs,
             ingest_file _load_pdf _load_docx _load_csv SUPPORTED_EXTENSIONS_repr file =
               inr docs) before docs_of →
  ingest_file _load_pdf _load_docx _load_csv SUPPORTED_EXTENSIONS_repr bad = inl e →
  ingest_files _load_pdf _load_docx _load_csv SUPPORTED_EXTENSIONS_repr
    (before ++ bad :: after) = inl e.
Proof.
  intros Hbefore Hbad.
  induction Hbefore as [|f ds fs dss Hf _ IH]; simpl.
  - rewrite IngestFacts.ingest_files_cons. by rewrite Hbad.
  - rewrite IngestFacts.ingest_files_cons. by rewrite Hf, IH.
Qed.

Lemma ingest_files_first_failure_witness :
  ingest_files (stub_loader "pdf") (stub_loader "docx") (stub_loader "csv") "{...}"
    ([mkUploadedFile "a.pdf" ""] ++ mkUploadedFile "notes.txt" "" :: [mkUploadedFile "b.csv" ""])
    = inl (unsupported "{...}" ".txt").
Proof.
  apply (ingest_files_first_failure _ _ _ _ [mkUploadedFile "a.pdf" ""]
           [mkUploadedFile "b.csv" ""]
           [[mkDocument "pdf" {[ "source" := PStr "a.pdf" ]}]]).
  - repeat constructor.
  - reflexivity.
Defined.


(** *** The extension and the name *)

Lemma lower_char_fixes (c a : ascii) :
  c = "."%char ∨ c = "/"%char → (lower_char a = c ↔ a = c).
Proof.
  intros [-> | ->];
    destruct a as [[] [] [] [] [] [] [] []]; vm_compute; split; intros H;
      first [reflexivity | discriminate H].
Qed.

Lemma lower_char_idemp (a : ascii) : lower_char (lower_char a) = lower_char a.
Proof. destruct a as [[] [] [] [] [] [] [] []]; reflexivity. Qed.

Lemma lower_idemp (s : string) : lower (lower s) = lower s.
Proof. induction s as [|a s IH]; simpl; [done|]. by rewrite lower_char_idemp, IH. Qed.

Lemma rfind_from_lower c p i found :
  c = "."%char ∨ c = "/"%char →
  rfind_from c (lower p) i found = rfind_from c p i found.
Proof.
  intros Hc. revert i found. induction p as [|a p IH]; intros i found; simpl; [done|].
  rewrite IH. f_equal.
  destruct (decide (lower_char a = c)) as [Heq|Hne];
    destruct (decide (a = c)) as [Heq'|Hne']; try done.
  - by apply (lower_char_fixes c a Hc) in Heq.
  - destruct Hne. by apply (lower_char_fixes c a Hc).
Qed.

Lemma get_lower n p : String.get n (lower p) = lower_char <$> String.get n p.
Proof.
  revert n. induction p as [|a p IH]; intros [|n]; simpl; auto.
Qed.

Lemma has_stem_lower p i steps : has_stem (lower p) i steps = has_stem p i steps.
Proof.
  revert i. induction steps as [|steps IH]; intros i; simpl; [done|].
  rewrite get_lower, IH. destruct (String.get i p) as [a|]; simpl; [|done].
  destruct (decide (a = "."%char)) as [->|Hne]; [done|].
  assert (lower_char a ≠ "."%char) as Hne'
    by (intros Heq; apply Hne; by apply (lower_char_fixes "." a); [left|]).
  destruct a as [[] [] [] [] [] [] [] []]; try done; by destruct Hne'.
Qed.

Lemma str_take_lower n p : str_take n (lower p) = lower (str_take n p).
Proof.
  revert p. induction n as [|n IH]; intros [|a p]; simpl; try done. by rewrite IH.
Qed.

Lemma str_drop_lower n p : str_drop n (lower p) = lower (str_drop n p).
Proof.
  revert p. induction n as [|n IH]; intros [|a p]; simpl; try done.
Qed.

Lemma splitext_lower p :
  splitext (lower p) = (lower (splitext p).1, lower (splitext p).2).
Proof.
  unfold splitext, rfind. rewrite !rfind_from_lower by auto. rewrite has_stem_lower.
  destruct (_ && _); simpl; [|done]. by rewrite str_take_lower, str_drop_lower.
Qed.

Lemma ascii_eq_nat (a b : ascii) : a = b ↔ nat_of_ascii a = nat_of_ascii b.
Proof.
  split; [by intros ->|]. intros Heq. apply (f_equal ascii_of_nat) in Heq.
  by rewrite !ascii_nat_embedding in Heq.
Qed.

Lemma ascii_of_nat_eq (n : nat) (b : ascii) :
  n < 256 → ascii_of_nat n = b ↔ n = nat_of_ascii b.
Proof.
  intros Hn. split.
  - intros <-. by rewrite nat_ascii_embedding.
  - intros ->. apply ascii_nat_embedding.
Qed.

(** Lower-casing sends a letter from a to z to itself and, among the
    characters, only that letter and its capital to it. *)
Lemma lower_char_letter (a b : ascii) :
  is_lower_letter b → lower_char a = b ↔ same_letter a b.
Proof.
  unfold is_lower_letter, same_letter, lower_char. intros Hb.
  pose proof (nat_ascii_bounded a) as Ha.
  rewrite (ascii_eq_nat a b).
  destruct (_ || _) eqn:Hcase.
  - rewrite ascii_of_nat_eq.
    + apply orb_true_iff in Hcase as [Hup|Hup].
      * apply andb_true_iff in Hup as [?%Nat.leb_le ?%Nat.leb_le]. lia.
      * apply andb_true_iff in Hup as [Hup _].
        apply andb_true_iff in Hup as [?%Nat.leb_le ?%Nat.leb_le]. lia.
    + apply orb_true_iff in Hcase as [Hup|Hup].
      * apply andb_true_iff in Hup as [?%Nat.leb_le ?%Nat.leb_le]. lia.
      * apply andb_true_iff in Hup as [Hup _].
        apply andb_true_iff in Hup as [?%Nat.leb_le ?%Nat.leb_le]. lia.
  - rewrite (ascii_eq_nat a b).
    apply orb_false_iff in Hcase as [Hup _].
    apply andb_false_iff in Hup as [?%Nat.leb_gt|?%Nat.leb_gt]; lia.
Qed.

Lemma lower_letters (s t : string) :
  str_forall is_lower_letter t → lower s = t ↔ eq_ignoring_case s t.
Proof.
  revert t. induction s as [|a s IH]; intros [|b t]; simpl; try done.
  intros [Hb Ht]. rewrite <-(IH t Ht), <-(lower_char_letter a b Hb).
  split; [by intros [= -> ->]|by intros [-> ->]].
Qed.

(** Two characters that differ in the case of a letter from A to Z at
    most lower to the same character. *)
Lemma same_letter_lower (a b : ascii) : same_letter a b → lower_char a = lower_char b.
Proof.
  intros [->|[[Hup Heq]|[Hup Heq]]]; [done| |].
  - apply ascii_of_nat_eq in Heq; [|lia]. subst b.
    destruct a as [[] [] [] [] [] [] [] []];
      first [reflexivity|vm_compute in Hup; lia].
  - apply ascii_of_nat_eq in Heq; [|lia]. subst a.
    destruct b as [[] [] [] [] [] [] [] []];
      first [reflexivity|vm_compute in Hup; lia].
Qed.

Lemma eq_ignoring_case_lower (s t : string) : eq_ignoring_case s t → lower s = lower t.
Proof.
  revert t. induction s as [|a s IH]; intros [|b t]; simpl; try done.
  intros [Hab Hst]. by rewrite (same_letter_lower a b Hab), (IH t Hst).
Qed.

(** X19: the dispatch of [ingest_file] does not depend on the case of the
    letters A to Z in the name: two files whose names differ in the case
    of such letters only are looked up under the same extension, so they
    reach the same parser or are refused with the same message. *)
Theorem file_ext_case_insensitive (file other : UploadedFile) :
  eq_ignoring_case (name file) (name other) → file_ext file = file_ext other.
Proof.
  intros Hsame%eq_ignoring_case_lower.
  assert (∀ f, file_ext f = (splitext (lower (name f))).2) as Hext.
  { intros f. unfold file_ext. by rewrite splitext_lower. }
  by rewrite !Hext, Hsame.
Qed.

Lemma file_ext_case_insensitive_witness :
  file_ext (mkUploadedFile "Annual.Report.PDF" "") =
    file_ext (mkUploadedFile "annual.report.pdf" "").
Proof.
  apply file_ext_case_insensitive. simpl.
  repeat split; first [by left|right; left; vm_compute; lia].
Defined.

Lemma rfind_from_spec c p i found :
  (rfind_from c p i found = found ∧ ∀ n, String.get n p ≠ Some c) ∨
  (i ≤ rfind_from c p i found)%Z ∧
  String.get (Z.to_nat (rfind_from c p i found - i)) p = Some c ∧
  ∀ n, Z.to_nat (rfind_from c p i found - i) < n → String.get n p ≠ Some c.
Proof.
  revert i found. induction p as [|a p IH]; intros i found; simpl.
  - left. split; [done|]. by intros [|n].
  - destruct (IH (i + 1)%Z (if decide (a = c) then i else found))
      as [[Hr Hnone]|(Hle & Hget & Hlast)].
    + rewrite Hr. destruct (decide (a = c)) as [->|Hne].
      * right. rewrite Z.sub_diag. simpl. split_and!; [lia|done|].
        intros [|n] Hn; [lia|]. simpl. apply Hnone.
      * left. split; [done|]. intros [|n]; simpl; [congruence|apply Hnone].
    + right. split; [lia|].
      replace (Z.to_nat (rfind_from c p (i + 1) (if decide (a = c) then i else found) - i))
        with (S (Z.to_nat (rfind_from c p (i + 1) (if decide (a = c) then i else found)
                           - (i + 1)))) by lia.
      simpl. split; [done|]. intros [|n] Hn; [lia|]. simpl. apply Hlast. lia.
Qed.

Lemma str_drop_get n p c :
  String.get n p = Some c → str_drop n p = String c (str_drop (S n) p).
Proof.
  revert p. induction n as [|n IH]; intros [|a p] Hget; simplify_eq/=; [done|].
  by apply IH.
Qed.

Lemma get_str_drop n p m : String.get m (str_drop n p) = String.get (n + m) p.
Proof.
  revert p. induction n as [|n IH]; intros p; [done|].
  destruct p as [|a p]; [by destruct m|]. apply IH.
Qed.

Lemma str_forall_get (P : ascii → Prop) s :
  (∀ m a, String.get m s = Some a → P a) → str_forall P s.
Proof.
  induction s as [|a s IH]; intros Hall; simpl; [done|]. split.
  - by apply (Hall 0).
  - apply IH. intros m b Hb. by apply (Hall (S m)).
Qed.

Lemma str_app_empty (s : string) : s +:+ "" = s.
Proof.
  induction s as [|a s IH]; [done|].
  change (String a (s +:+ "") = String a s). by rewrite IH.
Qed.

Lemma str_take_nonempty n p c : String.get n p = Some c → 0 < n → str_take n p ≠ "".
Proof. destruct n as [|n]; [lia|]. by destruct p. Qed.

(** [os.path.splitext] cuts the path in two: the root followed by the
    extension is the path, and the extension is empty or a dot followed by
    characters that are neither dots nor slashes, after a root that is not
    empty. *)
Lemma splitext_parts (p : string) :
  (splitext p).1 +:+ (splitext p).2 = p ∧
  ((splitext p).2 = "" ∨
   ∃ rest,
     (splitext p).2 = String "." rest ∧
     str_forall (λ a, a ≠ "."%char ∧ a ≠ "/"%char) rest ∧
     (splitext p).1 ≠ "").
Proof.
  unfold splitext.
  destruct ((rfind "/" p <? rfind "." p)%Z && _) eqn:Hcond; simpl.
  2:{ split; [apply str_app_empty|by left]. }
  split; [apply RagChainFacts.str_take_drop|]. right.
  apply andb_true_iff in Hcond as [Hlt%Z.ltb_lt Hstem].
  unfold rfind in *.
  assert (-1 ≤ rfind_from "/" p 0 (-1))%Z as Hsep
    by (destruct (rfind_from_spec "/" p 0 (-1)) as [[-> _]|[? _]]; lia).
  destruct (rfind_from_spec "." p 0 (-1)) as [[Hnone _]|(Hle & Hget & Hlast)]; [lia|].
  rewrite Z.sub_0_r in Hget, Hlast.
  set (dot := rfind_from "." p 0 (-1)) in *. set (sep := rfind_from "/" p 0 (-1)) in *.
  exists (str_drop (S (Z.to_nat dot)) p). split_and!.
  - by apply str_drop_get.
  - apply str_forall_get. intros m a Ha. rewrite get_str_drop in Ha. split.
    + intros ->. by apply (Hlast (S (Z.to_nat dot) + m)); [lia|].
    + intros ->.
      destruct (rfind_from_spec "/" p 0 (-1)) as [[_ Hnoslash]|(_ & _ & Hlastsep)].
      * by apply (Hnoslash (S (Z.to_nat dot) + m)).
      * rewrite Z.sub_0_r in Hlastsep. fold sep in Hlastsep.
        by apply (Hlastsep (S (Z.to_nat dot) + m)); [lia|].
  - apply (str_take_nonempty _ _ _ Hget).
    destruct (Z.to_nat (dot - (sep + 1))) eqn:Hsteps; [done|lia].
Qed.

(** X20: the extension [ingest_file] looks up is empty, or it is the
    lower-cased end of the file name: the name is a root that is not
    empty followed by a dot and characters that are neither dots nor
    slashes.  So a file reaches a parser only when its name ends, after
    some root, in [.pdf], [.docx] or [.csv] in some capitalisation. *)
Theorem file_ext_is_suffix (file : UploadedFile) :
  file_ext file = "" ∨
  ∃ root rest,
    name file = root +:+ String "." rest ∧
    root ≠ "" ∧
    str_forall (λ a, a ≠ "."%char ∧ a ≠ "/"%char) rest ∧
    file_ext file = lower (String "." rest).
Proof.
  unfold file_ext.
  destruct (splitext_parts (name file)) as [Hname [Hnone|(rest & Hext & Hrest & Hroot)]].
  - left. by rewrite Hnone.
  - right. exists (splitext (name file)).1, rest.
    rewrite <-Hext. by rewrite Hname.
Qed.
End IngestMore.

Module IngestDispatch.

Import Ingest Aux.

(** *** The extension of a name, read off the name *)

Lemma get_lt_length n s a : String.get n s = Some a → n < String.length s.
Proof.
  revert n. induction s as [|c s IH]; intros [|n] Hget; simplify_eq/=; [lia|].
  apply IH in Hget. lia.
Qed.

Lemma str_forall_at (P : ascii → Prop) s n a :
  str_forall P s → String.get n s = Some a → P a.
Proof.
  revert n. induction s as [|c s IH]; intros [|n] Hall Hget; simplify_eq/=.
  - by destruct Hall.
  - destruct Hall as [_ Hs]. by eapply IH.
Qed.

Lemma str_take_app (s t : string) : str_take (String.length s) (s +:+ t) = s.
Proof. induction s as [|c s IH]; simpl; [by destruct t|]. by rewrite IH. Qed.

Lemma str_drop_app (s t : string) : str_drop (String.length s) (s +:+ t) = t.
Proof. induction s as [|c s IH]; simpl; [by destruct t|done]. Qed.

Lemma get_str_take n p j : j < n → String.get j (str_take n p) = String.get j p.
Proof.
  revert p j. induction n as [|n IH]; intros [|c p] [|j] Hj; simpl; try done; try lia.
  apply IH. lia.
Qed.

Lemma get_str_take_ge n p j : n ≤ j → String.get j (str_take n p) = None.
Proof.
  revert p j. induction n as [|n IH]; intros [|c p] [|j] Hj; simpl; try done; try lia.
  apply IH. lia.
Qed.

(** [p.rfind(c)] is the position of the last [c], and [-1] without one. *)
Lemma rfind_last c p n :
  String.get n p = Some c → (∀ m, n < m → String.get m p ≠ Some c) →
  rfind c p = Z.of_nat n.
Proof.
  intros Hget Hlast. unfold rfind.
  destruct (IngestMore.rfind_from_spec c p 0 (-1)) as [[_ Hnone]|(Hle & Hr & Hrlast)].
  - by destruct (Hnone n).
  - rewrite Z.sub_0_r in Hr, Hrlast.
    destruct (Nat.lt_trichotomy n (Z.to_nat (rfind_from c p 0 (-1)))) as [Hlt|[Heq|Hgt]].
    + by destruct (Hlast _ Hlt).
    + lia.
    + by destruct (Hrlast _ Hgt).
Qed.

Lemma rfind_before c p n :
  (∀ m, n ≤ m → String.get m p ≠ Some c) → (-1 ≤ rfind c p < Z.of_nat n)%Z.
Proof.
  intros Hnone. unfold rfind.
  destruct (IngestMore.rfind_from_spec c p 0 (-1)) as [[-> _]|(Hle & Hr & _)]; [lia|].
  rewrite Z.sub_0_r in Hr. split; [lia|].
  destruct (decide (n ≤ Z.to_nat (rfind_from c p 0 (-1)))) as [Hge|?]; [|lia].
  by destruct (Hnone _ Hge).
Qed.

Lemma rfind_after c p m :
  (Z.to_nat (rfind c p + 1) ≤ m) → String.get m p ≠ Some c.
Proof.
  unfold rfind.
  destruct (IngestMore.rfind_from_spec c p 0 (-1)) as [[_ Hnone]|(Hle & _ & Hlast)];
    [intros _; apply Hnone|].
  rewrite Z.sub_0_r in Hlast. intros Hm. apply Hlast. lia.
Qed.

(** The loop of [_splitext] finds a character other than the dot when
    there is one in its range, and only then. *)
Lemma has_stem_true p i steps j a :
  i ≤ j < i + steps → String.get j p = Some a → a ≠ "."%char →
  has_stem p i steps = true.
Proof.
  revert i. induction steps as [|steps IH]; intros i Hj Hget Hne; [lia|].
  simpl. destruct (String.get i p) as [c|] eqn:Hi; [|done].
  destruct (decide (c = "."%char)) as [->|Hc].
  - apply IH; [|done..]. destruct (decide (i = j)) as [->|?]; [congruence|lia].
  - destruct c as [[] [] [] [] [] [] [] []]; try done; by destruct Hc.
Qed.

Lemma has_stem_inv p i steps :
  has_stem p i steps = true →
  ∃ j, i ≤ j < i + steps ∧ String.get j p ≠ Some "."%char.
Proof.
  revert i. induction steps as [|steps IH]; intros i; simpl; [done|].
  destruct (String.get i p) as [c|] eqn:Hi.
  - destruct (decide (c = "."%char)) as [->|Hc].
    + intros (j & Hj & Hget)%IH. exists j. split; [lia|done].
    + intros _. exists i. split; [lia|]. rewrite Hi. congruence.
  - intros _. exists i. split; [lia|]. by rewrite Hi.
Qed.

(** A name that ends in a dot and an extension is split there. *)
Lemma splitext_of_extension (root e : string) (i : nat) (a : ascii) :
  str_forall (λ a, a ≠ "."%char ∧ a ≠ "/"%char) e →
  String.get i root = Some a → a ≠ "."%char →
  (∀ j, i ≤ j → String.get j root ≠ Some "/"%char) →
  splitext (root +:+ String "." e) = (root, String "." e).
Proof.
  intros He Hi Ha Hslash.
  set (p := root +:+ String "." e). set (d := String.length root).
  pose proof (get_lt_length _ _ _ Hi) as Hid. fold d in Hid.
  assert (∀ j, j < d → String.get j p = String.get j root) as Hroot
    by (intros j Hj; symmetry; by apply String.append_correct1).
  assert (∀ m, String.get (m + d) p = String.get m (String "." e)) as Hext
    by (intros m; symmetry; apply String.append_correct2).
  assert (∀ m c, d < m → String.get m p = Some c → c ≠ "."%char ∧ c ≠ "/"%char) as Hrest.
  { intros m c Hm Hget. replace m with (S (m - d - 1) + d) in Hget by lia.
    rewrite Hext in Hget. simpl in Hget.
    exact (str_forall_at (λ a, a ≠ "."%char ∧ a ≠ "/"%char) e _ c He Hget). }
  assert (String.get d p = Some "."%char) as Hd by apply (Hext 0).
  assert (rfind "." p = Z.of_nat d) as Hdot.
  { apply rfind_last; [exact Hd|].
    intros m Hm Hget. by destruct (Hrest m "."%char Hm Hget). }
  assert (-1 ≤ rfind "/" p < Z.of_nat i)%Z as Hsep.
  { apply rfind_before. intros m Hm Hget.
    destruct (Nat.lt_trichotomy m d) as [Hlt|[Heq|Hgt]].
    - rewrite Hroot in Hget by done. by destruct (Hslash m Hm).
    - rewrite Heq, Hd in Hget. done.
    - by destruct (Hrest m "/"%char Hgt Hget). }
  unfold splitext. fold p. rewrite Hdot.
  rewrite (proj2 (Z.ltb_lt _ _)) by lia.
  rewrite (has_stem_true p _ _ i a); [|lia|by rewrite Hroot|done].
  simpl. rewrite Nat2Z.id. subst p d. by rewrite str_take_app, str_drop_app.
Qed.

(** Where [os.path.splitext] finds an extension, the name ends in it. *)
Lemma extension_of_splitext (p rest : string) :
  (splitext p).2 = String "." rest → has_extension p rest.
Proof.
  intros Hext.
  destruct (IngestMore.splitext_parts p) as [Hp [Hnone|(rest' & Hext' & Hrest & _)]];
    [congruence|].
  assert (rest' = rest) as -> by congruence.
  exists (splitext p).1. split; [by rewrite <-Hext, Hp|]. split; [done|].
  unfold splitext in Hext |- *.
  destruct ((rfind "/" p <? rfind "." p)%Z && _) eqn:Hcond; [|done].
  apply andb_true_iff in Hcond as [Hlt%Z.ltb_lt (j & Hj & Hget)%has_stem_inv].
  simpl in Hext |- *.
  assert (-1 ≤ rfind "/" p)%Z as Hsep by (apply (rfind_before "/" p (String.length p));
    intros m Hm Hm'; apply get_lt_length in Hm'; lia).
  assert (j < Z.to_nat (rfind "." p)) as Hjd by lia.
  assert (String.get (Z.to_nat (rfind "." p)) p = Some "."%char) as Hdot.
  { pose proof (IngestMore.get_str_drop (Z.to_nat (rfind "." p)) p 0) as Hget0.
    rewrite Hext, Nat.add_0_r in Hget0. by symmetry. }
  destruct (String.get j p) as [a|] eqn:Ha.
  2:{ apply get_lt_length in Hdot.
      assert (is_Some (String.get j p)) as [? ?]; [|congruence].
      clear -Hdot Hjd. revert j Hjd Hdot. generalize (Z.to_nat (rfind "." p)).
      induction p as [|c p IH]; intros n j Hj Hn; simpl in *; [lia|].
      destruct j as [|j]; [by eexists|]. apply (IH (n - 1)); lia. }
  exists j, a. split_and!.
  - by rewrite get_str_take.
  - congruence.
  - intros m Hm. destruct (decide (m < Z.to_nat (rfind "." p))) as [Hlt'|Hge].
    + rewrite get_str_take by done. apply rfind_after. lia.
    + rewrite get_str_take_ge by lia. done.
Qed.

Lemma lower_extension (e : string) : lower (String "." e) = String "." (lower e).
Proof. reflexivity. Qed.

Section Loaders.

Variables _load_pdf _load_docx _load_csv : UploadedFile -> exn + list Document.
Variable SUPPORTED_EXTENSIONS_repr : string.

Abbreviation ingest_file :=
  (ingest_file _load_pdf _load_docx _load_csv SUPPORTED_EXTENSIONS_repr).

Lemma file_ext_of_extension (file : UploadedFile) (e : string) :
  has_extension (name file) e → file_ext file = String "." (lower e).
Proof.
  intros (root & Hname & He & i & a & Hi & Ha & Hslash).
  unfold file_ext. rewrite Hname.
  by rewrite (splitext_of_extension root e i a).
Qed.

(** C8, as the code has it: a file whose name ends in [.pdf], [.docx] or
    [.csv], in any mix of capital and small letters, goes to the parser
    of that extension and [ingest_file] is what the parser returns or
    raises; every other file, a name without an extension among them,
    makes [ingest_file] raise, before any parser runs, a [ValueError]
    whose text names the unsupported type, the lower-cased extension of
    the name.  The extension is what [os.path.splitext] reads off the
    name. *)
Theorem ingest_file_dispatch (file : UploadedFile) :
  (∀ e, has_extension (name file) e →
        (eq_ignoring_case e "pdf" → ingest_file file = _load_pdf file) ∧
        (eq_ignoring_case e "docx" → ingest_file file = _load_docx file) ∧
        (eq_ignoring_case e "csv" → ingest_file file = _load_csv file)) ∧
  ((∀ e, has_extension (name file) e →
         ¬ eq_ignoring_case e "pdf" ∧ ¬ eq_ignoring_case e "docx" ∧
         ¬ eq_ignoring_case e "csv") →
   ingest_file file =
     inl (Exn "ValueError"
            ("Unsupported file type: " +:+ file_ext file +:+
             ". Supported: " +:+ SUPPORTED_EXTENSIONS_repr))) ∧
  (file_ext file = "" ∨
   ∃ e, has_extension (name file) e ∧ file_ext file = String "." (lower e)).
Proof.
  assert (∀ word, str_forall is_lower_letter word →
            file_ext file = String "." word →
            ∃ e, has_extension (name file) e ∧ eq_ignoring_case e word) as Hback.
  { intros word Hword Hext. unfold file_ext in Hext.
    destruct (splitext (name file)).2 as [|c rest] eqn:Hsplit; [done|].
    injection Hext as Hc Hrest.
    apply (IngestMore.lower_char_fixes "." c) in Hc as ->; [|by left].
    exists rest. split; [by apply extension_of_splitext|].
    by apply IngestMore.lower_letters. }
  split_and!.
  - intros e He. pose proof (file_ext_of_extension file e He) as Hext.
    unfold Ingest.ingest_file. rewrite IngestFacts.loader_map_lookup, Hext.
    split_and!; intros Hcase;
      apply IngestMore.lower_letters in Hcase as ->;
      try done; repeat split; vm_compute; lia.
  - intros Hnone. unfold Ingest.ingest_file.
    rewrite IngestFacts.loader_map_lookup.
    repeat case_decide; try done;
      match goal with
      | H : file_ext file = String "." ?word |- _ =>
          destruct (Hback word) as (e & He & Hcase);
            [repeat split; vm_compute; lia|exact H|];
            destruct (Hnone e He) as (? & ? & ?); done
      end.
  - unfold file_ext.
    destruct (IngestMore.splitext_parts (name file))
      as [_ [Hnone|(rest & Hext & _ & _)]].
    + left. by rewrite Hnone.
    + right. exists rest. split; [by apply extension_of_splitext|]. by rewrite Hext.
Qed.

End Loaders.

(** C8, as stated, fails on the class of the exception: the code raises
    the built-in [ValueError], there is no [UnsupportedTypeError].  And
    a file whose whole name is [.pdf] has no extension for
    [os.path.splitext]: it is refused, with an empty type in the text. *)
Lemma unsupported_type_is_value_error :
  Ingest.ingest_file (stub_loader "pdf") (stub_loader "docx") (stub_loader "csv")
    "{'.csv', '.pdf', '.docx'}" (mkUploadedFile "notes.txt" "") =
    inl (Exn "ValueError"
           "Unsupported file type: .txt. Supported: {'.csv', '.pdf', '.docx'}") ∧
  exn_class (unsupported "{'.csv', '.pdf', '.docx'}" ".txt") ≠ "UnsupportedTypeError" ∧
  Ingest.ingest_file (stub_loader "pdf") (stub_loader "docx") (stub_loader "csv")
    "{'.csv', '.pdf', '.docx'}" (mkUploadedFile ".pdf" "") =
    inl (Exn "ValueError"
           "Unsupported file type: . Supported: {'.csv', '.pdf', '.docx'}").
Proof. split_and!; [reflexivity|done|reflexivity]. Qed.

(** A name in capital letters reaches the PDF parser. *)
Example ingest_file_capitals :
  has_extension "Annual.Report.PDF" "PDF" ∧
  eq_ignoring_case "PDF" "pdf" ∧
  Ingest.ingest_file (stub_loader "pdf") (stub_loader "docx") (stub_loader "csv")
    "{'.csv', '.pdf', '.docx'}" (mkUploadedFile "Annual.Report.PDF" "") =
    stub_loader "pdf" (mkUploadedFile "Annual.Report.PDF" "").
Proof.
  split_and!.
  - exists "Annual.Report". split; [done|]. split; [by repeat split|].
    exists 0, "A"%char. split_and!; [done|done|].
    intros j _. do 13 (destruct j as [|j]; [done|]). done.
  - simpl. repeat split; right; left; vm_compute; lia.
  - reflexivity.
Qed.

End IngestDispatch.

Module ParsersFacts.

Import Ingest Parsers RagChain Aux.

(** *** The loops in closed form *)

Lemma append_chunks_closed meta idx chunks documents :
  append_chunks meta idx chunks documents =
    documents ++ imap (λ j chunk, mkDocument chunk (meta (idx + Z.of_nat j + 1)%Z)) chunks.
Proof.
  revert idx documents. induction chunks as [|c cs IH]; intros idx documents; simpl.
  - by rewrite app_nil_r.
  - rewrite IH, <-app_assoc. simpl. f_equal. f_equal.
    + do 2 f_equal. lia.
    + apply imap_ext. intros j x _. simpl. do 2 f_equal. lia.
Qed.

Lemma has_text_app_l s t : has_text s → has_text (s +:+ t).
Proof.
  induction s as [|c s IH]; simpl; [done|].
  destruct (is_space c); simpl; [apply IH|done].
Qed.

(** *** Keys of the documents of one PDF file *)

Lemma digits_dash_inj a b x y :
  str_forall is_digit a → str_forall is_digit b →
  a +:+ String "-" x = b +:+ String "-" y → a = b ∧ x = y.
Proof.
  revert b. induction a as [|c a IH]; intros [|d b] Ha Hb Heq; simpl in *.
  - by simplify_eq.
  - injection Heq as <- _. destruct Hb as [Hd _]. compute in Hd. lia.
  - injection Heq as -> _. destruct Ha as [Hc _]. compute in Hc. lia.
  - injection Heq as -> Heq. destruct Ha as [_ Ha], Hb as [_ Hb].
    destruct (IH b Ha Hb Heq) as [-> ->]. done.
Qed.

Lemma source_key_pdf chunk source page_num idx :
  source_key (mkDocument chunk (pdf_metadata source page_num idx)) =
    source +:+ "-p" +:+ pretty page_num +:+ "-c" +:+ pretty idx.
Proof.
  unfold source_key, dict_get, pdf_metadata. simpl. by simplify_map_eq.
Qed.

Lemma source_key_pdf_inj chunk chunk' source p p' c c' :
  (0 ≤ p)%Z → (0 ≤ p')%Z →
  source_key (mkDocument chunk (pdf_metadata source p c)) =
    source_key (mkDocument chunk' (pdf_metadata source p' c')) →
  p = p' ∧ c = c'.
Proof.
  intros Hp Hp'. rewrite !source_key_pdf. intros Heq.
  apply (inj (String.app source)) in Heq. injection Heq as Heq.
  apply digits_dash_inj in Heq as [Hpp Heq];
    [|by apply VectorStoreFacts.pretty_Z_digits..].
  apply (inj pretty) in Hpp. injection Heq as Heq. apply (inj pretty) in Heq. done.
Qed.

Lemma elem_of_page_documents split_text source i text d :
  d ∈ page_documents split_text source i text →
  ∃ j chunk, d = mkDocument chunk (pdf_metadata source (Z.of_nat i + 1) (Z.of_nat j + 1)).
Proof.
  unfold page_documents. destruct (has_text text); [|by intros ?%elem_of_nil].
  intros (j & chunk & -> & _)%elem_of_lookup_imap. eauto.
Qed.

Lemma page_documents_NoDup split_text source i text :
  NoDup (source_key <$> page_documents split_text source i text).
Proof.
  unfold page_documents. destruct (has_text text); [|constructor].
  apply NoDup_alt. intros j j' key.
  rewrite !list_lookup_fmap, !list_lookup_imap.
  destruct (split_text text !! j) as [c|]; [|done].
  destruct (split_text text !! j') as [c'|]; [|done].
  simpl. intros [= <-] [= Heq].
  apply source_key_pdf_inj in Heq as [_ Heq]; lia.
Qed.

Lemma pdf_documents_NoDup split_text source base pages :
  NoDup (source_key <$>
           concat (imap (λ i, page_documents split_text source (base + i)) pages)).
Proof.
  revert base. induction pages as [|text rest IH]; intros base; [constructor|].
  rewrite imap_cons. cbn [concat]. rewrite fmap_app. apply NoDup_app. split_and!.
  - apply page_documents_NoDup.
  - intros key (d & -> & Hd)%list_elem_of_fmap (d' & Heq & Hd')%list_elem_of_fmap.
    apply elem_of_page_documents in Hd as (j & chunk & ->).
    apply list_elem_of_In, in_concat in Hd' as (block & Hblock & Hd').
    apply list_elem_of_In, elem_of_lookup_imap in Hblock as (i & text' & -> & _).
    apply list_elem_of_In, elem_of_page_documents in Hd' as (j' & chunk' & ->).
    simpl in Heq. apply source_key_pdf_inj in Heq as [Heq _]; lia.
  - rewrite (imap_ext _ (λ i, page_documents split_text source (S base + i)))
      by (intros i x _; simpl; f_equal; lia).
    apply IH.
Qed.

Section Libraries.

Variable split_text : string -> list string.
Variable PdfReader : UploadedFile -> exn + list string.
Variable DocxDocument : UploadedFile -> exn + list string.
Variable read_csv : UploadedFile -> exn + (list string * list (list string)).

Lemma pdf_pages_closed source base pages documents :
  pdf_pages split_text source (Z.of_nat base + 1) pages documents =
    documents ++ concat (imap (λ i, page_documents split_text source (base + i)) pages).
Proof.
  revert base documents. induction pages as [|text rest IH]; intros base documents.
  - simpl. by rewrite app_nil_r.
  - cbn [pdf_pages]. rewrite imap_cons. cbn [concat].
    replace (Z.of_nat base + 1 + 1)%Z with (Z.of_nat (S base) + 1)%Z by lia.
    rewrite IH.
    rewrite (imap_ext (λ i, page_documents split_text source (S base + i))
               ((λ i, page_documents split_text source (base + i)) ∘ S))
      by (intros i x _; simpl; f_equal; lia).
    rewrite Nat.add_0_r. unfold page_documents at 2.
    destruct (has_text text); [|done].
    rewrite append_chunks_closed, <-app_assoc. do 2 f_equal.
Qed.

Lemma load_pdf_pages_of (file : UploadedFile) :
  match PdfReader file with
  | inl e => _load_pdf split_text PdfReader file = inl e
  | inr pages =>
      _load_pdf split_text PdfReader file =
        inr (concat (imap (page_documents split_text (name file)) pages))
  end.
Proof.
  unfold _load_pdf. destruct (PdfReader file) as [e|pages]; [done|].
  f_equal. change 1%Z with (Z.of_nat 0 + 1)%Z. by rewrite pdf_pages_closed.
Qed.

(** X21: [_load_pdf] numbers pages by their position in the file, from 1,
    blank pages included, and chunks from 1 again on every page: its
    documents are, page after page, the chunks of each page that has
    text, each with the name of the file, the page number, the chunk
    number and the type "pdf"; a page without text gives no document.  An
    exception of the reader is raised as it is. *)
Theorem load_pdf_pages (file : UploadedFile) :
  match PdfReader file with
  | inl e => _load_pdf split_text PdfReader file = inl e
  | inr pages =>
      ∃ docs,
        _load_pdf split_text PdfReader file = inr docs ∧
        docs = concat (imap (page_documents split_text (name file)) pages) ∧
        ∀ d, d ∈ docs ↔
             ∃ i text j chunk,
               pages !! i = Some text ∧ has_text text ∧
               split_text text !! j = Some chunk ∧
               d = mkDocument chunk
                     (pdf_metadata (name file) (Z.of_nat i + 1) (Z.of_nat j + 1))
  end.
Proof.
  pose proof (load_pdf_pages_of file) as Hload.
  destruct (PdfReader file) as [e|pages]; [done|].
  eexists. split; [exact Hload|]. split; [done|].
  intros d. rewrite list_elem_of_In, in_concat. split.
  - intros (block & Hblock & Hd).
    apply list_elem_of_In, elem_of_lookup_imap in Hblock as (i & text & -> & Htext).
    apply list_elem_of_In in Hd. unfold page_documents in Hd.
    destruct (has_text text) eqn:Hhas; [|by apply elem_of_nil in Hd].
    apply elem_of_lookup_imap in Hd as (j & chunk & -> & Hchunk).
    exists i, text, j, chunk. by rewrite Hhas.
  - intros (i & text & j & chunk & Htext & Hhas & Hchunk & ->).
    exists (page_documents split_text (name file) i text). split.
    + apply list_elem_of_In, elem_of_lookup_imap. eauto.
    + apply list_elem_of_In. unfold page_documents.
      destruct (has_text text); [|done].
      apply elem_of_lookup_imap. eauto.
Qed.

(** X22: [_load_docx] joins with newlines the paragraphs that have text.
    When no paragraph has text it returns no document, whatever the
    splitter does; otherwise its documents are the chunks of the joined
    text, numbered from 1, with the name of the file and the type "docx",
    and without a page. *)
Theorem load_docx_paragraphs (file : UploadedFile) (paragraphs : list string) :
  DocxDocument file = inr paragraphs →
  let full_text := String.concat newline (filter (λ text, has_text text) paragraphs) in
  (Forall (λ text, ¬ has_text text) paragraphs →
     _load_docx split_text DocxDocument file = inr []) ∧
  (Exists (λ text, has_text text) paragraphs →
     _load_docx split_text DocxDocument file =
       inr (imap (λ j chunk,
                    mkDocument chunk (docx_metadata (name file) (Z.of_nat j + 1)))
                 (split_text full_text))) ∧
  ∀ j, docx_metadata (name file) j !! "page" = None.
Proof.
  intros Hread full_text. unfold _load_docx. rewrite Hread. fold full_text.
  split_and!.
  - intros Hblank.
    assert (filter (λ text, has_text text) paragraphs = []) as Hnone.
    { clear -Hblank. induction Hblank as [|p ps Hp _ IH]; [done|].
      by rewrite filter_cons_False. }
    subst full_text. by rewrite Hnone.
  - intros Hsome.
    assert (has_text full_text) as Htext.
    { subst full_text. clear Hread.
      induction paragraphs as [|p ps IH]; [by apply Exists_nil in Hsome|].
      destruct (decide (has_text p)) as [Hp|Hp].
      - rewrite filter_cons_True by done.
        destruct (filter (λ text, has_text text) ps); simpl; [done|].
        by apply has_text_app_l.
      - rewrite filter_cons_False by done. apply IH.
        apply Exists_cons in Hsome as [?|?]; done. }
    destruct (has_text full_text); [|done]. simpl.
    by rewrite append_chunks_closed.
  - intros j. unfold docx_metadata. by simplify_map_eq.
Qed.

(** X23: [_load_csv] writes every row as its values, each after the name
    of its column and a colon, joined by bars, joins the rows by
    newlines, and makes one document of each chunk of that text, numbered
    from 1, with the name of the file, the type "csv" and the column
    names joined by commas. *)
Theorem load_csv_rows (file : UploadedFile) (columns : list string)
    (rows : list (list string)) :
  read_csv file = inr (columns, rows) →
  _load_csv split_text read_csv file =
    inr (imap (λ j chunk,
                 mkDocument chunk
                   (csv_metadata (name file) (Z.of_nat j + 1) columns))
              (split_text
                 (String.concat newline
                    ((λ row, String.concat " | "
                               (zip_with (λ col val, col +:+ ": " +:+ val) columns row))
                       <$> rows)))).
Proof.
  intros Hread. unfold _load_csv. rewrite Hread. by rewrite append_chunks_closed.
Qed.

(** X24: the documents [_load_pdf] makes of one file have pairwise
    distinct citation keys, a page and chunk number each of its own, so
    [_extract_sources] merges none of them: every chunk of the file that
    is retrieved is cited. *)
Theorem load_pdf_distinct_keys (file : UploadedFile) (pages : list string) :
  PdfReader file = inr pages →
  ∃ docs,
    _load_pdf split_text PdfReader file = inr docs ∧
    NoDup (source_key <$> docs) ∧
    _extract_sources docs = citation_of <$> docs.
Proof.
  intros Hread. pose proof (load_pdf_pages_of file) as Hload. rewrite Hread in Hload.
  eexists. split; [exact Hload|].
  assert (NoDup (source_key <$>
                   concat (imap (page_documents split_text (name file)) pages))) as Hnodup
    by apply (pdf_documents_NoDup split_text (name file) 0 pages).
  split; [done|]. by apply RagChainMore.extract_sources_of_distinct.
Qed.

End Libraries.


(** Three pages, the second blank: the chunks of the third page carry the
    page number 3. *)
Example load_pdf_example :
  _load_pdf split_words three_pages (mkUploadedFile "sky.pdf" "") =
    inr [mkDocument "The" (pdf_metadata "sky.pdf" 1 1);
         mkDocument "sky" (pdf_metadata "sky.pdf" 1 2);
         mkDocument "is" (pdf_metadata "sky.pdf" 1 3);
         mkDocument "blue." (pdf_metadata "sky.pdf" 1 4);
         mkDocument "Grass" (pdf_metadata "sky.pdf" 3 1);
         mkDocument "is" (pdf_metadata "sky.pdf" 3 2);
         mkDocument "green." (pdf_metadata "sky.pdf" 3 3)].
Proof. reflexivity. Qed.

Lemma load_pdf_distinct_keys_witness :
  ∃ docs,
    _load_pdf split_words three_pages (mkUploadedFile "sky.pdf" "") = inr docs ∧
    NoDup (source_key <$> docs) ∧
    _extract_sources docs = citation_of <$> docs.
Proof.
  apply (load_pdf_distinct_keys split_words three_pages (mkUploadedFile "sky.pdf" "")
           ["The sky is blue."; "   "; "Grass is green."]).
  reflexivity.
Defined.

Lemma load_docx_paragraphs_witness :
  let file := mkUploadedFile "notes.docx" "" in
  let paragraphs := ["Title"; "  "; "The sky is blue."] in
  let full_text := String.concat newline (filter (λ text, has_text text) paragraphs) in
  (Forall (λ text, ¬ has_text text) paragraphs →
     _load_docx split_words some_paragraphs file = inr []) ∧
  (Exists (λ text, has_text text) paragraphs →
     _load_docx split_words some_paragraphs file =
       inr (imap (λ j chunk,
                    mkDocument chunk (docx_metadata (name file) (Z.of_nat j + 1)))
                 (split_words full_text))) ∧
  ∀ j, docx_metadata (name file) j !! "page" = None.
Proof.
  apply (load_docx_paragraphs split_words some_paragraphs (mkUploadedFile "notes.docx" "")
           ["Title"; "  "; "The sky is blue."]).
  reflexivity.
Defined.

Lemma load_csv_rows_witness :
  _load_csv split_words small_table (mkUploadedFile "sky.csv" "") =
    inr (imap (λ j chunk,
                 mkDocument chunk
                   (csv_metadata "sky.csv" (Z.of_nat j + 1) ["city"; "sky"]))
              (split_words
                 (String.concat newline
                    ((λ row, String.concat " | "
                               (zip_with (λ col val, col +:+ ": " +:+ val)
                                  ["city"; "sky"] row))
                       <$> [["Oslo"; "grey"]; ["Rome"; "blue"]])))).
Proof.
  apply (load_csv_rows split_words small_table (mkUploadedFile "sky.csv" "")
           ["city"; "sky"] [["Oslo"; "grey"]; ["Rome"; "blue"]]).
  reflexivity.
Defined.

(** The text of the table handed to the splitter. *)
Example row_str_example :
  String.concat newline (row_str ["city"; "sky"] <$> [["Oslo"; "grey"]; ["Rome"; "blue"]]) =
    "city: Oslo | sky: grey" +:+ newline +:+ "city: Rome | sky: blue".
Proof. reflexivity. Qed.
End ParsersFacts.

Module AppFacts.

Import VectorStore RagChain Ingest App Aux.

(** *** The box of a source *)

Lemma str_app_assoc (a b c : string) : (a +:+ b) +:+ c = a +:+ (b +:+ c).
Proof.
  induction a as [|x a IH]; [done|].
  change (String x ((a +:+ b) +:+ c) = String x (a +:+ (b +:+ c))). by rewrite IH.
Qed.

(** X25: the box of a citation made by [_extract_sources] is always
    drawn, never a [KeyError]: it shows the source, the page when the
    citation has one, the chunk when it has one, and the snippet. *)
Theorem source_info_box_of_citation (doc : Document) :
  let page := dict_get (metadata doc) "page" (PStr "") in
  let chunk := dict_get (metadata doc) "chunk" (PStr "") in
  source_info_box (citation_of doc) =
    inr ("📄 **" +:+ fmt (dict_get (metadata doc) "source" (PStr "Unknown")) +:+ "**" +:+
         (if truthy page then " — Page " +:+ fmt page else "") +:+
         (if truthy chunk then ", Chunk " +:+ fmt chunk else "") +:+
         newline +:+ newline +:+ "_" +:+ snippet_of doc +:+ "_").
Proof.
  intros page chunk. unfold source_info_box, dict_item, dict_get, citation_of.
  fold page chunk.
  destruct (truthy page), (truthy chunk); simplify_map_eq; f_equal;
    rewrite ?str_app_assoc; reflexivity.
Qed.


(** *** The handlers *)

Section Handlers.

Context {Store : Type}.
Variable chroma : Collection Store.
Variable hash : string -> Z.
Variable create : ChatRequest -> exn + string.
Variables _load_pdf _load_docx _load_csv : UploadedFile -> exn + list Document.
Variable SUPPORTED_EXTENSIONS_repr : string.

Abbreviation ingest_files :=
  (Ingest.ingest_files _load_pdf _load_docx _load_csv SUPPORTED_EXTENSIONS_repr).
Abbreviation process_documents :=
  (App.process_documents chroma hash _load_pdf _load_docx _load_csv SUPPORTED_EXTENSIONS_repr).
Abbreviation clear_knowledge_base := (App.clear_knowledge_base chroma).
Abbreviation chat_input := (App.chat_input chroma create).

(** when a file of the upload cannot be ingested, "Process
    Documents" stores nothing, not even the chunks of the files that did
    parse: the store is not called, the session is as before, and the
    page shows the text of the exception. *)
Theorem process_documents_ingest_failure (uploaded_files : list UploadedFile)
    (w : World Store) (e : exn) :
  uploaded_files ≠ [] →
  ingest_files uploaded_files = inl e →
  process_documents uploaded_files w =
    (inr tt,
     mkWorld (store w) (session w)
       (screen w ++ [ShowError ("❌ Error processing documents: " +:+ exn_str e)])
       (requests w)).
Proof.
  intros Hfiles Hingest. unfold App.process_documents.
  destruct uploaded_files as [|f fs]; [done|].
  unfold try_except, mbind, M_bind, bind, lift. by rewrite Hingest.
Qed.

(** X26: "Process Documents" never lets an exception through, sends no
    request and leaves the chat history and the mode alone.  It marks the
    documents as loaded, with the names of the files, only when
    [add_documents] stored every batch; otherwise the session is as
    before and an error is shown, also when some batches were stored
    before [add_documents] failed. *)
Theorem process_documents_outcome (uploaded_files : list UploadedFile) (w : World Store) :
  let w' := (process_documents uploaded_files w).2 in
  (process_documents uploaded_files w).1 = inr tt ∧
  requests w' = requests w ∧
  chat_history (session w') = chat_history (session w) ∧
  mode (session w') = mode (session w) ∧
  ((uploaded_files = [] ∧ w' = w) ∨
   (session w' = session w ∧ ∃ text, screen w' = screen w ++ [ShowError text]) ∨
   (∃ documents,
      ingest_files uploaded_files = inr documents ∧
      documents ≠ [] ∧
      add_documents chroma hash documents (store w) = (inr tt, store w') ∧
      documents_loaded (session w') = true ∧
      file_names (session w') = name <$> uploaded_files)).
Proof.
  unfold App.process_documents.
  destruct uploaded_files as [|f fs]; [simpl; by eauto 10|].
  unfold try_except, mbind, M_bind, bind, lift, on_store, show, get_session, put_session.
  destruct (ingest_files (f :: fs)) as [e|[|d ds]] eqn:Hingest; simpl.
  - split_and!; [done..|]. right. left. eauto.
  - split_and!; [done..|]. right. left. eauto.
  - destruct (add_documents chroma hash (d :: ds) (store w)) as [[e|[]] st] eqn:Hadd; simpl.
    + split_and!; [done..|]. right. left. eauto.
    + split_and!; [done..|]. right. right. exists (d :: ds). by rewrite Hadd.
Qed.

(** X27: "Clear Knowledge Base" always reports success: it empties the
    chat history and the file names, marks no document as loaded, keeps
    the mode and shows "Knowledge base cleared!", whatever [clear] did
    to the store, also when the store raised and kept its records. *)
Theorem clear_knowledge_base_always_succeeds (w : World Store) :
  clear_knowledge_base w =
    (inr tt,
     mkWorld (clear chroma (store w)).2
       (mkSessionState [] false (mode (session w)) [])
       (screen w ++ [ShowSuccess "Knowledge base cleared!"])
       (requests w)).
Proof.
  unfold App.clear_knowledge_base, mbind, M_bind, bind, on_store, show,
    get_session, put_session.
  pose proof (VectorStoreFacts.clear_returns chroma (store w)) as Hclear.
  destruct (clear chroma (store w)) as [[e|[]] st]; [done|]. done.
Qed.

(** X28: a question asked while no document is marked as loaded and the
    count is 0 is not answered: a warning is shown, no search is made, no
    request is sent and the history is as before.  The count is 0 also
    when the store raised while counting. *)
Theorem chat_input_without_documents (prompt : string) (w : World Store) (st : Store) :
  prompt ≠ "" →
  documents_loaded (session w) = false →
  get_document_count chroma (store w) = (inr 0%Z, st) →
  chat_input prompt w =
    (inr tt,
     mkWorld st (session w)
       (screen w ++
        [ShowWarning "⚠️ Please upload and process documents first using the sidebar."])
       (requests w)).
Proof.
  intros Hprompt Hloaded Hcount. unfold App.chat_input.
  rewrite decide_False by done.
  unfold unloaded_and_count, mbind, M_bind, bind, on_store, show, get_session, ret.
  simpl. rewrite Hloaded, Hcount. done.
Qed.

End Handlers.


(** *** A question *)

Lemma source_info_box_ok (doc : Document) :
  ∃ box, source_info_box (citation_of doc) = inr box.
Proof.
  unfold source_info_box, dict_item, citation_of.
  destruct (truthy _), (truthy _); simplify_map_eq; eauto.
Qed.

Lemma length_dialogue_of turns : length (dialogue_of turns) = 2 * length turns.
Proof.
  unfold dialogue_of. induction turns as [|t ts IH]; [done|].
  rewrite bind_cons, length_app, IH. simpl. lia.
Qed.

Lemma drop_dialogue_of k turns :
  drop (2 * k) (dialogue_of turns) = dialogue_of (drop k turns).
Proof.
  unfold dialogue_of. revert turns. induction k as [|k IH]; intros turns; [done|].
  destruct turns as [|t ts]; [done|].
  replace (2 * S k) with (S (S (2 * k))) by lia. rewrite bind_cons. simpl. apply IH.
Qed.

Lemma dialogue_messages turns :
  (λ e : string * string, mkMessage e.1 e.2) <$>
    filter sent_role ((λ entry, (entry_role entry, entry_content entry)) <$> dialogue_of turns)
  = turns ≫= exchange_messages.
Proof.
  unfold dialogue_of. induction turns as [|[[q a] srcs] ts IH]; [done|].
  rewrite !bind_cons, fmap_app, filter_app, fmap_app, IH. done.
Qed.

Section Chat.

Context {Store : Type}.
Variable chroma : Collection Store.
Variable hash : string -> Z.
Variable create : ChatRequest -> exn + string.
Variables _load_pdf _load_docx _load_csv : UploadedFile -> exn + list Document.
Variable SUPPORTED_EXTENSIONS_repr : string.

Abbreviation process_documents :=
  (App.process_documents chroma hash _load_pdf _load_docx _load_csv SUPPORTED_EXTENSIONS_repr).
Abbreviation clear_knowledge_base := (App.clear_knowledge_base chroma).
Abbreviation chat_input := (App.chat_input chroma create).
Abbreviation answer_question := (App.answer_question chroma create).
Abbreviation handler :=
  (App.handler chroma hash create _load_pdf _load_docx _load_csv SUPPORTED_EXTENSIONS_repr).
Abbreviation run :=
  (App.run chroma hash create _load_pdf _load_docx _load_csv SUPPORTED_EXTENSIONS_repr).

Lemma unloaded_and_count_ok (test : Z → bool) (w : World Store) :
  ∃ b st,
    unloaded_and_count chroma test w =
      (inr b, mkWorld st (session w) (screen w) (requests w)).
Proof.
  unfold unloaded_and_count, mbind, M_bind, bind, on_store, get_session, ret.
  destruct (documents_loaded (session w)); [exists false, (store w); by destruct w|].
  unfold get_document_count, try_except, mbind, M_bind, bind, _get_collection, ret.
  destruct (get_or_create_collection chroma (store w)) as [[e|[]] s0]; simpl; [by eauto|].
  destruct (collection_count chroma s0) as [[e|c] s1]; simpl; by eauto.
Qed.

Lemma show_sources_ok (docs : list Document) (w : World Store) :
  ∃ boxes,
    show_sources (citation_of <$> docs) w =
      (inr tt, mkWorld (store w) (session w) (screen w ++ boxes) (requests w)).
Proof.
  revert w. induction docs as [|d ds IH]; intros w.
  - exists []. simpl. unfold ret. destruct w. simpl. by rewrite app_nil_r.
  - destruct (source_info_box_ok d) as [box Hbox]. simpl.
    unfold mbind, M_bind, bind, lift, show. rewrite Hbox. simpl.
    destruct (IH (mkWorld (store w) (session w) (screen w ++ [ShowInfo box]) (requests w)))
      as [boxes Hrest].
    exists (ShowInfo box :: boxes). etrans; [exact Hrest|].
    simpl. by rewrite <-app_assoc.
Qed.

Lemma show_source_list_ok (docs : list Document) (w : World Store) :
  ∃ shown,
    show_source_list (citation_of <$> docs) w =
      (inr tt, mkWorld (store w) (session w) (screen w ++ shown) (requests w)).
Proof.
  destruct docs as [|d ds].
  - exists []. simpl. unfold ret. destruct w. simpl. by rewrite app_nil_r.
  - set (title := "📎 Sources (" +:+ pretty (length (citation_of <$> d :: ds)) +:+
                  " references)").
    destruct (show_sources_ok (d :: ds)
                (mkWorld (store w) (session w) (screen w ++ [ShowExpander title])
                   (requests w))) as [boxes Hboxes].
    exists (ShowExpander title :: boxes).
    etrans; [exact Hboxes|]. simpl. by rewrite <-app_assoc.
Qed.

(** The block that answers: the search raises and nothing else happens,
    or one request is sent and the exchange is saved. *)
Lemma answer_question_cases (prompt : string) (w : World Store) :
  (∃ e st,
     answer_question prompt w =
       (inl e, mkWorld st (session w) (screen w) (requests w))) ∨
  (∃ retrieved_docs st shown,
     let out :=
       generate_answer create prompt retrieved_docs
         (Some ((λ entry, (entry_role entry, entry_content entry))
                  <$> chat_history (session w)))
         (mode (session w)) in
     answer_question prompt w =
       (inr tt,
        mkWorld st
          (mkSessionState
             ((chat_history (session w) ++ [mkChatEntry "user" prompt None]) ++
              [mkChatEntry "assistant" (answer out.2) (Some (sources out.2))])
             (documents_loaded (session w)) (mode (session w)) (file_names (session w)))
          (screen w ++ shown) (requests w ++ out.1))).
Proof.
  unfold App.answer_question, mbind, M_bind, bind, on_store.
  destruct (search chroma prompt 5 (store w)) as [[e|docs] st]; [left; by eauto|].
  right. exists docs, st.
  unfold get_session, sent, show, put_session, generate_answer.
  cbn [session store screen requests sources answer fst snd].
  rewrite RagChainFacts.extract_sources_first_occurrences, list_fmap_compose.
  match goal with
  | |- context [show_source_list ?srcs ?w0] =>
      destruct (show_source_list_ok (snd <$> first_occurrences ∅ 0 docs) w0)
        as [shown Hshown]; rewrite Hshown
  end.
  eexists (_ :: shown).
  cbn [chat_history documents_loaded mode file_names session store screen requests].
  rewrite <-!app_assoc. reflexivity.
Qed.

Lemma chat_input_cases (prompt : string) (w : World Store) :
  ∃ r w',
    chat_input prompt w = (r, w') ∧
    ((chat_history (session w') = chat_history (session w) ∧ requests w' = requests w) ∨
     (r = inr tt ∧
      ∃ retrieved_docs,
        let out :=
          generate_answer create prompt retrieved_docs
            (Some ((λ entry, (entry_role entry, entry_content entry))
                     <$> chat_history (session w)))
            (mode (session w)) in
        requests w' = requests w ++ out.1 ∧
        chat_history (session w') =
          chat_history (session w) ++
          [mkChatEntry "user" prompt None;
           mkChatEntry "assistant" (answer out.2) (Some (sources out.2))])).
Proof.
  unfold App.chat_input.
  destruct (decide (prompt = "")) as [?|_]; [eexists _, _; split; [reflexivity|by left]|].
  unfold mbind, M_bind, bind.
  destruct (unloaded_and_count_ok (λ n, (n =? 0)%Z) w) as (no_base & st1 & ->).
  destruct no_base; [eexists _, _; split; [reflexivity|by left]|].
  destruct (unloaded_and_count_ok (λ n, (0 <? n)%Z)
              (mkWorld st1 (session w) (screen w) (requests w))) as (found & st2 & ->).
  cbn [session screen requests store].
  set (w3 := mkWorld st2
               (if found
                then mkSessionState (chat_history (session w)) true (mode (session w))
                       (file_names (session w))
                else session w)
               (screen w ++ [ShowChatMessage "user" prompt]) (requests w)).
  assert (chat_history (session w3) = chat_history (session w) ∧
          mode (session w3) = mode (session w) ∧
          requests w3 = requests w) as (Hhist & Hmode & Hreq)
    by (subst w3; by destruct found).
  exists (answer_question prompt w3).1, (answer_question prompt w3).2. split.
  { subst w3. destruct found; cbn; by destruct (answer_question _ _). }
  destruct (answer_question_cases prompt w3) as [(e & st & ->)|(docs & st & shown & ->)];
    cbn [fst snd session requests chat_history].
  - left. by rewrite Hhist, Hreq.
  - right. split; [done|]. exists docs. rewrite Hhist, Hmode, Hreq.
    by rewrite <-app_assoc.
Qed.

(** The block that answers, when the search returns: one request is
    sent, the answer and the sources are shown, the exchange is saved. *)
Lemma answer_question_found (prompt : string) (w : World Store)
    (retrieved_docs : list Document) (st : Store) :
  search chroma prompt 5 (store w) = (inr retrieved_docs, st) →
  let out :=
    generate_answer create prompt retrieved_docs
      (Some ((λ entry, (entry_role entry, entry_content entry))
               <$> chat_history (session w)))
      (mode (session w)) in
  ∃ shown,
    answer_question prompt w =
      (inr tt,
       mkWorld st
         (mkSessionState
            ((chat_history (session w) ++ [mkChatEntry "user" prompt None]) ++
             [mkChatEntry "assistant" (answer out.2) (Some (sources out.2))])
            (documents_loaded (session w)) (mode (session w)) (file_names (session w)))
         (screen w ++ ShowChatMessage "assistant" (answer out.2) :: shown)
         (requests w ++ out.1)).
Proof.
  intros Hsearch out. subst out.
  unfold App.answer_question, mbind, M_bind, bind, on_store. rewrite Hsearch.
  unfold get_session, sent, show, put_session, generate_answer.
  cbn [session store screen requests sources answer fst snd].
  rewrite RagChainFacts.extract_sources_first_occurrences, list_fmap_compose.
  match goal with
  | |- context [show_source_list ?srcs ?w0] =>
      destruct (show_source_list_ok (snd <$> first_occurrences ∅ 0 retrieved_docs) w0)
        as [shown Hshown]; rewrite Hshown
  end.
  exists shown.
  cbn [chat_history documents_loaded mode file_names session store screen requests].
  rewrite <-!app_assoc. reflexivity.
Qed.

(** X29: a question, not empty, asked when documents are marked as
    loaded, or when none is but the store counts some, and the search
    returns: the handler completes and marks documents as loaded; it
    sends one request, made of the system message of the mode, the
    messages of the last five exchanges of the history, of all of them
    when there are fewer, and the user message built on the question and
    the documents the search returned; the reply is the text of the
    model, or the error text when the call raised; the question and the
    reply are shown, then the sources; and the exchange, the question and
    the reply with the citations of the documents the search returned, is
    appended to the history. *)
Theorem chat_input_exchange (prompt : string) (w : World Store)
    (turns : list (string * string * list (gmap string pyval)))
    (retrieved_docs : list Document) (st : Store) :
  prompt ≠ "" →
  documents_loaded (session w) = true ∨
    (∃ n, (0 < n)%Z ∧ get_document_count chroma (store w) = (inr n, store w)) →
  chat_history (session w) = dialogue_of turns →
  search chroma prompt 5 (store w) = (inr retrieved_docs, st) →
  let request :=
    mkChatRequest MODEL_ID
      ([mkMessage "system"
          (if decide (mode (session w) = "strict")
           then STRICT_SYSTEM_PROMPT else HYBRID_SYSTEM_PROMPT)] ++
       (drop (length turns - 5) turns ≫= exchange_messages) ++
       [mkMessage "user" (user_message_of (_build_context_string retrieved_docs) prompt)])
      1024%Z
      (if decide (mode (session w) = "strict") then 3 # 10 else 5 # 10)%Q in
  let reply :=
    match create request with
    | inr text => text
    | inl e => "❌ Error generating response: " +:+ exn_str e
    end in
  ∃ shown,
    chat_input prompt w =
      (inr tt,
       mkWorld st
         (mkSessionState
            (dialogue_of (turns ++ [(prompt, reply, _extract_sources retrieved_docs)]))
            true (mode (session w)) (file_names (session w)))
         (screen w ++
          [ShowChatMessage "user" prompt; ShowChatMessage "assistant" reply] ++ shown)
         (requests w ++ [request])).
Proof.
  intros Hprompt Hguard Hdialogue Hsearch request reply.
  set (w3 := mkWorld (store w)
               (mkSessionState (chat_history (session w)) true (mode (session w))
                  (file_names (session w)))
               (screen w ++ [ShowChatMessage "user" prompt]) (requests w)).
  assert (chat_input prompt w = answer_question prompt w3) as ->.
  { unfold App.chat_input. rewrite decide_False by done.
    unfold unloaded_and_count, mbind, M_bind, bind, get_session, on_store, show,
      put_session, ret. cbn [session store screen requests].
    destruct (documents_loaded (session w)) eqn:Hloaded.
    - cbn [session store screen requests]. rewrite Hloaded. subst w3.
      destruct w as [s0 [h l m f] sc rq]. simpl in *. by subst l.
    - destruct Hguard as [?|(n & Hn & Hcount)]; [done|]. rewrite Hcount.
      cbn [session store screen requests].
      rewrite (proj2 (Z.eqb_neq n 0)) by lia.
      cbn [session store screen requests]. rewrite Hloaded.
      cbn [session store screen requests]. rewrite Hcount.
      cbn [session store screen requests].
      rewrite (proj2 (Z.ltb_lt 0 n)) by lia. reflexivity. }
  destruct (answer_question_found prompt w3 retrieved_docs st Hsearch) as [shown Hanswer].
  exists shown. rewrite Hanswer. subst w3.
  cbn [chat_history documents_loaded mode file_names session store screen requests].
  assert (_format_chat_history
            ((λ entry, (entry_role entry, entry_content entry)) <$> chat_history (session w)) 5
          = drop (length turns - 5) turns ≫= exchange_messages) as Hwindow.
  { rewrite RagChainFacts.format_chat_history_window, Hdialogue.
    rewrite length_fmap, length_dialogue_of, <-fmap_drop.
    replace (2 * length turns - 10) with (2 * (length turns - 5)) by lia.
    by rewrite drop_dialogue_of, dialogue_messages. }
  assert (generate_answer create prompt retrieved_docs
            (Some ((λ entry, (entry_role entry, entry_content entry))
                     <$> chat_history (session w)))
            (mode (session w)) =
          ([request], mkAnswer reply (_extract_sources retrieved_docs))) as ->.
  { unfold generate_answer. rewrite Hwindow. reflexivity. }
  cbn [fst snd answer sources]. rewrite Hdialogue.
  unfold dialogue_of. rewrite bind_app, <-!app_assoc. reflexivity.
Qed.

Lemma process_documents_keeps (uploaded_files : list UploadedFile) (w : World Store) :
  let w' := (process_documents uploaded_files w).2 in
  chat_history (session w') = chat_history (session w) ∧ requests w' = requests w.
Proof.
  unfold App.process_documents. destruct uploaded_files as [|f files]; [done|].
  unfold try_except, mbind, M_bind, bind, lift.
  destruct (ingest_files _ _ _ _ (f :: files)) as [e|[|doc docs]]; [done..|].
  unfold on_store.
  by destruct (add_documents chroma hash (doc :: docs) (store w)) as [[e|[]] st].
Qed.

Lemma clear_knowledge_base_keeps (w : World Store) :
  let w' := (clear_knowledge_base w).2 in
  (chat_history (session w') = [] ∨ chat_history (session w') = chat_history (session w)) ∧
  requests w' = requests w.
Proof.
  unfold App.clear_knowledge_base, mbind, M_bind, bind, on_store.
  destruct (clear chroma (store w)) as [[e|[]] st]; cbn; auto.
Qed.

(** X30: from a session whose history is a sequence of whole exchanges,
    a new one for instance, whatever happens on the page, in any order
    and with any outcome, the chat history stays a sequence of whole exchanges, a
    question followed by its answer, and every request sent to the model
    carries whole exchanges only, five at most, between its system message
    and its question. *)
Theorem run_keeps_dialogue (events : list Event) (w : World Store) :
  (∃ turns, chat_history (session w) = dialogue_of turns) →
  Forall windowed (requests w) →
  let w' := run events w in
  (∃ turns, chat_history (session w') = dialogue_of turns) ∧
  Forall windowed (requests w').
Proof.
  unfold App.run. revert w.
  induction events as [|ev events IH]; intros w Hdialogue Hwindowed; [done|].
  cbn [foldl]. apply IH; clear IH; destruct Hdialogue as [turns Hturns].
  - destruct ev as [strict|files| |prompt]; cbn [handler].
    + by exists turns.
    + exists turns. by rewrite (proj1 (process_documents_keeps files w)).
    + destruct (proj1 (clear_knowledge_base_keeps w)) as [->| ->];
        [by exists []|by exists turns].
    + destruct (chat_input_cases prompt w)
        as (r & w' & -> & [[Hhist _]|(_ & docs & _ & Hhist)]);
        cbn [snd]; rewrite Hhist; [by exists turns|].
      eexists (turns ++ [(prompt, _, _)]).
      rewrite Hturns. unfold dialogue_of. by rewrite bind_app.
  - destruct ev as [strict|files| |prompt]; cbn [handler].
    + done.
    + by rewrite (proj2 (process_documents_keeps files w)).
    + by rewrite (proj2 (clear_knowledge_base_keeps w)).
    + destruct (chat_input_cases prompt w)
        as (r & w' & -> & [[_ Hreqs]|(_ & docs & Hreqs & _)]);
        cbn [snd]; rewrite Hreqs; [done|].
      apply Forall_app; split; [done|]. apply Forall_singleton.
      eexists _, (drop (length turns - 5) turns), _. split.
      * cbn [generate_answer fst req_messages]. rewrite <-app_assoc.
        cbn [app]. do 2 f_equal.
        rewrite RagChainFacts.format_chat_history_window, Hturns.
        rewrite length_fmap, length_dialogue_of, <-fmap_drop.
        replace (2 * length turns - 10) with (2 * (length turns - 5)) by lia.
        by rewrite drop_dialogue_of, dialogue_messages.
      * rewrite length_drop. lia.
Qed.

End Chat.

Lemma process_documents_ingest_failure_witness :
  App.process_documents ref const_hash
    (stub_loader "pdf") (stub_loader "docx") (stub_loader "csv") "{...}"
    [mkUploadedFile "a.pdf" ""; mkUploadedFile "notes.txt" ""] asked_once =
  (inr tt,
   mkWorld (store asked_once) (session asked_once)
     (screen asked_once ++
      [ShowError ("❌ Error processing documents: " +:+
                  exn_str (unsupported "{...}" ".txt"))])
     (requests asked_once)).
Proof.
  apply process_documents_ingest_failure; [done|reflexivity].
Defined.

Lemma chat_input_without_documents_witness :
  App.chat_input ref (fixed_client "Blue.") "What colour is the sky?" fresh_world =
  (inr tt,
   mkWorld (store fresh_world) (session fresh_world)
     (screen fresh_world ++
      [ShowWarning "⚠️ Please upload and process documents first using the sidebar."])
     (requests fresh_world)).
Proof.
  apply chat_input_without_documents; [done|reflexivity|reflexivity].
Defined.

Lemma chat_input_exchange_witness :
  let request :=
    mkChatRequest MODEL_ID
      ([mkMessage "system"
          (if decide (mode (session reader) = "strict")
           then STRICT_SYSTEM_PROMPT else HYBRID_SYSTEM_PROMPT)] ++
       (drop (length greeting - 5) greeting
          ≫= exchange_messages) ++
       [mkMessage "user"
          (user_message_of (_build_context_string sky_hits) "The sky is blue.")])
      1024%Z
      (if decide (mode (session reader) = "strict") then 3 # 10 else 5 # 10)%Q in
  let reply :=
    match fixed_client "Blue." request with
    | inr text => text
    | inl e => "❌ Error generating response: " +:+ exn_str e
    end in
  ∃ shown,
    App.chat_input ref (fixed_client "Blue.") "The sky is blue." reader =
      (inr tt,
       mkWorld library
         (mkSessionState
            (dialogue_of (greeting ++
                          [("The sky is blue.", reply, _extract_sources sky_hits)]))
            true (mode (session reader)) (file_names (session reader)))
         (screen reader ++
          [ShowChatMessage "user" "The sky is blue.";
           ShowChatMessage "assistant" reply] ++ shown)
         (requests reader ++ [request])).
Proof.
  apply (chat_input_exchange ref (fixed_client "Blue.") "The sky is blue." reader
           greeting sky_hits library);
    [done|by left|reflexivity|vm_compute; reflexivity].
Defined.

Lemma run_keeps_dialogue_witness :
  let w' :=
    App.run ref const_hash (fixed_client "Blue.")
      (stub_loader "pdf") (stub_loader "docx") (stub_loader "csv") "{...}"
      a_visit fresh_world in
  (∃ turns, chat_history (session w') = dialogue_of turns) ∧
  Forall windowed (requests w').
Proof.
  apply run_keeps_dialogue; [by exists []|constructor].
Defined.
End AppFacts.
